(** * LinkedIn Keyword Filter: the matching and incremental-processing engine

    A shallow embedding of the filtering engine of the extension:
    - [src/content/dom-utils.js] (lines 1-423): DOM utilities, regex matcher;
    - [src/unnamed/part_002] (lines 757-1222): DOM utilities, token matcher;
    - [src/unnamed/part_003]: content script;
    - [src/content/dom-utils.js] (lines 424-1300): content script with
      profiles, pending queue and health monitoring.

    JavaScript strings are sequences of UTF-16 code units and are modelled as
    [list N].  The built-ins of the host that depend on the Unicode character
    database ([toLowerCase], [normalize('NFD')], the [\p{L}] and [\p{N}]
    classes, the case folding of the [i] flag) are an interface, [Runtime];
    the facts about them that the proofs use are collected in [RuntimeLaws]. *)

From Stdlib Require Import ZArith NArith List Bool Lia String Ascii Sorted.
From stdpp Require Import base list gmap.

Open Scope N_scope.

(** ** Host language: strings, character classes, regular-expression steps *)

Module JS.

(** A string literal of the source, as code units (ASCII literals only). *)
Definition js (s : string) : list N :=
  map N_of_ascii (list_ascii_of_string s).

Definition SP : N := 32.

(** [\s] of a JavaScript regular expression, which is also the set removed by
    [String.prototype.trim]: WhiteSpace and LineTerminator. *)
Definition isSpace (c : N) : bool :=
  ((9 <=? c) && (c <=? 13)) || (c =? 32) || (c =? 0xA0) || (c =? 0x1680)
  || ((0x2000 <=? c) && (c <=? 0x200A)) || (c =? 0x2028) || (c =? 0x2029)
  || (c =? 0x202F) || (c =? 0x205F) || (c =? 0x3000) || (c =? 0xFEFF).

(** [\w] without the [u] flag: [A-Za-z0-9_]. *)
Definition isWordChar (c : N) : bool :=
  ((48 <=? c) && (c <=? 57)) || ((65 <=? c) && (c <=? 90)) || (c =? 95)
  || ((97 <=? c) && (c <=? 122)).

Definition isHighSurrogate (c : N) : bool := (0xD800 <=? c) && (c <=? 0xDBFF).
Definition isLowSurrogate (c : N) : bool := (0xDC00 <=? c) && (c <=? 0xDFFF).
Definition isSurrogate (c : N) : bool := (0xD800 <=? c) && (c <=? 0xDFFF).

(** The code point of a surrogate pair. *)
Definition codePoint (hi lo : N) : N :=
  0x10000 + (hi - 0xD800) * 0x400 + (lo - 0xDC00).

(** The part of the host that depends on the Unicode character database. *)
Record Runtime := {
  (** [String.prototype.toLowerCase] *)
  toLowerCase : list N -> list N;
  (** [String.prototype.normalize('NFD')] *)
  normalizeNFD : list N -> list N;
  (** [\p{L}] or [\p{N}] on a code point that is not a surrogate *)
  isLetterOrNumber : N -> bool;
  (** Canonicalize of a regular expression with the [i] flag and without the
      [u] flag: the simple upper-case mapping of one code unit *)
  canonicalize : N -> N
}.

(** A code unit is settled when lower-casing and canonical decomposition leave
    the one-unit string unchanged. *)
Definition settled (rt : Runtime) (c : N) : Prop :=
  toLowerCase rt [c] = [c] /\ normalizeNFD rt [c] = [c].

(** Facts of the Unicode character database the proofs rely on.  Below U+0180
    every character is a starter and none has a context-dependent case
    mapping, so a string of settled characters of that range is a fixed point
    of both operations; a decomposed lower-case string has only settled
    characters in that range; white space has no case mapping and decomposes
    to white space; no letter or number is white space; the case folding of
    the [i] flag never identifies a character of [\w] with one outside. *)
Record RuntimeLaws (rt : Runtime) : Prop := {
  settled_string : forall t : list N,
    (forall u, u ∈ t -> u < 0x180 /\ settled rt u) ->
    toLowerCase rt t = t /\ normalizeNFD rt t = t;
  decomposed_settled : forall (s : list N) (u : N),
    u ∈ normalizeNFD rt (toLowerCase rt s) -> u < 0x180 -> settled rt u;
  ascii_settled : forall u : N,
    u < 128 -> (u < 65 \/ 90 < u) -> settled rt u;
  lower_space : forall s : list N,
    existsb isSpace (toLowerCase rt s) = existsb isSpace s;
  lower_blank : forall s : list N,
    forallb isSpace s = true -> forallb isSpace (toLowerCase rt s) = true;
  nfd_blank : forall s : list N,
    forallb isSpace s = true -> forallb isSpace (normalizeNFD rt s) = true;
  letter_not_space : forall c : N,
    isLetterOrNumber rt c = true -> isSpace c = false;
  canonical_word : forall a b : N,
    canonicalize rt a = canonicalize rt b -> isWordChar a = isWordChar b
}.

(** *** Global replacement

    A matcher gives the length, in code units, of the match of a regular
    expression that starts at the head of its argument.  None of the
    expressions of the source matches the empty string. *)
Definition matcher := list N -> option nat.

Definition fires (m : matcher) (s : list N) : bool :=
  match m s with Some (S _) => true | _ => false end.

(** [s.replace(/re/g, rep)]: scan from the left; at a match emit [rep] and
    resume after the match ([skip] counts the units of the match still to be
    passed over); elsewhere copy one unit. *)
Fixpoint replaceAll (m : matcher) (rep : list N) (skip : nat) (s : list N)
  : list N :=
  match s with
  | [] => []
  | c :: r =>
    match skip with
    | S k => replaceAll m rep k r
    | O =>
      match m s with
      | Some (S k) => rep ++ replaceAll m rep k r
      | _ => c :: replaceAll m rep 0 r
      end
    end
  end.

Fixpoint takeWhile (p : N -> bool) (s : list N) : list N :=
  match s with
  | c :: r => if p c then c :: takeWhile p r else []
  | [] => []
  end.

Definition notSpace (c : N) : bool := negb (isSpace c).

Fixpoint startsWith (p s : list N) : bool :=
  match p, s with
  | [], _ => true
  | a :: p', b :: s' => (a =? b) && startsWith p' s'
  | _ :: _, [] => false
  end.

(** [/[\u0300-\u036f]/]: one combining diacritical mark. *)
Definition markMatch : matcher := fun s =>
  match s with
  | c :: _ => if (0x300 <=? c) && (c <=? 0x36F) then Some 1%nat else None
  | [] => None
  end.

(** [/https?:\/\/\S+/]: the scheme and at least one unit that is not white
    space, extended to the end of the run of such units. *)
Definition urlAfter (scheme s : list N) : option nat :=
  if startsWith scheme s then
    match length (takeWhile notSpace (drop (length scheme) s)) with
    | O => None
    | n => Some (length scheme + n)%nat
    end
  else None.

Definition urlMatch : matcher := fun s =>
  match urlAfter (js "https://") s with
  | Some n => Some n
  | None => urlAfter (js "http://") s
  end.

(** [[\p{L}\p{N}_-]] on one code unit that stands for itself. *)
Definition bodyUnit (rt : Runtime) (c : N) : bool :=
  negb (isSurrogate c) && (isLetterOrNumber rt c || (c =? 95) || (c =? 45)).

(** Length in code units of the longest run of [[\p{L}\p{N}_-]] code points
    at the head of [s]; the [u] flag reads a surrogate pair as one code
    point. *)
Fixpoint mentionBody (rt : Runtime) (s : list N) : nat :=
  match s with
  | [] => O
  | c :: t =>
    match t with
    | d :: r =>
      if isHighSurrogate c && isLowSurrogate d then
        if isLetterOrNumber rt (codePoint c d)
        then S (S (mentionBody rt r)) else O
      else if bodyUnit rt c then S (mentionBody rt t) else O
    | [] => if bodyUnit rt c then 1%nat else O
    end
  end.

(** [/[@#][\p{L}\p{N}_-]+/u] *)
Definition mentionMatch (rt : Runtime) : matcher := fun s =>
  match s with
  | c :: r =>
    if (c =? 64) || (c =? 35) then
      match mentionBody rt r with
      | O => None
      | n => Some (S n)
      end
    else None
  | [] => None
  end.

(** The six ranges of the emoji expression, on a code point. *)
Definition isEmoji (cp : N) : bool :=
  ((0x1F600 <=? cp) && (cp <=? 0x1F64F))
  || ((0x1F300 <=? cp) && (cp <=? 0x1F5FF))
  || ((0x1F680 <=? cp) && (cp <=? 0x1F6FF))
  || ((0x1F1E0 <=? cp) && (cp <=? 0x1F1FF))
  || ((0x2600 <=? cp) && (cp <=? 0x26FF))
  || ((0x2700 <=? cp) && (cp <=? 0x27BF)).

Definition emojiMatch : matcher := fun s =>
  match s with
  | c :: r =>
    match r with
    | d :: _ =>
      if isHighSurrogate c && isLowSurrogate d then
        if isEmoji (codePoint c d) then Some 2%nat else None
      else if isEmoji c then Some 1%nat else None
    | [] => if isEmoji c then Some 1%nat else None
    end
  | [] => None
  end.

(** [/[^\w\s\u00C0-\u017F]/]: one unit outside the kept classes. *)
Definition isKept (c : N) : bool :=
  isWordChar c || isSpace c || ((0xC0 <=? c) && (c <=? 0x17F)).

Definition punctMatch : matcher := fun s =>
  match s with
  | c :: _ => if isKept c then None else Some 1%nat
  | [] => None
  end.

(** [/\s+/]: a maximal run of white space. *)
Definition spaceMatch : matcher := fun s =>
  match length (takeWhile isSpace s) with
  | O => None
  | n => Some n
  end.

(** [String.prototype.trim] *)
Fixpoint trimStart (s : list N) : list N :=
  match s with
  | c :: r => if isSpace c then trimStart r else s
  | [] => []
  end.

Fixpoint trimEnd (s : list N) : list N :=
  match s with
  | [] => []
  | c :: r =>
    match trimEnd r with
    | [] => if isSpace c then [] else [c]
    | t => c :: t
    end
  end.

Definition trim (s : list N) : list N := trimEnd (trimStart s).

(** Equality of strings, [===] on two strings. *)
Fixpoint strEq (a b : list N) : bool :=
  match a, b with
  | [], [] => true
  | x :: a', y :: b' => (x =? y) && strEq a' b'
  | _, _ => false
  end.

(** [String.prototype.endsWith] for a one-unit argument. *)
Definition endsWith (c : N) (s : list N) : bool :=
  match last s with
  | Some d => d =? c
  | None => false
  end.

(** [s.slice(0, -1)] *)
Definition dropLast (s : list N) : list N := take (length s - 1) s.

End JS.

(** ** Word sets and regular expressions built from a keyword *)

Module WordSet.
Import JS.

(** A [Set] of strings keeps its elements in insertion order and ignores the
    insertion of an element it already holds. *)
Definition has (x : list N) (set : list (list N)) : bool :=
  existsb (strEq x) set.

Definition add (set : list (list N)) (x : list N) : list (list N) :=
  if has x set then set else set ++ [x].

(** [Array.prototype.sort((a, b) => b.length - a.length)]: a stable sort,
    longest first. *)
Fixpoint insertByLength (x : list N) (l : list (list N)) : list (list N) :=
  match l with
  | [] => [x]
  | y :: l' =>
    if (length y <=? length x)%nat then x :: l
    else y :: insertByLength x l'
  end.

Definition sortLongestFirst (l : list (list N)) : list (list N) :=
  foldr insertByLength [] l.

End WordSet.

Module WordRegex.
Import JS.

(** The characters of [/[.*+?^${}()|[\]\\]/]. *)
Definition isRegexSpecial (c : N) : bool :=
  existsb (N.eqb c) (js ".*+?^${}()|[]" ++ [92]).

(** [word.replace(/[.*+?^${}()|[\]\\]/g, '\\$&')] *)
Definition escapeRegExp (word : list N) : list N :=
  flat_map (fun c => if isRegexSpecial c then [92; c] else [c]) word.

(** The units a pattern made of plain characters and of escaped characters
    stands for; every other construct is removed by [escapeRegExp]. *)
Fixpoint patternUnits (p : list N) : list N :=
  match p with
  | [] => []
  | c :: r =>
    if c =? 92 then
      match r with
      | d :: r' => d :: patternUnits r'
      | [] => []
      end
    else c :: patternUnits r
  end.

Definition isWordAt (c : option N) : bool :=
  match c with
  | Some x => isWordChar x
  | None => false
  end.

(** [\b] between two neighbours; [None] stands for an edge of the input. *)
Definition wordBoundary (prev next : option N) : bool :=
  xorb (isWordAt prev) (isWordAt next).

(** The units of the pattern at the head of [s], compared through the case
    folding of the [i] flag; gives the last matched unit and the rest. *)
Fixpoint matchUnits (rt : Runtime) (p s : list N) (prev : option N)
  : option (option N * list N) :=
  match p with
  | [] => Some (prev, s)
  | a :: p' =>
    match s with
    | b :: s' =>
      if canonicalize rt a =? canonicalize rt b
      then matchUnits rt p' s' (Some b) else None
    | [] => None
    end
  end.

(** [new RegExp(`\\b${escaped}\\b`, 'i')] tried at the head of [s], where
    [prev] is the unit before it. *)
Definition boundedAt (rt : Runtime) (pattern : list N) (prev : option N)
  (s : list N) : bool :=
  wordBoundary prev (head s) &&
  match matchUnits rt (patternUnits pattern) s prev with
  | Some (lastUnit, rest) => wordBoundary lastUnit (head rest)
  | None => false
  end.

(** [regex.test(text)]: a match at some position. *)
Fixpoint testFrom (rt : Runtime) (pattern : list N) (prev : option N)
  (s : list N) : bool :=
  boundedAt rt pattern prev s ||
  match s with
  | c :: r => testFrom rt pattern (Some c) r
  | [] => false
  end.

Definition test (rt : Runtime) (pattern text : list N) : bool :=
  testFrom rt pattern None text.

(** [text.replace(regex, open + '$&' + close)] with the [g] flag: at a match
    the matched units are copied between the two tags and the scan resumes
    after them. *)
Fixpoint wrapFrom (rt : Runtime) (pattern opening closing : list N)
  (prev : option N) (skip : nat) (s : list N) : list N :=
  match s with
  | [] => []
  | c :: r =>
    match skip with
    | S k =>
      c :: (if (k =? 0)%nat then closing else [])
        ++ wrapFrom rt pattern opening closing (Some c) k r
    | O =>
      if boundedAt rt pattern prev s then
        let k := (length (patternUnits pattern) - 1)%nat in
        opening ++ c :: (if (k =? 0)%nat then closing else [])
          ++ wrapFrom rt pattern opening closing (Some c) k r
      else c :: wrapFrom rt pattern opening closing (Some c) 0 r
    end
  end.

End WordRegex.

(** ** [src/content/dom-utils.js], lines 1-423 *)

Module DomUtils.
Import JS.

Section WithRuntime.
Context (rt : Runtime).

(** [normalizeText(text)] *)
Definition normalizeText (text : list N) : list N :=
  match text with
  | [] => []
  | _ =>
    let lowered := toLowerCase rt text in
    let unaccented := replaceAll markMatch [] 0 (normalizeNFD rt lowered) in
    let noUrls := replaceAll urlMatch [SP] 0 unaccented in
    let noMentions := replaceAll (mentionMatch rt) [SP] 0 noUrls in
    let noEmojis := replaceAll emojiMatch [SP] 0 noMentions in
    trim (replaceAll spaceMatch [SP] 0 noEmojis)
  end.

(** [generateWordVariations(word)] *)
Definition generateWordVariations (word : list N) : list (list N) :=
  match word with
  | [] => []
  | _ =>
    let variations := [word] in
    let variations :=
      if negb (endsWith 115 word) then variations ++ [word ++ [115]]
      else variations in
    let variations :=
      if endsWith 115 word && (1 <? length word)%nat
      then variations ++ [dropLast word]
      else variations in
    variations
  end.

(** [generateNormalizedWordSet(words)] *)
Definition generateNormalizedWordSet (words : list (list N))
  : list (list N) :=
  fold_left (fun wordSet word =>
    let normalized := normalizeText word in
    match normalized with
    | [] => wordSet
    | _ => fold_left WordSet.add (generateWordVariations normalized) wordSet
    end) words [].

(** [matchesAny(text, wordSet)] *)
Definition matchesAny (text : list N) (wordSet : list (list N)) : bool :=
  match text, wordSet with
  | [], _ => false
  | _, [] => false
  | _, _ =>
    let normalizedText := toLowerCase rt text in
    existsb (fun word =>
      match word with
      | [] => false
      | _ => WordRegex.test rt (WordRegex.escapeRegExp word) normalizedText
      end) wordSet
  end.

Definition markOpen : list N :=
  js "<mark class=" ++ [34] ++ js "lkw-highlight" ++ [34] ++ js ">".
Definition markClose : list N := js "</mark>".

(** The markup computed by [highlightKeywords(textElement, normalizedWords,
    mode)] from the text of the element, before it is assigned to
    [innerHTML]; [None] when the element is left alone. *)
Definition highlightKeywords (originalText : list N)
  (normalizedWords : list (list N)) (mode : list N)
  : option (list N) :=
  if negb (strEq mode (js "whitelist")) || (length normalizedWords =? 0)%nat
  then None
  else
    match trim originalText with
    | [] => None
    | _ =>
      let sortedWords := WordSet.sortLongestFirst normalizedWords in
      let highlightedText :=
        fold_left (fun acc word =>
          match word with
          | [] => acc
          | _ => WordRegex.wrapFrom rt (WordRegex.escapeRegExp word)
                   markOpen markClose None 0 acc
          end) sortedWords originalText in
      if strEq highlightedText originalText then None
      else Some highlightedText
    end.

End WithRuntime.
End DomUtils.

(** ** [src/unnamed/part_002], lines 757-1222 *)

Module DomUtils2.
Import JS.

(** [text.split(/\s+/)]: the pieces between the runs of white space; a run at
    an edge of the text leaves an empty piece there. *)
Fixpoint splitSpaces (piece : list N) (inRun : bool) (s : list N)
  : list (list N) :=
  match s with
  | [] => [piece]
  | c :: r =>
    if isSpace c then
      if inRun then splitSpaces [] true r
      else piece :: splitSpaces [] true r
    else splitSpaces (piece ++ [c]) false r
  end.

(** [textWord.replace(/[^\w\u00C0-\u017F]/g, '')] *)
Definition cleanWord (textWord : list N) : list N :=
  List.filter (fun c => isWordChar c || ((0xC0 <=? c) && (c <=? 0x17F)))
    textWord.

Section WithRuntime.
Context (rt : Runtime).

(** [normalizeText(text)] *)
Definition normalizeText (text : list N) : list N :=
  match text with
  | [] => []
  | _ =>
    let lowered := toLowerCase rt text in
    let unaccented := replaceAll markMatch [] 0 (normalizeNFD rt lowered) in
    let noUrls := replaceAll urlMatch [SP] 0 unaccented in
    let noMentions := replaceAll (mentionMatch rt) [SP] 0 noUrls in
    let noEmojis := replaceAll emojiMatch [SP] 0 noMentions in
    let noPunctuation := replaceAll punctMatch [SP] 0 noEmojis in
    trim (replaceAll spaceMatch [SP] 0 noPunctuation)
  end.

(** [generateWordVariations(word)] *)
Definition generateWordVariations (word : list N) : list (list N) :=
  if (length word <? 2)%nat then [word]
  else
    let variations := [word] in
    if (2 <? length word)%nat then
      let variations :=
        if negb (endsWith 115 word) then variations ++ [word ++ [115]]
        else variations in
      let variations :=
        if endsWith 115 word && (3 <? length word)%nat
        then variations ++ [dropLast word]
        else variations in
      variations
    else variations.

(** [generateNormalizedWordSet(words)] *)
Definition generateNormalizedWordSet (words : list (list N))
  : list (list N) :=
  fold_left (fun wordSet word =>
    let normalized := normalizeText word in
    match normalized with
    | [] => wordSet
    | _ => fold_left WordSet.add (generateWordVariations normalized) wordSet
    end) words [].

(** [matchesAny(text, wordSet)] *)
Definition matchesAny (text : list N) (wordSet : list (list N)) : bool :=
  match text, wordSet with
  | [], _ => false
  | _, [] => false
  | _, _ =>
    let normalizedText := toLowerCase rt text in
    let textWords := splitSpaces [] false normalizedText in
    existsb (fun word =>
      match word with
      | [] => false
      | _ =>
        existsb (fun textWord =>
          let cleanTextWord := cleanWord textWord in
          strEq (toLowerCase rt cleanTextWord) (toLowerCase rt word))
          textWords
      end) wordSet
  end.

End WithRuntime.
End DomUtils2.

(** ** A reference runtime

    The Unicode data of Basic Latin and Latin-1 Supplement (U+0000-U+00FF),
    the canonical combining classes of the combining diacritical marks
    (U+0300-U+036F) and of U+05B0 and U+20D7.  Characters outside this range
    are passed through unchanged.  It instantiates [Runtime] for the
    examples. *)

Module Reference.
Import JS.

(** Simple lower-case mapping. *)
Definition lowerUnit (c : N) : N :=
  if ((65 <=? c) && (c <=? 90))
     || ((0xC0 <=? c) && (c <=? 0xDE) && negb (c =? 0xD7))
  then c + 32 else c.

(** Second element of the canonical decomposition of the Latin-1 letters, by
    position in the row [C0..DF] or [E0..FF]. *)
Definition latin1Marks : list (N * N * N) :=
  [ (0, 97, 0x300); (1, 97, 0x301); (2, 97, 0x302); (3, 97, 0x303);
    (4, 97, 0x308); (5, 97, 0x30A); (7, 99, 0x327); (8, 101, 0x300);
    (9, 101, 0x301); (10, 101, 0x302); (11, 101, 0x308); (12, 105, 0x300);
    (13, 105, 0x301); (14, 105, 0x302); (15, 105, 0x308); (17, 110, 0x303);
    (18, 111, 0x300); (19, 111, 0x301); (20, 111, 0x302); (21, 111, 0x303);
    (22, 111, 0x308); (25, 117, 0x300); (26, 117, 0x301); (27, 117, 0x302);
    (28, 117, 0x308); (29, 121, 0x301) ].

Definition decompose (c : N) : list N :=
  if (0xC0 <=? c) && (c <=? 0xFF) then
    if c =? 0xFF then [121; 0x308]
    else
      match List.find (fun e => fst (fst e) =? (c - 0xC0) mod 32) latin1Marks with
      | Some (_, base, mark) =>
        [if c <? 0xE0 then base - 32 else base; mark]
      | None => [c]
      end
  else if c =? 0x340 then [0x300]
  else if c =? 0x341 then [0x301]
  else if c =? 0x343 then [0x313]
  else if c =? 0x344 then [0x308; 0x301]
  else [c].

(** Canonical combining classes, by range. *)
Definition combiningClasses : list (N * N * N) :=
  [ (0x300, 0x314, 230); (0x315, 0x315, 232); (0x316, 0x319, 220);
    (0x31A, 0x31A, 232); (0x31B, 0x31B, 216); (0x31C, 0x320, 220);
    (0x321, 0x322, 202); (0x323, 0x326, 220); (0x327, 0x328, 202);
    (0x329, 0x333, 220); (0x334, 0x338, 1); (0x339, 0x33C, 220);
    (0x33D, 0x344, 230); (0x345, 0x345, 240); (0x346, 0x346, 230);
    (0x347, 0x349, 220); (0x34A, 0x34C, 230); (0x34D, 0x34E, 220);
    (0x34F, 0x34F, 0); (0x350, 0x352, 230); (0x353, 0x356, 220);
    (0x357, 0x357, 230); (0x358, 0x358, 232); (0x359, 0x35A, 220);
    (0x35B, 0x35B, 230); (0x35C, 0x35C, 233); (0x35D, 0x35E, 234);
    (0x35F, 0x35F, 233); (0x360, 0x361, 234); (0x362, 0x362, 233);
    (0x363, 0x36F, 230); (0x5B0, 0x5B0, 10); (0x20D7, 0x20D7, 230) ].

Definition combiningClass (c : N) : N :=
  match List.find (fun e => (fst (fst e) <=? c) && (c <=? snd (fst e)))
          combiningClasses with
  | Some (_, _, k) => k
  | None => 0
  end.

(** Canonical ordering: a mark moves to the right past the marks of a smaller
    non-zero class; a starter stops it. *)
Fixpoint insertMark (c : N) (l : list N) : list N :=
  match l with
  | d :: l' =>
    if (0 <? combiningClass d) && (combiningClass d <? combiningClass c)
    then d :: insertMark c l' else c :: l
  | [] => [c]
  end.

Definition reorder (s : list N) : list N :=
  foldr (fun c acc =>
    if combiningClass c =? 0 then c :: acc else insertMark c acc) [] s.

Definition letterOrNumber (c : N) : bool :=
  ((0x30 <=? c) && (c <=? 0x39)) || ((0x41 <=? c) && (c <=? 0x5A))
  || ((0x61 <=? c) && (c <=? 0x7A)) || (c =? 0xAA)
  || ((0xB2 <=? c) && (c <=? 0xB3)) || (c =? 0xB5)
  || ((0xB9 <=? c) && (c <=? 0xBA)) || ((0xBC <=? c) && (c <=? 0xBE))
  || ((0xC0 <=? c) && (c <=? 0xD6)) || ((0xD8 <=? c) && (c <=? 0xF6))
  || ((0xF8 <=? c) && (c <=? 0xFF)).

(** Simple upper-case mapping, kept when it is one unit and does not send a
    unit above U+007F into Basic Latin. *)
Definition upperUnit (c : N) : N :=
  if ((97 <=? c) && (c <=? 122))
     || ((0xE0 <=? c) && (c <=? 0xFE) && negb (c =? 0xF7))
  then c - 32
  else if c =? 0xFF then 0x178
  else if c =? 0xB5 then 0x39C
  else c.

Definition runtime : Runtime := {|
  toLowerCase := map lowerUnit;
  normalizeNFD := fun s => reorder (flat_map decompose s);
  isLetterOrNumber := letterOrNumber;
  canonicalize := upperUnit
|}.

End Reference.

(** ** Highlighting in [src/unnamed/part_002], lines 1063-1151 *)

Module Highlight2.
Import JS.

(** A node of the markup of a text element: character data or an element
    with its children. *)
#[warnings="-register-all"] Inductive node :=
| Text (data : list N)
| Element (tag : list N) (children : list node).

(** [text.indexOf(needle, from)], [-1] when there is no occurrence. *)
Fixpoint indexOfAt (needle s : list N) (from pos : nat) : Z :=
  if (from <=? pos)%nat && startsWith needle s then Z.of_nat pos
  else
    match s with
    | [] => (-1)%Z
    | _ :: r => indexOfAt needle r from (S pos)
    end.

Definition indexOf (needle s : list N) (from : Z) : Z :=
  indexOfAt needle s (Z.to_nat from) O.

(** [text.substring(from, to)] *)
Definition substring (s : list N) (from to : Z) : list N :=
  let clamp i := Z.to_nat (Z.min (Z.max i 0) (Z.of_nat (length s))) in
  let a := clamp from in
  let b := clamp to in
  take (Nat.max a b - Nat.min a b) (drop (Nat.min a b) s).

Section WithRuntime.
Context (rt : Runtime).

(** [text.match(regex)] for [new RegExp(`\\b${escaped}\\b`, 'gi')]: the
    matched substrings from left to right. *)
Fixpoint matchAll (pattern : list N) (prev : option N) (skip : nat)
  (s : list N) : list (list N) :=
  match s with
  | [] => []
  | c :: r =>
    match skip with
    | S k => matchAll pattern (Some c) k r
    | O =>
      if WordRegex.boundedAt rt pattern prev s then
        let n := length (WordRegex.patternUnits pattern) in
        take n s :: matchAll pattern (Some c) (n - 1) r
      else matchAll pattern (Some c) 0 r
    end
  end.

Definition strong (text : list N) : node := Element (js "strong") [Text text].

(** The fragment built for one keyword: each match is looked up again with
    [indexOf] from the end of the previous one. *)
Definition fragmentFor (text : list N) (matches : list (list N))
  : list node :=
  let '(lastIndex, fragment) :=
    fold_left (fun state m =>
      let '(lastIndex, fragment) := state in
      let matchIndex := indexOf m text lastIndex in
      let before :=
        if (lastIndex <? matchIndex)%Z
        then [Text (substring text lastIndex matchIndex)] else [] in
      ((matchIndex + Z.of_nat (length m))%Z, fragment ++ before ++ [strong m]))
    matches (0%Z, []) in
  if (lastIndex <? Z.of_nat (length text))%Z
  then fragment ++ [Text (substring text lastIndex (Z.of_nat (length text)))]
  else fragment.

(** [processTextNode(node)] on a text node: the keywords are tried in the
    order of the set, each on the text the node had at the start.  The first
    keyword with a match replaces the node by its fragment; the node then has
    no parent, and [node.parentNode.replaceChild] throws a [TypeError]
    ([None]) for the next keyword with a match. *)
Definition processText (wordSet : list (list N)) (text : list N)
  : option (option (list node)) :=
  fold_left (fun state keyword =>
    match state with
    | None => None
    | Some replaced =>
      match keyword with
      | [] => state
      | _ =>
        match matchAll (WordRegex.escapeRegExp keyword) None 0 text with
        | [] => state
        | matches =>
          match replaced with
          | None => Some (Some (fragmentFor text matches))
          | Some _ => None
          end
        end
      end
    end) wordSet (Some None).

(** [processTextNode(node)]: the nodes that stand in its place afterwards and
    whether anything changed; the children of an element are those it had
    when it was reached. *)
Fixpoint processTextNode (wordSet : list (list N)) (n : node)
  : option (list node * bool) :=
  match n with
  | Text text =>
    match processText wordSet text with
    | None => None
    | Some None => Some ([n], false)
    | Some (Some fragment) => Some (fragment, true)
    end
  | Element tag children =>
    match
      fold_left (fun state child =>
        match state with
        | None => None
        | Some (done, changed) =>
          match processTextNode wordSet child with
          | None => None
          | Some (nodes, c) => Some (done ++ nodes, changed || c)
          end
        end) children (Some ([], false))
    with
    | None => None
    | Some (children', changed) => Some ([Element tag children'], changed)
    end
  end.

(** The body of [highlightFoundKeywords] for one text element that is not
    marked as highlighted: [None] when an exception ends the function,
    otherwise the new markup when there are changes. *)
Definition highlightElement (wordSet : list (list N)) (html : list node)
  : option (option (list node)) :=
  match
    fold_left (fun state child =>
      match state with
      | None => None
      | Some (done, changed) =>
        match processTextNode wordSet child with
        | None => None
        | Some (nodes, c) => Some (done ++ nodes, changed || c)
        end
      end) html (Some ([], false))
  with
  | None => None
  | Some (html', changed) => Some (if changed then Some html' else None)
  end.

End WithRuntime.
End Highlight2.

(** ** The content script

    [src/unnamed/part_003] and [src/content/dom-utils.js] (lines 424-1300).
    Values read from [chrome.storage] are JSON-like values; the document is a
    finite map from post elements to their state. *)

Module Content.
Import JS.

#[warnings="-register-all"] Inductive jsval :=
| JUndefined
| JNull
| JBool (b : bool)
| JNumber (z : Z)
| JString (s : list N)
| JArray (items : list jsval)
| JObject (fields : list (list N * jsval)).

(** ToBoolean *)
Definition truthy (v : jsval) : bool :=
  match v with
  | JUndefined | JNull => false
  | JBool b => b
  | JNumber z => negb (z =? 0)%Z
  | JString s => match s with [] => false | _ => true end
  | JArray _ | JObject _ => true
  end.

(** The three properties the engine reads from [currentConfig]. *)
Record Config := {
  mode : jsval;
  paused : jsval;
  words : jsval
}.

(** The initial value of [currentConfig], which is also the fallback of
    [loadConfig]. *)
Definition defaultConfig : Config := {|
  mode := JString (js "blacklist");
  paused := JBool false;
  words := JArray []
|}.

Definition property (name : list N) (fields : list (list N * jsval))
  : jsval :=
  match List.find (fun f => strEq (fst f) name) fields with
  | Some f => snd f
  | None => JUndefined
  end.

(** Reading [mode], [paused] and [words] from a value: a [TypeError] ([None])
    on [undefined] and [null], [undefined] properties on the other values
    that are not objects. *)
Definition configOf (v : jsval) : option Config :=
  match v with
  | JUndefined | JNull => None
  | JObject fields =>
    Some {| mode := property (js "mode") fields;
            paused := property (js "paused") fields;
            words := property (js "words") fields |}
  | _ => Some {| mode := JUndefined; paused := JUndefined; words := JUndefined |}
  end.

(** The strings [generateNormalizedWordSet(words)] passes through
    [normalizeText] without an exception: [words.forEach] exists on arrays
    only; [normalizeText] returns [''] for a falsy element and calls
    [toLowerCase], which only strings have, on the others. *)
Definition wordStrings (v : jsval) : option (list (list N)) :=
  match v with
  | JArray items =>
    foldr (fun w acc =>
      match acc with
      | None => None
      | Some ws =>
        match w with
        | JString s => Some (s :: ws)
        | _ => if truthy w then None else Some ([] :: ws)
        end
      end) (Some []) items
  | _ => None
  end.

(** [shouldHidePost(hasMatch)], with the globals it reads. *)
Definition shouldHidePost (currentConfig : Config)
  (normalizedWordSet : list (list N)) (hasMatch : bool) : bool :=
  if truthy (paused currentConfig) || (length normalizedWordSet =? 0)%nat
  then false
  else
    match mode currentConfig with
    | JString m =>
      if strEq m (js "blacklist") then eqb hasMatch true
      else if strEq m (js "whitelist") then eqb hasMatch false
      else false
    | _ => false
    end.

(** The state of a post element: whether it is in the document, where
    [getAllFeedPosts] finds it; the text of the candidate text blocks found
    by the selectors of [getTextContentElements] outside the comment and
    reaction regions; whether the search of [expandSeeMoreContent] ends with
    a button; and the attributes the engine writes on the post. *)
Record Post := {
  attached : bool;
  blocks : list (list N);
  seeMore : bool;
  processed : bool;
  expanded : bool;
  hidden : bool
}.

Definition setProcessed (b : bool) (p : Post) : Post :=
  {| attached := attached p; blocks := blocks p; seeMore := seeMore p;
     processed := b; expanded := expanded p; hidden := hidden p |}.

Definition setExpanded (b : bool) (p : Post) : Post :=
  {| attached := attached p; blocks := blocks p; seeMore := seeMore p;
     processed := processed p; expanded := b; hidden := hidden p |}.

Definition setHidden (b : bool) (p : Post) : Post :=
  {| attached := attached p; blocks := blocks p; seeMore := seeMore p;
     processed := processed p; expanded := expanded p; hidden := b |}.

(** Changes of the page itself: the text of a post, its button, and its
    removal from the document. *)
Definition setContent (newBlocks : list (list N)) (button : bool) (p : Post)
  : Post :=
  {| attached := attached p; blocks := newBlocks; seeMore := button;
     processed := processed p; expanded := expanded p; hidden := hidden p |}.

Definition setAttached (b : bool) (p : Post) : Post :=
  {| attached := b; blocks := blocks p; seeMore := seeMore p;
     processed := processed p; expanded := expanded p; hidden := hidden p |}.

(** [getTextContentElements(postElement)]: the blocks with more than ten
    units once trimmed. *)
Definition getTextContentElements (p : Post) : list (list N) :=
  List.filter (fun b => (10 <? length (trim b))%nat) (blocks p).

(** [extractPostText(postElement)]: the first of the longest blocks. *)
Definition extractPostText (p : Post) : list N :=
  match getTextContentElements p with
  | [] => []
  | (first :: _) as textElements =>
    fst (fold_left (fun sel text =>
           if (snd sel <? length text)%nat then (text, length text) else sel)
         textElements (first, O))
  end.

(** What [processPost] does to a post and tells the popup. *)
Inductive effect :=
| HidePost (post : nat)
| ShowPost (post : nat)
| NotifyCount (count : Z)
| HighlightPost (post : nat).

(** The two content scripts differ in the utilities they are loaded with, in
    highlighting the posts they show, in sweeping the feed in batches and in
    monitoring the health of the observer. *)
Record Variant := {
  normalizeText : list N -> list N;
  generateNormalizedWordSet : list (list N) -> list (list N);
  matchesAny : list N -> list (list N) -> bool;
  highlights : bool;
  batchSize : option nat;
  selfHealing : bool
}.

(** [src/unnamed/part_003] with [src/content/dom-utils.js], lines 1-423 *)
Definition script1 (rt : Runtime) : Variant := {|
  normalizeText := DomUtils.normalizeText rt;
  generateNormalizedWordSet := DomUtils.generateNormalizedWordSet rt;
  matchesAny := DomUtils.matchesAny rt;
  highlights := false;
  batchSize := None;
  selfHealing := false
|}.

(** [src/content/dom-utils.js], lines 424-1300, with [src/unnamed/part_002],
    lines 757-1222 *)
Definition script2 (rt : Runtime) : Variant := {|
  normalizeText := DomUtils2.normalizeText rt;
  generateNormalizedWordSet := DomUtils2.generateNormalizedWordSet rt;
  matchesAny := DomUtils2.matchesAny rt;
  highlights := true;
  batchSize := Some 5%nat;
  selfHealing := true
|}.

(** The globals of the content script, the document, the calls of
    [processPost] suspended at [await expandSeeMoreContent(postElement)], the
    sweeps of [processAllExistingPosts] suspended between two batches, the
    pending timers of the URL observer, the effects of [processPost] so far,
    and the number of calls of [removeAllHighlights] so far. *)
Record Engine := {
  sessionHiddenCount : Z;
  currentConfig : Config;
  normalizedWordSet : list (list N);
  document : gmap nat Post;
  suspended : list nat;
  sweeps : list (list nat);
  timers : nat;
  effects : list effect;
  highlightRemovals : nat
}.

Definition withDocument (d : gmap nat Post) (e : Engine) : Engine :=
  {| sessionHiddenCount := sessionHiddenCount e;
     currentConfig := currentConfig e;
     normalizedWordSet := normalizedWordSet e;
     document := d; suspended := suspended e; sweeps := sweeps e;
     timers := timers e; effects := effects e;
     highlightRemovals := highlightRemovals e |}.

Definition withCount (n : Z) (e : Engine) : Engine :=
  {| sessionHiddenCount := n;
     currentConfig := currentConfig e;
     normalizedWordSet := normalizedWordSet e;
     document := document e; suspended := suspended e; sweeps := sweeps e;
     timers := timers e; effects := effects e;
     highlightRemovals := highlightRemovals e |}.

Definition withConfig (c : Config) (ws : list (list N)) (e : Engine)
  : Engine :=
  {| sessionHiddenCount := sessionHiddenCount e;
     currentConfig := c; normalizedWordSet := ws;
     document := document e; suspended := suspended e; sweeps := sweeps e;
     timers := timers e; effects := effects e;
     highlightRemovals := highlightRemovals e |}.

Definition withSuspended (l : list nat) (e : Engine) : Engine :=
  {| sessionHiddenCount := sessionHiddenCount e;
     currentConfig := currentConfig e;
     normalizedWordSet := normalizedWordSet e;
     document := document e; suspended := l; sweeps := sweeps e;
     timers := timers e; effects := effects e;
     highlightRemovals := highlightRemovals e |}.

Definition withSweeps (l : list (list nat)) (e : Engine) : Engine :=
  {| sessionHiddenCount := sessionHiddenCount e;
     currentConfig := currentConfig e;
     normalizedWordSet := normalizedWordSet e;
     document := document e; suspended := suspended e; sweeps := l;
     timers := timers e; effects := effects e;
     highlightRemovals := highlightRemovals e |}.

Definition withTimers (n : nat) (e : Engine) : Engine :=
  {| sessionHiddenCount := sessionHiddenCount e;
     currentConfig := currentConfig e;
     normalizedWordSet := normalizedWordSet e;
     document := document e; suspended := suspended e; sweeps := sweeps e;
     timers := n; effects := effects e;
     highlightRemovals := highlightRemovals e |}.

Definition emit (x : effect) (e : Engine) : Engine :=
  {| sessionHiddenCount := sessionHiddenCount e;
     currentConfig := currentConfig e;
     normalizedWordSet := normalizedWordSet e;
     document := document e; suspended := suspended e; sweeps := sweeps e;
     timers := timers e; effects := effects e ++ [x];
     highlightRemovals := highlightRemovals e |}.

Definition initial : Engine := {|
  sessionHiddenCount := 0;
  currentConfig := defaultConfig;
  normalizedWordSet := [];
  document := ∅;
  suspended := [];
  sweeps := [];
  timers := O;
  effects := [];
  highlightRemovals := O
|}.

Definition isProcessed (e : Engine) (post : nat) : bool :=
  match document e !! post with
  | Some p => processed p
  | None => false
  end.

Section WithVariant.
Context (V : Variant).

(** [loadConfig()], from the outcome of the read: [None] when the promise of
    [chrome.storage.local.get] is rejected, otherwise the value assigned to
    [currentConfig] (the result itself in [part_003], the selected profile
    [profiles[currentProfileId] || profiles.default] in the other script).
    Any exception in the [try] block leads to the fallback. *)
Definition loadConfig (outcome : option jsval)
  : Config * list (list N) :=
  match outcome with
  | None => (defaultConfig, [])
  | Some result =>
    match configOf result with
    | None => (defaultConfig, [])
    | Some config =>
      match wordStrings (words config) with
      | None => (defaultConfig, [])
      | Some ws => (config, generateNormalizedWordSet V ws)
      end
    end
  end.

(** [processPost(postElement)] up to [await expandSeeMoreContent(...)]: the
    check of the marker, the marker, and the part of
    [expandSeeMoreContent] that runs before its first [await]. *)
Definition processPostEnter (post : nat) (e : Engine) : Engine :=
  match document e !! post with
  | None => e
  | Some p =>
    if processed p then e
    else
      let p1 := setProcessed true p in
      let p2 :=
        if expanded p1 then p1
        else if seeMore p1 then setExpanded true p1 else p1 in
      withSuspended (suspended e ++ [post])
        (withDocument (<[post := p2]> (document e)) e)
  end.

(** [processPost(postElement)] after the [await]. *)
Definition processPostResume (post : nat) (e : Engine) : Engine :=
  match document e !! post with
  | None => e
  | Some p =>
    let rawText := extractPostText p in
    let normalizedText := normalizeText V rawText in
    match normalizedText with
    | [] => e
    | _ =>
      let hasMatch := matchesAny V normalizedText (normalizedWordSet e) in
      let shouldHide :=
        shouldHidePost (currentConfig e) (normalizedWordSet e) hasMatch in
      if shouldHide then
        let e1 := emit (HidePost post)
          (withDocument (<[post := setHidden true p]> (document e)) e) in
        let e2 := withCount (sessionHiddenCount e1 + 1) e1 in
        emit (NotifyCount (sessionHiddenCount e2)) e2
      else
        let e1 := emit (ShowPost post)
          (withDocument (<[post := setHidden false p]> (document e)) e) in
        match mode (currentConfig e1) with
        | JString m =>
          if highlights V && strEq m (js "whitelist") && hasMatch
          then emit (HighlightPost post) e1 else e1
        | _ => e1
        end
    end
  end.

(** [getAllFeedPosts()]: the posts in the document. *)
Definition getAllFeedPosts (e : Engine) : list nat :=
  map fst (List.filter (fun entry => attached (snd entry))
             (map_to_list (document e))).

(** [resetProcessingMarkers()] *)
Definition resetProcessingMarkers (e : Engine) : Engine :=
  withDocument
    ((fun p => if attached p then setExpanded false (setProcessed false p)
               else p) <$> document e) e.

(** One batch of [processAllExistingPosts()]: [processPost] is entered for
    each post of the batch; the rest of the sweep waits. *)
Definition enterBatch (posts : list nat) (e : Engine) : Engine :=
  match batchSize V with
  | None => foldl (fun e post => processPostEnter post e) e posts
  | Some n =>
    let e1 := foldl (fun e post => processPostEnter post e) e (take n posts) in
    match drop n posts with
    | [] => e1
    | later => withSweeps (sweeps e1 ++ [later]) e1
    end
  end.

(** [processAllExistingPosts()] up to its first [await]. *)
Definition processAllExistingPosts (e : Engine) : Engine :=
  enterBatch (getAllFeedPosts e) e.

(** [reprocessAllPosts()] *)
Definition reprocessAllPosts (e : Engine) : Engine :=
  processAllExistingPosts (withCount 0 (resetProcessingMarkers e)).

(** The callback of [urlObserver] when [location.href] has changed. *)
Definition urlChanged (onFeed : bool) (e : Engine) : Engine :=
  if onFeed then withTimers (S (timers e)) (withCount 0 e) else e.

(** [restartObserver()]: the markers are cleared at once, the reprocess
    follows from a timer. *)
Definition restartObserver (e : Engine) : Engine :=
  withTimers (S (timers e)) (resetProcessingMarkers e).

(** [v === s] for a string [s] *)
Definition isString (s : list N) (v : jsval) : bool :=
  match v with
  | JString m => strEq m s
  | _ => false
  end.

(** [removeAllHighlights()]: in the first script the [lkw-highlight] marks
    of the document are replaced by their text and the class
    [lkw-highlighted] is removed; in the second the attribute
    [data-lkw-highlighted] is removed from the text elements of every post
    of the feed.  Neither touches the text, the markers or the visibility
    of a post; the calls are counted. *)
Definition removeAllHighlights (e : Engine) : Engine :=
  {| sessionHiddenCount := sessionHiddenCount e;
     currentConfig := currentConfig e;
     normalizedWordSet := normalizedWordSet e;
     document := document e; suspended := suspended e; sweeps := sweeps e;
     timers := timers e; effects := effects e;
     highlightRemovals := S (highlightRemovals e) |}.

(** The first block of the listener of [chrome.storage.onChanged]: the
    highlights are removed when [mode] goes from [whitelist] to
    [blacklist]. *)
Definition modeChanged (newMode : option jsval) (e : Engine) : Engine :=
  match newMode with
  | Some v =>
    let oldMode := mode (currentConfig e) in
    if isString (js "whitelist") oldMode && isString (js "blacklist") v
    then removeAllHighlights e else e
  | None => e
  end.

(** The listener of [chrome.storage.onChanged] for a change of [mode],
    [paused] or [words] (each [None] when the key has not changed).  An
    exception of [generateNormalizedWordSet] ends the listener after the
    assignments to [currentConfig]. *)
Definition storageChanged (newMode newPaused newWords : option jsval)
  (e0 : Engine) : Engine :=
  let e := modeChanged newMode e0 in
  let c := currentConfig e in
  let c1 := match newMode with
            | Some v => {| mode := v; paused := paused c; words := words c |}
            | None => c end in
  let c2 := match newPaused with
            | Some v => {| mode := mode c1; paused := v; words := words c1 |}
            | None => c1 end in
  match newWords with
  | Some v =>
    let stored := if truthy v then v else JArray [] in
    let c3 := {| mode := mode c2; paused := paused c2; words := stored |} in
    match wordStrings stored with
    | Some ws =>
      reprocessAllPosts (withConfig c3 (generateNormalizedWordSet V ws) e)
    | None => withConfig c3 (normalizedWordSet e) e
    end
  | None =>
    match newMode, newPaused with
    | None, None => e
    | _, _ => reprocessAllPosts (withConfig c2 (normalizedWordSet e) e)
    end
  end.

Inductive event :=
| Discover (post : nat)
| Resume (post : nat)
| Sweep
| NextBatch
| Appear (post : nat) (p : Post)
| ContentChanged (post : nat) (newBlocks : list (list N)) (button : bool)
| Detach (post : nat)
| RestartObserver
| Reprocess
| UrlChanged (onFeed : bool)
| TimerFired
| StorageChanged (newMode newPaused newWords : option jsval)
| ConfigLoaded (outcome : option jsval).

(** One turn of the event loop: a call of [processPost] by the observer or
    by a sweep, the completion of a suspended call, a sweep started by
    [init], the next batch of a sweep, a change of the page, and the
    listeners and timers of the script.  The turns may come in any order:
    every schedule of the page is a run, and the properties below hold of
    all runs. *)
Inductive step : Engine -> event -> Engine -> Prop :=
| step_discover e post :
    step e (Discover post) (processPostEnter post e)
| step_resume e post before after :
    suspended e = before ++ post :: after ->
    step e (Resume post)
      (processPostResume post (withSuspended (before ++ after) e))
| step_sweep e :
    step e Sweep (processAllExistingPosts e)
| step_batch e posts later :
    sweeps e = posts :: later ->
    step e NextBatch (enterBatch posts (withSweeps later e))
| step_appear e post p :
    document e !! post = None ->
    attached p = true -> processed p = false -> expanded p = false ->
    hidden p = false ->
    step e (Appear post p) (withDocument (<[post := p]> (document e)) e)
| step_content e post p newBlocks button :
    document e !! post = Some p ->
    step e (ContentChanged post newBlocks button)
      (withDocument (<[post := setContent newBlocks button p]> (document e)) e)
| step_detach e post p :
    document e !! post = Some p ->
    step e (Detach post)
      (withDocument (<[post := setAttached false p]> (document e)) e)
| step_restart e :
    selfHealing V = true ->
    step e RestartObserver (restartObserver e)
| step_reprocess e :
    step e Reprocess (reprocessAllPosts e)
| step_url e onFeed :
    step e (UrlChanged onFeed) (urlChanged onFeed e)
| step_timer e n :
    timers e = S n ->
    step e TimerFired (reprocessAllPosts (withTimers n e))
| step_storage e newMode newPaused newWords :
    step e (StorageChanged newMode newPaused newWords)
      (storageChanged newMode newPaused newWords e)
| step_config e outcome :
    step e (ConfigLoaded outcome)
      (withConfig (fst (loadConfig outcome)) (snd (loadConfig outcome)) e).

Inductive run : Engine -> list event -> Engine -> Prop :=
| run_nil e : run e [] e
| run_cons e ev e1 evs e2 :
    step e ev e1 -> run e1 evs e2 -> run e (ev :: evs) e2.

End WithVariant.

(** The events that run [reprocessAllPosts]: they clear the markers, which
    starts a new epoch, and reset the counter. *)
Definition reprocesses (ev : event) : bool :=
  match ev with
  | Reprocess | TimerFired => true
  | StorageChanged newMode newPaused newWords =>
    match newWords with
    | Some v =>
      match wordStrings (if truthy v then v else JArray []) with
      | Some _ => true
      | None => false
      end
    | None =>
      match newMode, newPaused with
      | None, None => false
      | _, _ => true
      end
    end
  | _ => false
  end.

(** The events that clear the markers. *)
Definition clearsMarkers (ev : event) : bool :=
  match ev with
  | RestartObserver => true
  | _ => reprocesses ev
  end.

(** The events that reset the counter: a full reprocess and the navigation
    to another view of the feed. *)
Definition resetsCounter (ev : event) : bool :=
  match ev with
  | UrlChanged onFeed => onFeed
  | _ => reprocesses ev
  end.

Definition isResume (ev : event) : bool :=
  match ev with
  | Resume _ => true
  | _ => false
  end.

(** The number of times a post was hidden or shown. *)
Definition visibilityEffects (post : nat) (l : list effect) : nat :=
  length (List.filter (fun x =>
    match x with
    | HidePost q | ShowPost q => (q =? post)%nat
    | _ => false
    end) l).

Definition hideEffects (post : nat) (l : list effect) : nat :=
  length (List.filter (fun x =>
    match x with
    | HidePost q => (q =? post)%nat
    | _ => false
    end) l).

End Content.

(** ** Predicates used by the proofs *)

Module Facts.
Import JS.

(** No match of [m] starts anywhere in [s]. *)
Definition quiet (m : matcher) (s : list N) : Prop :=
  forall z, z `suffix_of` s -> fires m z = false.

(** Matchers whose matches start at a unit that is not white space and are
    decided by the run of such units they start in. *)
Record spaceBounded (m : matcher) : Prop := {
  sb_nil : fires m [] = false;
  sb_space : forall c z, isSpace c = true -> fires m (c :: z) = false;
  sb_ext : forall z w,
    fires m z = true -> fires m (takeWhile notSpace z ++ w) = true
}.

(** Every white-space unit is a single space that does not follow one. *)
Fixpoint singleSpaced (afterSpace : bool) (s : list N) : bool :=
  match s with
  | [] => true
  | c :: r =>
    if isSpace c then (c =? SP) && negb afterSpace && singleSpaced true r
    else singleSpaced false r
  end.

(** The steps after decomposition that both normalizers share, and the rest
    of each. *)
Definition cleaned (rt : Runtime) (y : list N) : list N :=
  replaceAll emojiMatch [SP] 0
    (replaceAll (mentionMatch rt) [SP] 0
       (replaceAll urlMatch [SP] 0 (replaceAll markMatch [] 0 y))).

Definition tail1 (rt : Runtime) (y : list N) : list N :=
  trim (replaceAll spaceMatch [SP] 0 (cleaned rt y)).

Definition tail2 (rt : Runtime) (y : list N) : list N :=
  trim (replaceAll spaceMatch [SP] 0
          (replaceAll punctMatch [SP] 0 (cleaned rt y))).

(** Checking a property of the code units below a bound by evaluation. *)
Definition below (n : nat) (p : N -> bool) : bool :=
  forallb p (map N.of_nat (seq 0 n)).

Definition settledb (c : N) : bool :=
  (Reference.lowerUnit c =? c)
  && strEq (Reference.reorder (Reference.decompose c ++ [])) [c].

(** Whether some piece of the text, cleaned, equals the keyword. *)
Definition tokenMatch (rt : Runtime) (text word : list N) : bool :=
  existsb (fun textWord =>
    strEq (toLowerCase rt (DomUtils2.cleanWord textWord))
          (toLowerCase rt word))
    (DomUtils2.splitSpaces [] false (toLowerCase rt text)).

(** The unit before a position: the last unit of what precedes it, or the
    unit before that when nothing does. *)
Definition edge (prev : option N) (l : list N) : option N :=
  match last l with
  | Some x => Some x
  | None => prev
  end.

(** Equality under the case folding of the [i] flag. *)
Definition caseEq (rt : Runtime) (a b : N) : Prop :=
  canonicalize rt a = canonicalize rt b.

(** A match of the bounded pattern at some position. *)
Definition occurs (rt : Runtime) (units : list N) (prev : option N)
  (s : list N) : Prop :=
  exists l m r, s = l ++ m ++ r /\ Forall2 (caseEq rt) units m /\
    WordRegex.wordBoundary (edge prev l) (head (m ++ r)) = true /\
    WordRegex.wordBoundary (edge (edge prev l) m) (head r) = true.

(** An edge of the text or a white-space unit. *)
Definition blankAt (c : option N) : bool :=
  match c with
  | Some x => isSpace x
  | None => true
  end.

(** Occurrences of a post among the suspended calls. *)
Definition occurrences (post : nat) (l : list nat) : nat :=
  length (List.filter (fun q => (q =? post)%nat) l).

(** The bound that makes processing at most once: a post has at most one
    suspended call or visibility effect beyond [k], and none before it is
    marked. *)
Definition atMostOnce (k : nat) (post : nat) (e : Content.Engine) : Prop :=
  (occurrences post (Content.suspended e)
   + Content.visibilityEffects post (Content.effects e)
   <= k + (if Content.isProcessed e post then 1 else 0))%nat.

(** What a sweep leaves alone: the counter, the effects, the configuration
    and the timers. *)
Definition sameOutput (e e' : Content.Engine) : Prop :=
  Content.effects e' = Content.effects e /\
  Content.sessionHiddenCount e' = Content.sessionHiddenCount e /\
  Content.currentConfig e' = Content.currentConfig e /\
  Content.normalizedWordSet e' = Content.normalizedWordSet e /\
  Content.timers e' = Content.timers e.

(** A fault of the read of the configuration: the promise is rejected, or
    the value read makes the [try] block of [loadConfig] throw. *)
Definition readFault (outcome : option Content.jsval) : Prop :=
  match outcome with
  | None => True
  | Some v =>
    match Content.configOf v with
    | None => True
    | Some config => Content.wordStrings (Content.words config) = None
    end
  end.

Ltac bools :=
  repeat match goal with
  | H : _ && _ = true |- _ => apply andb_true_iff in H as [? ?]
  | H : _ || _ = true |- _ => apply orb_true_iff in H as [?|?]
  | H : negb _ = true |- _ => apply negb_true_iff in H
  | H : (_ <=? _) = true |- _ => apply N.leb_le in H
  | H : (_ =? _) = true |- _ => apply N.eqb_eq in H
  | H : (_ <=? _) = false |- _ => apply N.leb_gt in H
  | H : (_ =? _) = false |- _ => apply N.eqb_neq in H
  end.

End Facts.

(** ** The popup: keywords typed, saved and imported

    [src/unnamed/part_002], lines 1-756. *)

Module Popup.
Import JS.

(** [[,\n\r]] *)
Definition isSeparator (c : N) : bool := (c =? 44) || (c =? 10) || (c =? 13).

(** [input.split(/[,\n\r]+/)]: the pieces between the runs of separators; a
    run at an edge of the input leaves an empty piece there. *)
Fixpoint splitSeparators (piece : list N) (inRun : bool) (s : list N)
  : list (list N) :=
  match s with
  | [] => [piece]
  | c :: r =>
    if isSeparator c then
      if inRun then splitSeparators [] true r
      else piece :: splitSeparators [] true r
    else splitSeparators (piece ++ [c]) false r
  end.

(** [parseKeywords(input)] *)
Definition parseKeywords (input : list N) : list (list N) :=
  match input with
  | [] => []
  | _ =>
    List.filter (fun word => (0 <? length word)%nat)
      (map (fun word => trim word) (splitSeparators [] false input))
  end.

(** The words of a [.csv] file in [handleFileImport]:
    [text.split(/[,\n\r]+/).map(w => w.trim()).filter(w => w)]. *)
Definition csvWords (text : list N) : list (list N) :=
  List.filter (fun w => match w with [] => false | _ => true end)
    (map (fun w => trim w) (splitSeparators [] false text)).

(** [words.join('\n')], and any other separator. *)
Fixpoint join (separator : list N) (words : list (list N)) : list N :=
  match words with
  | [] => []
  | [word] => word
  | word :: rest => word ++ separator ++ join separator rest
  end.

(** [a.every((val, i) => val === b[i])] from index [i] on; an index past the
    end of [b] reads [undefined], which no string equals. *)
Fixpoint everyFrom (i : nat) (a b : list (list N)) : bool :=
  match a with
  | [] => true
  | val :: rest =>
    match b !! i with
    | Some other => strEq val other && everyFrom (S i) rest b
    | None => false
    end
  end.

(** [arraysEqual(a, b)] *)
Definition arraysEqual (a b : list (list N)) : bool :=
  if negb (length a =? length b)%nat then false else everyFrom O a b.

(** [handleAutoSave()]: whether [handleSave] is called when the text area
    holding [value] loses the focus. *)
Definition handleAutoSave (value : list N) (words : list (list N)) : bool :=
  let currentWords := parseKeywords value in
  negb (arraysEqual currentWords words).

Section WithRuntime.
Context (rt : Runtime).

(** The form [normalizeKeywords] gives to one keyword. *)
Definition normalizeKeyword (word : list N) : list N :=
  trim (replaceAll markMatch [] 0 (normalizeNFD rt (toLowerCase rt word))).

(** [normalizeKeywords(keywords)] *)
Definition normalizeKeywords (keywords : list (list N)) : list (list N) :=
  let normalized :=
    List.filter (fun word => (0 <? length word)%nat)
      (map normalizeKeyword keywords) in
  fold_left WordSet.add normalized [].

(** The merge of [handleFileImport]:
    [[...new Set([...currentConfig.words, ...normalizedWords])]]. *)
Definition mergeWords (currentWords importWords : list (list N))
  : list (list N) :=
  let normalizedWords := normalizeKeywords importWords in
  fold_left WordSet.add (currentWords ++ normalizedWords) [].

End WithRuntime.

End Popup.

(** ** The service worker: badges

    [src/unnamed/part_004]. *)

Module Background.
Import JS.

(** [Number.prototype.toString] on a positive integer, with [fuel] digits at
    most. *)
Fixpoint decimal (fuel : nat) (n : Z) : list N :=
  match fuel with
  | O => []
  | S fuel' =>
    if (n <? 10)%Z then [Z.to_N (48 + n)]
    else decimal fuel' (n / 10) ++ [Z.to_N (48 + n mod 10)]
  end.

Definition toString (n : Z) : list N := decimal (S (Z.to_nat n)) n.

(** A decimal digit other than 0. *)
Inductive digit := D1 | D2 | D3 | D4 | D5 | D6 | D7 | D8 | D9.

Definition digitValue (d : digit) : Z :=
  match d with
  | D1 => 1 | D2 => 2 | D3 => 3 | D4 => 4 | D5 => 5
  | D6 => 6 | D7 => 7 | D8 => 8 | D9 => 9
  end.

(** [tabHiddenCounts] and the badge text of each tab. *)
Record Worker := {
  tabHiddenCounts : gmap nat Z;
  badges : gmap nat (list N)
}.

(** [tabHiddenCounts.get(tabId) || 0] *)
Definition cachedCount (w : Worker) (tabId : nat) : Z :=
  match tabHiddenCounts w !! tabId with
  | Some count => count
  | None => 0%Z
  end.

Section WithRuntime.

(** The first digit [Number.prototype.toString] writes for a number that is
    an integer of absolute value [10^21] or more, which it writes in
    exponent notation ([1e+21], [-2.5e+30]). *)
Context (exponentDigit : Z -> digit).

(** [parseInt(count) || 0] for a count that is an integer: [parseInt] reads
    the digits [toString] writes, which spell the count below [10^21] and
    stop at the first digit, before [.] or [e], from [10^21] on. *)
Definition parseCount (count : Z) : Z :=
  if (Z.abs count <? 10 ^ 21)%Z then count
  else (Z.sgn count * digitValue (exponentDigit count))%Z.

(** The text [updateBadge(tabId, count)] sets. *)
Definition badgeText (count : Z) : list N :=
  let numericCount := parseCount count in
  if (0 <? numericCount)%Z then
    if (99 <? numericCount)%Z then js "99+" else toString numericCount
  else [].

Definition updateBadge (tabId : nat) (count : Z) (w : Worker) : Worker :=
  {| tabHiddenCounts := tabHiddenCounts w;
     badges := <[tabId := badgeText count]> (badges w) |}.

(** [handleCountUpdate(tabId, count)] *)
Definition handleCountUpdate (tabId : nat) (count : Z) (w : Worker)
  : Worker :=
  let numericCount := parseCount count in
  updateBadge tabId numericCount
    {| tabHiddenCounts := <[tabId := numericCount]> (tabHiddenCounts w);
       badges := badges w |}.

(** The listener of [chrome.runtime.onMessage] for a message of type
    [count]; [sender.tab && sender.tab.id] is falsy without a tab and for
    the identifier 0. *)
Definition onCountMessage (senderTab : option nat) (value : Z) (w : Worker)
  : Worker :=
  match senderTab with
  | Some tabId => if (tabId =? 0)%nat then w else handleCountUpdate tabId value w
  | None => w
  end.

(** The listener of [chrome.tabs.onRemoved]; the browser drops the badge
    with the tab. *)
Definition onRemoved (tabId : nat) (w : Worker) : Worker :=
  {| tabHiddenCounts := delete tabId (tabHiddenCounts w);
     badges := delete tabId (badges w) |}.

(** The listener of [chrome.tabs.onUpdated] once the status is [complete]
    and the tab has a URL, which contains [linkedin.com] or not. *)
Definition onUpdated (tabId : nat) (onLinkedIn : bool) (w : Worker)
  : Worker :=
  if onLinkedIn then updateBadge tabId (cachedCount w tabId) w
  else
    updateBadge tabId 0
      {| tabHiddenCounts := delete tabId (tabHiddenCounts w);
         badges := badges w |}.

(** [initializeBadges()] over the tabs the query returns. *)
Definition initializeBadges (tabs : list nat) (w : Worker) : Worker :=
  foldl (fun w tabId => updateBadge tabId (cachedCount w tabId) w) w tabs.

(** What the service worker reacts to, and the reset of the badge of a tab
    by the browser when the tab navigates. *)
Inductive message :=
| CountMessage (senderTab : option nat) (value : Z)
| TabRemoved (tabId : nat)
| TabUpdated (tabId : nat) (onLinkedIn : bool)
| Initialize (tabs : list nat)
| BadgeReset (tabId : nat).

Definition handle (m : message) (w : Worker) : Worker :=
  match m with
  | CountMessage senderTab value => onCountMessage senderTab value w
  | TabRemoved tabId => onRemoved tabId w
  | TabUpdated tabId onLinkedIn => onUpdated tabId onLinkedIn w
  | Initialize tabs => initializeBadges tabs w
  | BadgeReset tabId =>
    {| tabHiddenCounts := tabHiddenCounts w;
       badges := delete tabId (badges w) |}
  end.

End WithRuntime.

(** The service worker as it starts. *)
Definition start : Worker := {| tabHiddenCounts := ∅; badges := ∅ |}.

End Background.

(** ** Predicates used by the further properties *)

Module Props.
Import JS.

(** The white space of a normalized text: single U+0020 characters between
    other characters. *)
Definition wellSpaced (t : list N) : Prop :=
  (forall u, u ∈ t -> isSpace u = true -> u = SP) /\
  (forall l c d r, t = l ++ c :: d :: r ->
     isSpace c = true -> isSpace d = false) /\
  (forall c, head t = Some c -> isSpace c = false) /\
  (forall c, last t = Some c -> isSpace c = false).

(** A unit the second normalizer lets through. *)
Definition keptUnit (u : N) : Prop :=
  isWordChar u = true \/ u = SP \/ (0xC0 <= u <= 0x17F).

(** An occurrence of [word] in [text] as a whole piece between white space
    or the edges of the text. *)
Definition wholeToken (word text : list N) : Prop :=
  exists l r, text = l ++ word ++ r /\
    Facts.blankAt (last l) = true /\ Facts.blankAt (head r) = true.

(** None of the patterns the normalizers remove occurs in [t]. *)
Definition scrubbed (rt : Runtime) (t : list N) : Prop :=
  Facts.quiet markMatch t /\ Facts.quiet urlMatch t /\
  Facts.quiet (mentionMatch rt) t /\ Facts.quiet emojiMatch t.

(** The forms the first expander derives from a normalized keyword [n]: the
    keyword, its plural, its singular. *)
Definition variation1 (n y : list N) : Prop :=
  y = n \/ (endsWith 115 n = false /\ y = n ++ [115]) \/
  (endsWith 115 n = true /\ (1 < length n)%nat /\ n = y ++ [115]).

(** The forms the second expander derives. *)
Definition variation2 (n y : list N) : Prop :=
  y = n \/
  (endsWith 115 n = false /\ (2 < length n)%nat /\ y = n ++ [115]) \/
  (endsWith 115 n = true /\ (3 < length n)%nat /\ n = y ++ [115]).

(** A keyword as the text area holds it: not empty, without white space at
    its ends, without a separator. *)
Definition cleanKeyword (w : list N) : Prop :=
  w <> [] /\ trim w = w /\ existsb Popup.isSeparator w = false.

(** The number a string of decimal digits stands for. *)
Definition decimalValue (digits : list N) : Z :=
  fold_left (fun acc d => (acc * 10 + (Z.of_N d - 48))%Z) digits 0%Z.

Definition isDigit (c : N) : bool := (48 <=? c) && (c <=? 57).

(** The badge a tab has shows the count cached for the tab, none when no
    count is cached. *)
Definition consistent (exponentDigit : Z -> Background.digit)
  (w : Background.Worker) : Prop :=
  forall tabId text, Background.badges w !! tabId = Some text ->
    text = Background.badgeText exponentDigit
             (Background.cachedCount w tabId).

End Props.

(** ** Predicates on the states of the content script *)

Module EngineProps.
Import JS Content.

(** The decision of the policy for a post, from the text it has. *)
Definition verdict (V : Variant) (e : Engine) (p : Post) : bool :=
  shouldHidePost (currentConfig e) (normalizedWordSet e)
    (matchesAny V (normalizeText V (extractPostText p))
       (normalizedWordSet e)).

(** A pass of the post is under way or still to come: a call of
    [processPost] is suspended, or the post waits unmarked in a batch of a
    sweep. *)
Definition pending (e : Engine) (post : nat) (p : Post) : Prop :=
  post ∈ suspended e \/
  (processed p = false /\ exists batch, batch ∈ sweeps e /\ post ∈ batch).

(** Every post of the feed that has text is as the policy wants it, has a
    pass pending, or waits unmarked in the batch [batch] that is about to be
    entered. *)
Definition awaiting (V : Variant) (batch : list nat) (e : Engine) : Prop :=
  forall post p, document e !! post = Some p -> attached p = true ->
    normalizeText V (extractPostText p) <> [] ->
    hidden p = verdict V e p \/ pending e post p \/
    (processed p = false /\ post ∈ batch).

Definition converging (V : Variant) (e : Engine) : Prop := awaiting V [] e.

(** The work under way is complete. *)
Definition idle (e : Engine) : Prop := suspended e = [] /\ sweeps e = [].

(** The turns that keep [converging] in the state [e]: all but the arrival
    of a post, a change of the text of a post that has no call of
    [processPost] suspended (the text that "see more" brings comes while the
    call is suspended), and a change of configuration that is not followed
    by [reprocessAllPosts]. *)
Definition steady (e : Engine) (ev : event) : bool :=
  match ev with
  | Appear _ _ | ConfigLoaded _ => false
  | ContentChanged post _ _ => bool_decide (post ∈ suspended e)
  | StorageChanged _ _ _ => reprocesses ev
  | _ => true
  end.

(** A run whose turns are steady. *)
Inductive steadyRun (V : Variant) : Engine -> list event -> Engine -> Prop :=
| steadyRun_nil e : steadyRun V e [] e
| steadyRun_cons e ev e1 evs e2 :
    step V e ev e1 -> steady e ev = true -> steadyRun V e1 evs e2 ->
    steadyRun V e (ev :: evs) e2.

(** The turns that complete the work under way. *)
Definition completes (ev : event) : bool :=
  match ev with
  | Resume _ | NextBatch => true
  | _ => false
  end.

(** The turns that leave the configuration as it is. *)
Definition keepsConfig (ev : event) : bool :=
  match ev with
  | StorageChanged _ _ _ | ConfigLoaded _ => false
  | _ => true
  end.

(** Every post of [e] is in [e'] with the visibility and the text it had. *)
Definition keeps (e e' : Engine) : Prop :=
  forall post p, document e !! post = Some p ->
    exists p', document e' !! post = Some p' /\ hidden p' = hidden p /\
      blocks p' = blocks p.

(** The work left in the sweeps: their batches and the posts in them. *)
Definition sweepWork (l : list (list nat)) : nat :=
  foldr (fun batch n => (S (length batch) + n)%nat) O l.

(** The filter is off: paused, or without keywords. *)
Definition inactive (e : Engine) : Prop :=
  truthy (paused (currentConfig e)) = true \/ normalizedWordSet e = [].

Definition hides (x : effect) : bool :=
  match x with
  | HidePost _ => true
  | _ => false
  end.

(** The turns that call [removeAllHighlights]: a change of [mode] from
    [whitelist] to [blacklist]. *)
Definition removesHighlights (e : Engine) (ev : event) : bool :=
  match ev with
  | StorageChanged (Some v) _ _ =>
    isString (js "whitelist") (mode (currentConfig e))
    && isString (js "blacklist") v
  | _ => false
  end.

(** An effect that neither hides a post nor reports a count. *)
Definition silent (x : effect) : bool :=
  match x with
  | HidePost _ | NotifyCount _ => false
  | _ => true
  end.

End EngineProps.

(** ** Predicates on markup *)

Module MarkupProps.
Import JS Highlight2.

(** [node.textContent] *)
Fixpoint textContent (n : node) : list N :=
  match n with
  | Text data => data
  | Element _ children => concat (map textContent children)
  end.

(** The text of a sequence of nodes, as [textContent] of their parent. *)
Definition textOf (nodes : list node) : list N :=
  concat (map textContent nodes).

(** The strings of [matches] occur in [text] one after the other, the first
    at or after position [from]. *)
Fixpoint chain (text : list N) (from : nat) (matches : list (list N))
  : Prop :=
  match matches with
  | [] => True
  | m :: rest =>
    exists q, (from <= q)%nat /\ m `prefix_of` drop q text /\
      chain text (q + length m) rest
  end.

End MarkupProps.

(** * Proofs *)

Module ScanFacts.
Import JS Facts.

Lemma quiet_nil m : fires m [] = false -> quiet m [].
Proof.
  intros H z Hz. apply suffix_nil_inv in Hz. by subst.
Qed.

Lemma suffix_cons_cases (z : list N) c s :
  z `suffix_of` c :: s -> z = c :: s \/ z `suffix_of` s.
Proof.
  intros [k Hk]. destruct k as [|d k]; simpl in Hk.
  - by left.
  - right. injection Hk as _ ->. by exists k.
Qed.

Lemma quiet_cons m c s :
  quiet m (c :: s) <-> fires m (c :: s) = false /\ quiet m s.
Proof.
  split.
  - intros H. split; [by apply H|].
    intros z Hz. apply H. by apply suffix_cons_r.
  - intros [H1 H2] z Hz.
    apply suffix_cons_cases in Hz as [->|Hz]; [done|by apply H2].
Qed.

Lemma replaceAll_quiet_id m rep s :
  quiet m s -> replaceAll m rep 0 s = s.
Proof.
  induction s as [|c r IH]; [done|].
  intros [Hc Hr]%quiet_cons. simpl.
  unfold fires in Hc. destruct (m (c :: r)) as [[|k]|]; try discriminate;
    by rewrite IH.
Qed.

Lemma replaceAll_units m rep u s k :
  u ∈ replaceAll m rep k s -> u ∈ s \/ u ∈ rep.
Proof.
  revert k. induction s as [|c r IH]; intros k; simpl.
  - intros H. by left.
  - destruct k as [|k].
    + destruct (m (c :: r)) as [[|j]|].
      * intros [->|H]%elem_of_cons; [left; left|].
        destruct (IH _ H); [left; by right|by right].
      * intros [H|H]%elem_of_app; [by right|].
        destruct (IH _ H); [left; by right|by right].
      * intros [->|H]%elem_of_cons; [left; left|].
        destruct (IH _ H); [left; by right|by right].
    + intros H. destruct (IH _ H); [left; by right|by right].
Qed.

Lemma takeWhile_app_drop p s :
  takeWhile p s ++ drop (length (takeWhile p s)) s = s.
Proof.
  induction s as [|c r IH]; [done|]. simpl.
  destruct (p c); simpl; [by rewrite IH|done].
Qed.

Lemma takeWhile_all_app p a b :
  forallb p a = true -> takeWhile p (a ++ b) = a ++ takeWhile p b.
Proof.
  induction a as [|c a IH]; [done|]. simpl.
  intros [Hc Ha]%andb_true_iff. by rewrite Hc, IH.
Qed.

(** The first run of the output of a replacement by a space is a prefix of
    the input. *)
Lemma takeWhile_replaceAll m r :
  exists w, takeWhile notSpace (replaceAll m [SP] 0 r) ++ w = r.
Proof.
  induction r as [|d r IH]; [by exists []|]. simpl.
  destruct (m (d :: r)) as [[|j]|]; simpl.
  2: by eexists.
  all: destruct (notSpace d); [|by eexists].
  all: destruct IH as [w Hw]; exists w; simpl; by rewrite Hw.
Qed.

Lemma quiet_replaceAll m m' k s :
  spaceBounded m' ->
  (forall z, z `suffix_of` s -> fires m z = false -> fires m' z = false) ->
  quiet m' (replaceAll m [SP] k s).
Proof.
  intros Hm'. revert k.
  induction s as [|c r IH]; intros k H; simpl.
  - apply quiet_nil, Hm'.
  - assert (Hr : forall z, z `suffix_of` r -> fires m z = false ->
                           fires m' z = false).
    { intros z Hz. apply H. by apply suffix_cons_r. }
    destruct k as [|k]; [|by apply IH].
    destruct (fires m (c :: r)) eqn:Hf.
    + unfold fires in Hf. destruct (m (c :: r)) as [[|j]|]; try discriminate.
      simpl. apply quiet_cons. split; [by apply Hm'|by apply IH].
    + assert (Hout : replaceAll m [SP] 0 (c :: r) = c :: replaceAll m [SP] 0 r).
      { simpl. unfold fires in Hf.
        by destruct (m (c :: r)) as [[|j]|]. }
      simpl in Hout. rewrite Hout. apply quiet_cons. split; [|by apply IH].
      destruct (fires m' (c :: replaceAll m [SP] 0 r)) eqn:Hf'; [|done].
      destruct (isSpace c) eqn:Hc.
      { by rewrite (sb_space _ Hm') in Hf'. }
      destruct (takeWhile_replaceAll m r) as [w Hw].
      apply (sb_ext _ Hm') with (w := w) in Hf'. simpl in Hf'.
      unfold notSpace at 1 in Hf'. rewrite Hc in Hf'. simpl in Hf'.
      rewrite Hw in Hf'. rewrite H in Hf'; [done|done|done].
Qed.

(** *** Trimming *)

Lemma trimStart_suffix s : trimStart s `suffix_of` s.
Proof.
  induction s as [|c r IH]; simpl; [done|].
  destruct (isSpace c); [by apply suffix_cons_r|done].
Qed.

Lemma trimEnd_split s :
  exists tail, s = trimEnd s ++ tail /\ forallb isSpace tail = true.
Proof.
  induction s as [|c r (tail & Hr & Ht)]; [by exists []|]. simpl.
  destruct (trimEnd r) as [|d t] eqn:Hd.
  - destruct (isSpace c) eqn:Hc.
    + exists (c :: tail). simpl in *. subst r. by rewrite Hc, Ht.
    + exists tail. simpl in *. by subst r.
  - exists tail. split; [|done]. simpl. by rewrite Hr at 1.
Qed.

Lemma quiet_suffix m s z : quiet m s -> z `suffix_of` s -> quiet m z.
Proof. intros H Hz y Hy. apply H. by etrans. Qed.

Lemma quiet_trim m s : spaceBounded m -> quiet m s -> quiet m (trim s).
Proof.
  intros Hm Hs. unfold trim.
  pose proof (quiet_suffix _ _ _ Hs (trimStart_suffix s)) as Hq.
  destruct (trimEnd_split (trimStart s)) as (tail & Heq & _).
  intros z [k Hz].
  destruct (fires m z) eqn:Hf; [|done].
  apply (sb_ext _ Hm) with
    (w := drop (length (takeWhile notSpace z)) z ++ tail) in Hf.
  rewrite app_assoc, takeWhile_app_drop in Hf.
  rewrite Hq in Hf; [done|].
  exists k. rewrite Heq, Hz. by rewrite app_assoc.
Qed.

Lemma trim_units u s : u ∈ trim s -> u ∈ s.
Proof.
  unfold trim. intros H.
  destruct (trimEnd_split (trimStart s)) as (tail & Heq & _).
  destruct (trimStart_suffix s) as [k Hk].
  rewrite Hk, Heq. apply elem_of_app. right. apply elem_of_app. by left.
Qed.

Lemma trimEnd_cons_notSpace c r :
  isSpace c = false -> exists t, trimEnd (c :: r) = c :: t.
Proof.
  intros Hc. simpl. destruct (trimEnd r); rewrite ?Hc; by eexists.
Qed.

Lemma trimEnd_idem s : trimEnd (trimEnd s) = trimEnd s.
Proof.
  induction s as [|c r IH]; [done|]. simpl.
  destruct (trimEnd r) as [|d t] eqn:Hd.
  - destruct (isSpace c) eqn:Hc; [done|]. simpl. by rewrite Hc.
  - change (trimEnd (c :: d :: t)) with
      (match trimEnd (d :: t) with
       | [] => if isSpace c then [] else [c]
       | t' => c :: t' end).
    by rewrite IH.
Qed.

Lemma trimStart_head s :
  trimStart s = [] \/ exists c r, trimStart s = c :: r /\ isSpace c = false.
Proof.
  induction s as [|c r IH]; [by left|]. simpl.
  destruct (isSpace c) eqn:Hc; [done|]. right. by exists c, r.
Qed.

Lemma trim_idem s : trim (trim s) = trim s.
Proof.
  unfold trim.
  destruct (trimStart_head s) as [->|(c & r & -> & Hc)]; [done|].
  destruct (trimEnd_cons_notSpace c r Hc) as [t Ht]. rewrite Ht.
  assert (trimStart (c :: t) = c :: t) as -> by (simpl; by rewrite Hc).
  by rewrite <- Ht, trimEnd_idem.
Qed.

Lemma trim_blank s : forallb isSpace s = true -> trim s = [].
Proof.
  unfold trim. induction s as [|c r IH]; [done|]. simpl.
  intros [Hc Hr]%andb_true_iff. rewrite Hc. by apply IH.
Qed.

(** *** Runs of white space *)

Lemma singleSpaced_weaken b s :
  singleSpaced b s = true -> singleSpaced false s = true.
Proof.
  destruct s as [|c r]; [done|]. simpl. destruct (isSpace c); [|done].
  intros [[-> _]%andb_true_iff ->]%andb_true_iff. done.
Qed.

Lemma collapse_singleSpaced s :
  (forall k, k = length (takeWhile isSpace s) ->
     singleSpaced true (replaceAll spaceMatch [SP] k s) = true) /\
  singleSpaced false (replaceAll spaceMatch [SP] 0 s) = true.
Proof.
  induction s as [|c r [IH1 IH2]]; [done|]. split.
  - intros k ->. simpl. destruct (isSpace c) eqn:Hc; simpl.
    + by apply IH1.
    + unfold spaceMatch. simpl. rewrite Hc. simpl. by rewrite Hc.
  - simpl. unfold spaceMatch. simpl. destruct (isSpace c) eqn:Hc; simpl.
    + by rewrite IH1.
    + by rewrite Hc.
Qed.

Lemma singleSpaced_id b s :
  singleSpaced b s = true -> replaceAll spaceMatch [SP] 0 s = s.
Proof.
  revert b. induction s as [|c r IH]; intros b; [done|]. simpl.
  unfold spaceMatch. simpl. destruct (isSpace c) eqn:Hc.
  - intros [[->%N.eqb_eq _]%andb_true_iff Hr]%andb_true_iff.
    assert (takeWhile isSpace r = []) as ->.
    { destruct r as [|d r']; [done|]. simpl in *.
      destruct (isSpace d); [|done].
      by rewrite andb_false_r in Hr. }
    simpl. f_equal. by apply (IH true).
  - intros Hr. simpl. f_equal. by apply (IH false).
Qed.

Lemma singleSpaced_suffix b s z :
  singleSpaced b s = true -> z `suffix_of` s ->
  exists b', singleSpaced b' z = true.
Proof.
  revert b. induction s as [|c r IH]; intros b Hs Hz.
  - apply suffix_nil_inv in Hz as ->. by exists b.
  - apply suffix_cons_cases in Hz as [->|Hz]; [by exists b|].
    simpl in Hs. destruct (isSpace c).
    + apply andb_true_iff in Hs as [_ Hs]. by apply (IH true).
    + by apply (IH false).
Qed.

Lemma singleSpaced_trimEnd b s :
  singleSpaced b s = true -> singleSpaced b (trimEnd s) = true.
Proof.
  revert b. induction s as [|c r IH]; intros b; [done|].
  intros Hs. simpl in Hs.
  change (trimEnd (c :: r)) with
    (match trimEnd r with
     | [] => if isSpace c then [] else [c]
     | t => c :: t end).
  destruct (isSpace c) eqn:Hc.
  - apply andb_true_iff in Hs as [Hs1 Hs2]. apply IH in Hs2.
    destruct (trimEnd r) as [|d t]; [done|].
    simpl. rewrite Hc, Hs1. exact Hs2.
  - apply IH in Hs.
    destruct (trimEnd r) as [|d t]; simpl; by rewrite Hc.
Qed.

Lemma singleSpaced_trim b s :
  singleSpaced b s = true -> singleSpaced false (trim s) = true.
Proof.
  intros Hs. unfold trim.
  destruct (singleSpaced_suffix _ _ _ Hs (trimStart_suffix s)) as [b' Hb'].
  apply singleSpaced_trimEnd in Hb'. by eapply singleSpaced_weaken.
Qed.

Lemma singleSpaced_space b s u :
  singleSpaced b s = true -> u ∈ s -> isSpace u = true -> u = SP.
Proof.
  revert b. induction s as [|c r IH]; intros b Hs Hu Hsp.
  - by apply elem_of_nil in Hu.
  - simpl in Hs. apply elem_of_cons in Hu as [->|Hu].
    + rewrite Hsp in Hs.
      apply andb_true_iff in Hs as [[Hs _]%andb_true_iff _].
      by apply N.eqb_eq.
    + destruct (isSpace c).
      * apply andb_true_iff in Hs as [_ Hs]. by eapply IH.
      * by eapply IH.
Qed.

(** *** The matchers of the normalizer *)

Lemma isSpace_bound c : isSpace c = true -> c <= 0x3000 \/ c = 0xFEFF.
Proof. unfold isSpace. intros H. bools; lia. Qed.

Lemma isSpace_false c :
  (14 <= c < 32 \/ 33 <= c < 0xA0 \/ 0xA1 <= c < 0x1680 \/
   0x3001 <= c < 0xFEFF) ->
  isSpace c = false.
Proof.
  intros H. unfold isSpace.
  repeat (apply orb_false_iff; split);
    try apply andb_false_iff;
    rewrite ?N.leb_gt, ?N.eqb_neq; lia.
Qed.

Lemma startsWith_app p s : startsWith p s = true -> s = p ++ drop (length p) s.
Proof.
  revert s. induction p as [|a p IH]; intros s; [done|].
  destruct s as [|b s]; [done|]. simpl.
  intros [->%N.eqb_eq H]%andb_true_iff. f_equal. by apply IH.
Qed.

Lemma fires_urlMatch z :
  fires urlMatch z = true ->
  exists scheme d x, (scheme = js "https://" \/ scheme = js "http://") /\
    z = scheme ++ d :: x /\ notSpace d = true.
Proof.
  unfold fires, urlMatch, urlAfter. intros H.
  destruct (startsWith (js "https://") z) eqn:H1.
  - pose proof (startsWith_app _ _ H1) as Hz.
    destruct (drop (length (js "https://")) z) as [|d x] eqn:Hd.
    + rewrite app_nil_r in Hz. subst z. done.
    + simpl in H. destruct (notSpace d) eqn:Hn.
      * exists (js "https://"), d, x. auto.
      * subst z. done.
  - destruct (startsWith (js "http://") z) eqn:H2; [|done].
    pose proof (startsWith_app _ _ H2) as Hz.
    destruct (drop (length (js "http://")) z) as [|d x] eqn:Hd; [done|].
    simpl in H. destruct (notSpace d) eqn:Hn; [|done].
    exists (js "http://"), d, x. auto.
Qed.

Lemma urlMatch_fires scheme d x :
  scheme = js "https://" \/ scheme = js "http://" ->
  notSpace d = true -> fires urlMatch (scheme ++ d :: x) = true.
Proof.
  intros [-> | ->] Hd; unfold fires, urlMatch, urlAfter; simpl; by rewrite Hd.
Qed.

Lemma urlMatch_bounded : spaceBounded urlMatch.
Proof.
  split.
  - done.
  - intros c z Hc.
    assert (Hh : (104 =? c) = false) by (apply N.eqb_neq; by intros <-).
    unfold fires, urlMatch, urlAfter.
    change (js "https://") with (104 :: js "ttps://").
    change (js "http://") with (104 :: js "ttp://").
    cbn [startsWith]. by rewrite Hh.
  - intros z w (scheme & d & x & Hs & -> & Hd)%fires_urlMatch.
    rewrite takeWhile_all_app by (by destruct Hs as [-> | ->]).
    simpl. rewrite Hd. rewrite <- !app_assoc. simpl.
    by apply urlMatch_fires.
Qed.

Lemma space_not_emoji c : isSpace c = true -> isEmoji c = false.
Proof.
  intros Hc. destruct (isEmoji c) eqn:He; [exfalso|done].
  unfold isSpace in Hc. unfold isEmoji in He. bools; lia.
Qed.

Lemma space_not_surrogate c : isSpace c = true -> isSurrogate c = false.
Proof.
  intros Hc. destruct (isSurrogate c) eqn:He; [exfalso|done].
  unfold isSpace in Hc. unfold isSurrogate in He. bools; lia.
Qed.

Lemma high_surrogate c : isHighSurrogate c = true -> isSurrogate c = true.
Proof.
  unfold isHighSurrogate, isSurrogate. intros H. bools.
  apply andb_true_iff. rewrite !N.leb_le. lia.
Qed.

Lemma low_surrogate c : isLowSurrogate c = true -> isSurrogate c = true.
Proof.
  unfold isLowSurrogate, isSurrogate. intros H. bools.
  apply andb_true_iff. rewrite !N.leb_le. lia.
Qed.

Lemma surrogate_notSpace c : isSurrogate c = true -> notSpace c = true.
Proof.
  intros H. unfold notSpace. destruct (isSpace c) eqn:Hc; [|done].
  apply space_not_surrogate in Hc. congruence.
Qed.

Lemma emoji_not_surrogate c : isEmoji c = true -> isSurrogate c = false.
Proof.
  intros He. destruct (isSurrogate c) eqn:Hs; [exfalso|done].
  unfold isEmoji in He. unfold isSurrogate in Hs. bools; lia.
Qed.

Lemma emojiMatch_unit c x :
  isEmoji c = true -> fires emojiMatch (c :: x) = true.
Proof.
  intros He. unfold fires, emojiMatch.
  destruct x as [|d x]; [by rewrite He|].
  destruct (isHighSurrogate c) eqn:Hh.
  - apply high_surrogate in Hh. apply emoji_not_surrogate in He. congruence.
  - simpl. by rewrite He.
Qed.

Lemma emojiMatch_bounded : spaceBounded emojiMatch.
Proof.
  split.
  - done.
  - intros c z Hc. unfold fires, emojiMatch.
    pose proof (space_not_emoji _ Hc) as He.
    destruct z as [|d z]; [by rewrite He|].
    destruct (isHighSurrogate c) eqn:Hh.
    + apply high_surrogate in Hh. apply space_not_surrogate in Hc. congruence.
    + simpl. by rewrite He.
  - intros z w H. unfold fires, emojiMatch in H.
    destruct z as [|c r]; [done|].
    assert (Hunit : isEmoji c = true ->
              fires emojiMatch (takeWhile notSpace (c :: r) ++ w) = true).
    { intros He. simpl. destruct (notSpace c) eqn:Hn.
      - by apply emojiMatch_unit.
      - unfold notSpace in Hn. apply negb_false_iff in Hn.
        apply space_not_emoji in Hn. congruence. }
    destruct r as [|d r].
    + destruct (isEmoji c) eqn:He; [by apply Hunit|done].
    + destruct (isHighSurrogate c && isLowSurrogate d) eqn:Hp.
      * destruct (isEmoji (codePoint c d)) eqn:He; [|done].
        apply andb_true_iff in Hp as [Hc Hd].
        simpl.
        rewrite (surrogate_notSpace c) by (by apply high_surrogate).
        rewrite (surrogate_notSpace d) by (by apply low_surrogate).
        simpl. unfold fires, emojiMatch. by rewrite Hc, Hd, He.
      * destruct (isEmoji c) eqn:He; [by apply Hunit|done].
Qed.

Lemma punctMatch_bounded : spaceBounded punctMatch.
Proof.
  split.
  - done.
  - intros c z Hc. unfold fires, punctMatch, isKept.
    by rewrite Hc, orb_true_r.
  - intros z w H. unfold fires, punctMatch in *.
    destruct z as [|c r]; [done|]. simpl.
    destruct (isKept c) eqn:Hk; [done|].
    assert (notSpace c = true) as ->.
    { unfold notSpace. unfold isKept in Hk.
      destruct (isSpace c); [|done]. by rewrite orb_true_r in Hk. }
    simpl. by rewrite Hk.
Qed.

Section Mention.
Context (rt : Runtime) (laws : RuntimeLaws rt).

Lemma bodyUnit_notSpace c : bodyUnit rt c = true -> notSpace c = true.
Proof using laws.
  unfold bodyUnit, notSpace. intros H. bools.
  - by rewrite (letter_not_space _ laws c).
  - by subst.
  - by subst.
Qed.

Lemma mentionBody_unit c x :
  bodyUnit rt c = true -> (0 < mentionBody rt (c :: x))%nat.
Proof.
  intros Hb. simpl. destruct x as [|d x]; [rewrite Hb; lia|].
  destruct (isHighSurrogate c) eqn:Hh.
  - apply high_surrogate in Hh. unfold bodyUnit in Hb.
    rewrite Hh in Hb. done.
  - simpl. rewrite Hb. lia.
Qed.

Lemma mentionMatch_bounded : spaceBounded (mentionMatch rt).
Proof using laws.
  split.
  - done.
  - intros c z Hc. unfold fires, mentionMatch.
    destruct ((c =? 64) || (c =? 35)) eqn:Hh; [|done].
    bools; by subst.
  - intros z w H. unfold fires, mentionMatch in H.
    destruct z as [|c r]; [done|].
    destruct ((c =? 64) || (c =? 35)) eqn:Hh; [|done].
    assert (Hc : notSpace c = true) by (bools; by subst).
    simpl. rewrite Hc. simpl.
    assert (Hgoal : (0 < mentionBody rt (takeWhile notSpace r ++ w))%nat ->
              fires (mentionMatch rt) (c :: takeWhile notSpace r ++ w) = true).
    { intros Hpos. unfold fires, mentionMatch. rewrite Hh.
      destruct (mentionBody rt (takeWhile notSpace r ++ w)); [lia|done]. }
    apply Hgoal.
    destruct (mentionBody rt r) as [|n] eqn:Hn; [done|]. clear H.
    destruct r as [|u t]; [done|]. simpl in Hn.
    assert (Hunit : bodyUnit rt u = true ->
              (0 < mentionBody rt (takeWhile notSpace (u :: t) ++ w))%nat).
    { intros Hb. simpl. rewrite (bodyUnit_notSpace _ Hb).
      by apply mentionBody_unit. }
    destruct t as [|d t'].
    + destruct (bodyUnit rt u) eqn:Hb; [by apply Hunit|done].
    + destruct (isHighSurrogate u && isLowSurrogate d) eqn:Hp.
      * destruct (isLetterOrNumber rt (codePoint u d)) eqn:Hl; [|done].
        apply andb_true_iff in Hp as [Hu Hd].
        simpl.
        rewrite (surrogate_notSpace u) by (by apply high_surrogate).
        rewrite (surrogate_notSpace d) by (by apply low_surrogate).
        simpl. rewrite Hu, Hd, Hl. simpl. lia.
      * destruct (bodyUnit rt u) eqn:Hb; [by apply Hunit|done].
Qed.

End Mention.

Lemma markMatch_bounded : spaceBounded markMatch.
Proof.
  split.
  - done.
  - intros c z Hc. unfold fires, markMatch.
    destruct ((0x300 <=? c) && (c <=? 0x36F)) eqn:Hm; [exfalso|done].
    unfold isSpace in Hc. bools; lia.
  - intros z w H. unfold fires, markMatch in *.
    destruct z as [|c r]; [done|].
    destruct ((0x300 <=? c) && (c <=? 0x36F)) eqn:Hm; [|done].
    simpl. assert (notSpace c = true) as ->.
    { unfold notSpace, isSpace. apply negb_true_iff. bools.
      repeat (apply orb_false_iff; split);
        try apply andb_false_iff; rewrite ?N.leb_gt, ?N.eqb_neq; lia. }
    simpl. by rewrite Hm.
Qed.

Lemma quiet_strip k y : quiet markMatch (replaceAll markMatch [] k y).
Proof.
  revert k. induction y as [|c r IH]; intros k; simpl.
  - by apply quiet_nil.
  - destruct k as [|k]; [|apply IH].
    destruct ((0x300 <=? c) && (c <=? 0x36F)) eqn:Hm; simpl; [apply IH|].
    apply quiet_cons. split; [|apply IH].
    unfold fires. simpl. by rewrite Hm.
Qed.

Lemma quiet_self m s : spaceBounded m -> quiet m (replaceAll m [SP] 0 s).
Proof. intros Hm. by apply quiet_replaceAll. Qed.

Lemma quiet_step m m' s :
  spaceBounded m' -> quiet m' s -> quiet m' (replaceAll m [SP] 0 s).
Proof.
  intros Hm' Hs. apply quiet_replaceAll; [done|].
  intros z Hz _. by apply Hs.
Qed.

Lemma blank_units s :
  forallb isSpace s = true <-> (forall u, u ∈ s -> isSpace u = true).
Proof.
  rewrite forallb_forall. split; intros H u Hu; apply H;
    by apply list_elem_of_In.
Qed.

Lemma replaceAll_blank m rep s :
  forallb isSpace rep = true -> forallb isSpace s = true ->
  forallb isSpace (replaceAll m rep 0 s) = true.
Proof.
  rewrite !blank_units. intros Hrep Hs u Hu.
  apply replaceAll_units in Hu as [Hu|Hu]; auto.
Qed.

End ScanFacts.

(** ** The text normalizer *)

Module NormalizerFacts.
Import JS Facts ScanFacts.

Section WithRuntime.
Context (rt : Runtime) (laws : RuntimeLaws rt).

Lemma normalizeText1_cons c s :
  DomUtils.normalizeText rt (c :: s) =
  tail1 rt (normalizeNFD rt (toLowerCase rt (c :: s))).
Proof. reflexivity. Qed.

Lemma normalizeText2_cons c s :
  DomUtils2.normalizeText rt (c :: s) =
  tail2 rt (normalizeNFD rt (toLowerCase rt (c :: s))).
Proof. reflexivity. Qed.

Lemma cleaned_quiet y :
  quiet markMatch (cleaned rt y) /\ quiet urlMatch (cleaned rt y) /\
  quiet (mentionMatch rt) (cleaned rt y) /\ quiet emojiMatch (cleaned rt y).
Proof using laws.
  pose proof markMatch_bounded. pose proof urlMatch_bounded.
  pose proof (mentionMatch_bounded rt laws). pose proof emojiMatch_bounded.
  unfold cleaned. repeat split.
  - do 3 (apply quiet_step; [done|]). apply quiet_strip.
  - do 2 (apply quiet_step; [done|]). by apply quiet_self.
  - apply quiet_step; [done|]. by apply quiet_self.
  - by apply quiet_self.
Qed.

Lemma cleaned_id t :
  quiet markMatch t -> quiet urlMatch t -> quiet (mentionMatch rt) t ->
  quiet emojiMatch t -> cleaned rt t = t.
Proof.
  intros H1 H2 H3 H4. unfold cleaned.
  rewrite (replaceAll_quiet_id markMatch) by done.
  rewrite (replaceAll_quiet_id urlMatch) by done.
  rewrite (replaceAll_quiet_id (mentionMatch rt)) by done.
  by rewrite (replaceAll_quiet_id emojiMatch).
Qed.

Lemma tail1_fixed y : tail1 rt (tail1 rt y) = tail1 rt y.
Proof using laws.
  pose proof markMatch_bounded. pose proof urlMatch_bounded.
  pose proof (mentionMatch_bounded rt laws). pose proof emojiMatch_bounded.
  destruct (cleaned_quiet y) as (Q1 & Q2 & Q3 & Q4).
  unfold tail1 at 1.
  rewrite cleaned_id; unfold tail1;
    try (apply quiet_trim; [done|]; by apply quiet_step).
  rewrite (singleSpaced_id false).
  - apply trim_idem.
  - eapply singleSpaced_trim. apply collapse_singleSpaced.
Qed.

Lemma tail2_quiet_punct y : quiet punctMatch (tail2 rt y).
Proof.
  pose proof punctMatch_bounded.
  unfold tail2. apply quiet_trim; [done|]. apply quiet_step; [done|].
  by apply quiet_self.
Qed.

Lemma tail2_fixed y : tail2 rt (tail2 rt y) = tail2 rt y.
Proof using laws.
  pose proof markMatch_bounded. pose proof urlMatch_bounded.
  pose proof (mentionMatch_bounded rt laws). pose proof emojiMatch_bounded.
  destruct (cleaned_quiet y) as (Q1 & Q2 & Q3 & Q4).
  unfold tail2 at 1.
  rewrite cleaned_id; unfold tail2;
    try (apply quiet_trim; [done|]; by do 2 (apply quiet_step; [done|])).
  rewrite (replaceAll_quiet_id punctMatch) by apply tail2_quiet_punct.
  rewrite (singleSpaced_id false).
  - apply trim_idem.
  - eapply singleSpaced_trim. apply collapse_singleSpaced.
Qed.

Lemma quiet_punct_kept t u : quiet punctMatch t -> u ∈ t -> isKept u = true.
Proof.
  induction t as [|c r IH]; intros Hq Hu.
  - by apply elem_of_nil in Hu.
  - apply quiet_cons in Hq as [Hc Hr].
    apply elem_of_cons in Hu as [->|Hu]; [|by apply IH].
    unfold fires, punctMatch in Hc. by destruct (isKept c).
Qed.

Lemma cleaned_units u y : u ∈ cleaned rt y -> u ∈ y \/ u = SP.
Proof.
  unfold cleaned. intros H.
  repeat (apply replaceAll_units in H as [H|H];
          [|first [by apply elem_of_nil in H
                  |apply list_elem_of_singleton in H; by right]]).
  by left.
Qed.

Lemma tail2_units u y : u ∈ tail2 rt y -> u ∈ y \/ u = SP.
Proof.
  unfold tail2. intros H%trim_units.
  do 2 (apply replaceAll_units in H as [H|H];
          [|apply list_elem_of_singleton in H; by right]).
  by apply cleaned_units.
Qed.

(** The result of the second variant is made of settled units below
    U+0180. *)
Lemma tail2_settled s u :
  u ∈ tail2 rt (normalizeNFD rt (toLowerCase rt s)) ->
  u < 0x180 /\ settled rt u.
Proof using laws.
  intros Hu.
  pose proof (quiet_punct_kept _ _ (tail2_quiet_punct _) Hu) as Hk.
  assert (Hsp : isSpace u = true -> u = SP).
  { eapply singleSpaced_space; [|exact Hu].
    unfold tail2. eapply singleSpaced_trim. apply collapse_singleSpaced. }
  assert (Hlt : u < 0x180).
  { unfold isKept, isWordChar in Hk.
    destruct (isSpace u) eqn:Hs.
    - rewrite (Hsp eq_refl). done.
    - rewrite orb_false_r in Hk. bools; lia. }
  split; [done|].
  apply tail2_units in Hu as [Hu| ->].
  - by eapply (decomposed_settled _ laws).
  - apply (ascii_settled _ laws); [done|]. by left.
Qed.

Lemma normalizeText2_idempotent s :
  DomUtils2.normalizeText rt (DomUtils2.normalizeText rt s) =
  DomUtils2.normalizeText rt s.
Proof using laws.
  destruct s as [|c s]; [done|].
  rewrite normalizeText2_cons.
  set (y := normalizeNFD rt (toLowerCase rt (c :: s))).
  destruct (tail2 rt y) as [|d t] eqn:Ht; [done|].
  rewrite normalizeText2_cons, <- Ht.
  destruct (settled_string _ laws (tail2 rt y)) as [-> Hn].
  { intros u Hu. by apply tail2_settled in Hu. }
  rewrite Hn. apply tail2_fixed.
Qed.

Lemma normalizeText1_idempotent s :
  let t := DomUtils.normalizeText rt s in
  toLowerCase rt t = t -> normalizeNFD rt t = t ->
  DomUtils.normalizeText rt t = t.
Proof using laws.
  destruct s as [|c s]; [done|]. cbv zeta.
  rewrite normalizeText1_cons.
  set (y := normalizeNFD rt (toLowerCase rt (c :: s))).
  intros Hl Hn.
  destruct (tail1 rt y) as [|d t] eqn:Ht; [done|].
  rewrite normalizeText1_cons, Hl, Hn, <- Ht. apply tail1_fixed.
Qed.

Lemma normalizeText_blank s :
  forallb isSpace s = true ->
  DomUtils.normalizeText rt s = [] /\ DomUtils2.normalizeText rt s = [].
Proof using laws.
  intros Hs. destruct s as [|c s]; [done|].
  assert (Hy : forallb isSpace (normalizeNFD rt (toLowerCase rt (c :: s))) = true).
  { apply (nfd_blank _ laws), (lower_blank _ laws), Hs. }
  rewrite normalizeText1_cons, normalizeText2_cons.
  unfold tail1, tail2, cleaned.
  split; apply trim_blank; by repeat apply replaceAll_blank.
Qed.

End WithRuntime.
End NormalizerFacts.

(** ** The reference runtime satisfies the laws *)

Module ReferenceFacts.
Import JS Facts ScanFacts Reference.

Lemma strEq_eq a b : strEq a b = true <-> a = b.
Proof.
  revert b. induction a as [|x a IH]; intros [|y b]; simpl; try done.
  rewrite andb_true_iff, N.eqb_eq, IH. split.
  - by intros [-> ->].
  - intros [= -> ->]. done.
Qed.

Lemma below_spec n p c :
  below n p = true -> c < N.of_nat n -> p c = true.
Proof.
  unfold below. rewrite forallb_forall. intros H Hc. apply H.
  apply in_map_iff. exists (N.to_nat c). split; [lia|].
  apply in_seq. lia.
Qed.

Lemma find_none_all {A} (f : A -> bool) (l : list A) :
  (forall x, In x l -> f x = false) -> List.find f l = None.
Proof.
  induction l as [|a l IH]; intros H; [done|]. simpl.
  rewrite (H a) by (by left). apply IH. intros x Hx. apply H. by right.
Qed.

Lemma combiningClass_low c : c < 0x300 -> combiningClass c = 0.
Proof.
  intros Hc. unfold combiningClass. rewrite find_none_all; [done|].
  assert (H : forallb (fun e => 0x300 <=? fst (fst e)) combiningClasses = true)
    by (vm_compute; reflexivity).
  rewrite forallb_forall in H. intros e He. specialize (H e He).
  apply andb_false_iff. left. apply N.leb_gt. apply N.leb_le in H. lia.
Qed.

Lemma decompose_high c : 0x100 <= c -> c < 0x300 -> decompose c = [c].
Proof.
  intros H1 H2. unfold decompose.
  replace (c <=? 0xFF) with false by (symmetry; apply N.leb_gt; lia).
  rewrite andb_false_r.
  repeat match goal with
  | |- context [c =? ?k] =>
    replace (c =? k) with false by (symmetry; apply N.eqb_neq; lia)
  end.
  done.
Qed.

Lemma lowerUnit_high c : 0xDF <= c -> lowerUnit c = c.
Proof.
  intros H. unfold lowerUnit.
  replace (c <=? 90) with false by (symmetry; apply N.leb_gt; lia).
  replace (c <=? 0xDE) with false by (symmetry; apply N.leb_gt; lia).
  by rewrite !andb_false_r.
Qed.

Lemma settledb_spec c : settledb c = true <-> settled runtime c.
Proof.
  unfold settledb, settled. simpl.
  rewrite andb_true_iff, N.eqb_eq, strEq_eq. split.
  - intros [-> ->]. done.
  - intros [[= ->] ->]. done.
Qed.

Lemma settled_shape c :
  c < 0x180 -> settled runtime c -> lowerUnit c = c /\ decompose c = [c].
Proof.
  intros Hc Hs. apply settledb_spec in Hs.
  assert (H : below 384 (fun c =>
            implb (settledb c) ((lowerUnit c =? c) && strEq (decompose c) [c]))
          = true) by (vm_compute; reflexivity).
  apply below_spec with (c := c) in H; [|done].
  rewrite Hs in H. simpl in H.
  apply andb_true_iff in H as [H1 H2].
  by rewrite N.eqb_eq in H1; rewrite strEq_eq in H2.
Qed.

Lemma reorder_starters t :
  (forall u, u ∈ t -> combiningClass u = 0) -> reorder t = t.
Proof.
  induction t as [|c r IH]; intros H; [done|]. simpl.
  rewrite (H c) by left. simpl. f_equal. apply IH.
  intros u Hu. apply H. by right.
Qed.

Lemma insertMark_units u c l : u ∈ insertMark c l -> u = c \/ u ∈ l.
Proof.
  induction l as [|d l IH]; simpl.
  - intros ->%list_elem_of_singleton. by left.
  - destruct ((0 <? combiningClass d) && (combiningClass d <? combiningClass c)).
    + intros [->|H]%elem_of_cons; [right; left|].
      destruct (IH H); [by left|right; by right].
    + intros [->|H]%elem_of_cons; [by left|by right].
Qed.

Lemma reorder_units u s : u ∈ reorder s -> u ∈ s.
Proof.
  induction s as [|c r IH]; [done|]. simpl.
  destruct (combiningClass c =? 0).
  - intros [->|H]%elem_of_cons; [left|right; by apply IH].
  - intros [->|H]%insertMark_units; [left|right; by apply IH].
Qed.

Lemma lowerUnit_space c : isSpace (lowerUnit c) = isSpace c.
Proof.
  unfold lowerUnit.
  destruct (((65 <=? c) && (c <=? 90))
            || ((0xC0 <=? c) && (c <=? 0xDE) && negb (c =? 0xD7))) eqn:H;
    [|done].
  rewrite !isSpace_false; [done| |]; bools; lia.
Qed.

Lemma decompose_space c : isSpace c = true -> decompose c = [c].
Proof.
  intros Hc. unfold isSpace in Hc. unfold decompose.
  assert (Hr : (0xC0 <=? c) && (c <=? 0xFF) = false).
  { apply andb_false_iff. rewrite !N.leb_gt. bools; lia. }
  rewrite Hr.
  repeat match goal with
  | |- context [c =? ?k] =>
    replace (c =? k) with false by (symmetry; apply N.eqb_neq; bools; lia)
  end.
  done.
Qed.

Lemma upperUnit_word c : isWordChar c = isWordChar (upperUnit c).
Proof.
  destruct (N.lt_ge_cases c 128) as [Hc|Hc].
  - assert (H : below 128 (fun c =>
              Bool.eqb (isWordChar c) (isWordChar (upperUnit c))) = true)
      by (vm_compute; reflexivity).
    apply below_spec with (c := c) in H; [|done]. by apply eqb_prop.
  - assert (Hu : 128 <= upperUnit c).
    { unfold upperUnit.
      repeat match goal with
      | |- context [if ?b then _ else _] => destruct b eqn:?
      end; bools; lia. }
    assert (Hw : forall x, 128 <= x -> isWordChar x = false).
    { intros x Hx. unfold isWordChar.
      repeat (apply orb_false_iff; split);
        try apply andb_false_iff; rewrite ?N.leb_gt, ?N.eqb_neq; lia. }
    by rewrite !Hw.
Qed.

Lemma runtime_laws : RuntimeLaws runtime.
Proof.
  split; simpl.
  - intros t Ht.
    assert (Hl : map lowerUnit t = t).
    { induction t as [|c r IH]; [done|]. simpl.
      destruct (Ht c) as [Hc Hs]; [left|].
      rewrite (proj1 (settled_shape c Hc Hs)). f_equal. apply IH.
      intros u Hu. apply Ht. by right. }
    split; [done|].
    assert (Hd : flat_map decompose t = t).
    { induction t as [|c r IH]; [done|]. simpl.
      destruct (Ht c) as [Hc Hs]; [left|].
      rewrite (proj2 (settled_shape c Hc Hs)). simpl. f_equal. apply IH.
      - intros u Hu. apply Ht. by right.
      - simpl in Hl. by injection Hl. }
    rewrite Hd. apply reorder_starters.
    intros u Hu. apply combiningClass_low. destruct (Ht u Hu). lia.
  - intros s u Hu Hlt. apply settledb_spec.
    apply reorder_units, list_elem_of_In, in_flat_map in Hu
      as (x & Hx & Hu).
    apply in_map_iff in Hx as (y & <- & _).
    apply list_elem_of_In in Hu.
    destruct (N.lt_ge_cases y 0x100) as [Hy|Hy].
    + assert (H : below 256 (fun y =>
                forallb (fun u => implb (u <? 0x180) (settledb u))
                  (decompose (lowerUnit y))) = true)
        by (vm_compute; reflexivity).
      apply below_spec with (c := y) in H; [|done].
      rewrite forallb_forall in H.
      specialize (H u (proj1 (list_elem_of_In _ _) Hu)).
      by rewrite (proj2 (N.ltb_lt _ _) Hlt) in H.
    + rewrite lowerUnit_high in Hu by lia.
      assert (Hu' : decompose y = [y] \/ 0x300 <= y) by
        (destruct (N.lt_ge_cases y 0x300);
         [left; by apply decompose_high|by right]).
      destruct Hu' as [Hd|Hd].
      * rewrite Hd in Hu. apply list_elem_of_singleton in Hu as ->.
        unfold settledb. rewrite lowerUnit_high by lia.
        rewrite N.eqb_refl. simpl.
        rewrite decompose_high by lia. simpl.
        rewrite combiningClass_low by lia. simpl.
        by rewrite N.eqb_refl.
      * exfalso. unfold decompose in Hu.
        replace (y <=? 0xFF) with false in Hu
          by (symmetry; apply N.leb_gt; lia).
        rewrite andb_false_r in Hu.
        repeat match type of Hu with
        | context [if y =? ?k then _ else _] =>
          destruct (y =? k);
          [repeat (apply elem_of_cons in Hu as [->|Hu]; [lia|]);
           by apply elem_of_nil in Hu|]
        end.
        apply list_elem_of_singleton in Hu. lia.
  - intros u Hu Hcase. apply settledb_spec.
    assert (H : below 128 (fun u =>
                implb ((u <? 65) || (90 <? u)) (settledb u)) = true)
      by (vm_compute; reflexivity).
    apply below_spec with (c := u) in H; [|done].
    assert (((u <? 65) || (90 <? u)) = true) as Hb.
    { apply orb_true_iff. rewrite !N.ltb_lt. lia. }
    by rewrite Hb in H.
  - induction s as [|c r IH]; [done|]. simpl.
    by rewrite lowerUnit_space, IH.
  - induction s as [|c r IH]; [done|]. simpl.
    intros [Hc Hr]%andb_true_iff.
    by rewrite lowerUnit_space, Hc, IH.
  - intros s Hs. apply blank_units. intros u Hu%reorder_units.
    apply list_elem_of_In, in_flat_map in Hu as (x & Hx & Hu).
    rewrite blank_units in Hs.
    pose proof (Hs x (proj2 (list_elem_of_In _ _) Hx)) as Hsx.
    rewrite decompose_space in Hu by done.
    destruct Hu as [<-|[]]. done.
  - intros c Hc. unfold letterOrNumber in Hc. unfold isSpace.
    repeat (apply orb_false_iff; split);
      try apply andb_false_iff; rewrite ?N.leb_gt, ?N.eqb_neq;
      bools; lia.
  - intros a b Hab. rewrite (upperUnit_word a), (upperUnit_word b).
    by rewrite Hab.
Qed.

End ReferenceFacts.

(** ** The keyword expander *)

Module ExpanderFacts.
Import JS Facts ScanFacts NormalizerFacts ReferenceFacts.

Lemma has_spec x set : WordSet.has x set = true <-> x ∈ set.
Proof.
  unfold WordSet.has. rewrite existsb_exists. split.
  - intros (y & Hy & ->%strEq_eq). by apply list_elem_of_In.
  - intros H. exists x. split; [by apply list_elem_of_In|by apply strEq_eq].
Qed.

Lemma add_spec set x y : y ∈ WordSet.add set x <-> y ∈ set \/ y = x.
Proof.
  unfold WordSet.add. destruct (WordSet.has x set) eqn:H.
  - apply has_spec in H. split; [by left|]. by intros [?| ->].
  - rewrite elem_of_app, list_elem_of_singleton. done.
Qed.

Lemma add_all_spec vs set y :
  y ∈ fold_left WordSet.add vs set <-> y ∈ set \/ y ∈ vs.
Proof.
  revert set. induction vs as [|v vs IH]; intros set; simpl.
  - split; [by left|]. intros [?|H]; [done|]. by apply elem_of_nil in H.
  - rewrite IH, add_spec, elem_of_cons. tauto.
Qed.

(** An element of the word set is a variation of the normalized form of some
    keyword, whatever the two functions are. *)
Lemma wordSet_spec (normalize : list N -> list N)
  (variations : list N -> list (list N)) words set y :
  y ∈ fold_left (fun wordSet word =>
        match normalize word with
        | [] => wordSet
        | _ => fold_left WordSet.add (variations (normalize word)) wordSet
        end) words set
  <-> y ∈ set \/
      exists word, word ∈ words /\ normalize word <> [] /\
                   y ∈ variations (normalize word).
Proof.
  revert set. induction words as [|w words IH]; intros set; simpl.
  - split; [by left|]. intros [?|(w & Hw & _)]; [done|].
    by apply elem_of_nil in Hw.
  - rewrite IH. destruct (normalize w) as [|c n] eqn:Hn.
    + split.
      * intros [?|(x & Hx & H)]; [by left|]. right. exists x.
        split; [by right|done].
      * intros [?|(x & [->|Hx]%elem_of_cons & H1 & H2)]; [by left| |].
        -- by rewrite Hn in H1.
        -- right. by exists x.
    + rewrite add_all_spec. split.
      * intros [[?|H]|(x & Hx & H)]; [by left| |].
        -- right. exists w. rewrite Hn. split; [left|done].
        -- right. exists x. split; [by right|done].
      * intros [?|(x & [->|Hx]%elem_of_cons & H1 & H2)].
        -- left. by left.
        -- left. right. by rewrite Hn in H2.
        -- right. by exists x.
Qed.

Section WithRuntime.
Context (rt : Runtime).

Lemma wordSet1_spec words y :
  y ∈ DomUtils.generateNormalizedWordSet rt words <->
  exists word, word ∈ words /\ DomUtils.normalizeText rt word <> [] /\
    y ∈ DomUtils.generateWordVariations (DomUtils.normalizeText rt word).
Proof.
  unfold DomUtils.generateNormalizedWordSet. rewrite wordSet_spec.
  split; [|by right]. intros [H|H]; [|done]. by apply elem_of_nil in H.
Qed.

Lemma wordSet2_spec words y :
  y ∈ DomUtils2.generateNormalizedWordSet rt words <->
  exists word, word ∈ words /\ DomUtils2.normalizeText rt word <> [] /\
    y ∈ DomUtils2.generateWordVariations (DomUtils2.normalizeText rt word).
Proof.
  unfold DomUtils2.generateNormalizedWordSet. rewrite wordSet_spec.
  split; [|by right]. intros [H|H]; [|done]. by apply elem_of_nil in H.
Qed.

End WithRuntime.

(** The variations of a word, first script. *)
Lemma variations1 word :
  (1 < length word)%nat ->
  word ∈ DomUtils.generateWordVariations word /\
  (endsWith 115 word = false ->
     word ++ [115] ∈ DomUtils.generateWordVariations word) /\
  (endsWith 115 word = true ->
     dropLast word ∈ DomUtils.generateWordVariations word).
Proof.
  intros Hlen. unfold DomUtils.generateWordVariations.
  destruct word as [|c w]; [simpl in Hlen; lia|].
  apply Nat.ltb_lt in Hlen. rewrite Hlen.
  destruct (endsWith 115 (c :: w)); simpl; repeat split; intros; try done;
    set_solver.
Qed.

(** The variations of a word, second script. *)
Lemma variations2 word :
  (1 < length word)%nat ->
  word ∈ DomUtils2.generateWordVariations word /\
  (endsWith 115 word = false -> (2 < length word)%nat ->
     word ++ [115] ∈ DomUtils2.generateWordVariations word) /\
  (endsWith 115 word = true -> (3 < length word)%nat ->
     dropLast word ∈ DomUtils2.generateWordVariations word).
Proof.
  intros Hlen. unfold DomUtils2.generateWordVariations.
  assert ((length word <? 2)%nat = false) as -> by (apply Nat.ltb_ge; lia).
  destruct (2 <? length word)%nat eqn:H2.
  - destruct (endsWith 115 word); simpl.
    + split; [destruct (3 <? length word)%nat; set_solver|].
      split; [done|]. intros _ H3%Nat.ltb_lt. rewrite H3. set_solver.
    + split; [set_solver|]. split; [|done]. intros _ _. set_solver.
  - apply Nat.ltb_ge in H2. split; [set_solver|]. split; intros; lia.
Qed.

End ExpanderFacts.

(** ** The matchers *)

Module MatcherFacts.
Import JS Facts ScanFacts ReferenceFacts.

(** *** Token matcher of the second script *)

Lemma splitSpaces_tokens piece inRun s token :
  token ∈ DomUtils2.splitSpaces piece inRun s ->
  existsb isSpace piece = false -> existsb isSpace token = false.
Proof.
  revert piece inRun. induction s as [|c r IH]; intros piece inRun; simpl.
  - by intros ->%list_elem_of_singleton.
  - destruct (isSpace c) eqn:Hc.
    + destruct inRun.
      * intros H _. by apply (IH [] true).
      * intros [->|H]%elem_of_cons Hp; [done|]. by apply (IH [] true).
    + intros H Hp. apply (IH _ _ H).
      rewrite existsb_app, Hp. simpl. by rewrite Hc.
Qed.

Lemma cleanWord_no_space t :
  existsb isSpace t = false -> existsb isSpace (DomUtils2.cleanWord t) = false.
Proof.
  induction t as [|c r IH]; [done|]. simpl.
  intros [Hc Hr]%orb_false_iff.
  destruct (isWordChar c || (192 <=? c) && (c <=? 383)); simpl;
    [rewrite Hc|]; by apply IH.
Qed.

Section WithRuntime.
Context (rt : Runtime) (laws : RuntimeLaws rt).

Lemma matchesAny2_spec text wordSet :
  DomUtils2.matchesAny rt text wordSet = true <->
  text <> [] /\ exists word, word ∈ wordSet /\ word <> [] /\
    tokenMatch rt text word = true.
Proof.
  unfold DomUtils2.matchesAny.
  destruct text as [|c text].
  { split; [done|]. by intros [? _]. }
  destruct wordSet as [|w ws].
  { split; [done|]. intros [_ (x & Hx & _)]. by apply elem_of_nil in Hx. }
  rewrite existsb_exists. split.
  - intros (x & Hx%list_elem_of_In & H). split; [done|]. exists x.
    destruct x; [done|]. done.
  - intros [_ (x & Hx%list_elem_of_In & Hne & H)]. exists x.
    split; [done|]. by destruct x.
Qed.

Lemma tokenMatch_spaced text word :
  existsb isSpace word = true -> tokenMatch rt text word = false.
Proof using laws.
  intros Hw. unfold tokenMatch.
  match goal with |- ?b = false => destruct b eqn:H; [exfalso|done] end.
  apply existsb_exists in H as (token & Ht%list_elem_of_In & Heq%strEq_eq).
  apply splitSpaces_tokens in Ht; [|done].
  apply cleanWord_no_space in Ht.
  rewrite <- (lower_space _ laws) in Ht, Hw. congruence.
Qed.

End WithRuntime.
End MatcherFacts.

Module RegexFacts.
Import JS Facts ScanFacts ReferenceFacts WordRegex.

Lemma patternUnits_escape word : patternUnits (escapeRegExp word) = word.
Proof.
  induction word as [|c w IH]; [done|].
  unfold escapeRegExp in *. simpl.
  destruct (isRegexSpecial c) eqn:Hs; simpl.
  - by rewrite IH.
  - destruct (c =? 92) eqn:Hc.
    + apply N.eqb_eq in Hc. subst c. done.
    + by rewrite IH.
Qed.

Lemma edge_cons prev c l : edge prev (c :: l) = edge (Some c) l.
Proof.
  unfold edge. destruct l as [|d l]; [done|].
  change (last (c :: d :: l)) with (last (d :: l)).
  by destruct (last (d :: l)) eqn:H; [|apply last_None in H].
Qed.

Section WithRuntime.
Context (rt : Runtime).

Lemma matchUnits_spec p s prev lastUnit rest :
  matchUnits rt p s prev = Some (lastUnit, rest) <->
  exists m, s = m ++ rest /\ Forall2 (caseEq rt) p m /\ lastUnit = edge prev m.
Proof.
  revert s prev. induction p as [|a p IH]; intros s prev; simpl.
  - split.
    + intros [= <- <-]. exists []. by repeat split.
    + intros (m & -> & ->%Forall2_nil_inv_l & ->). done.
  - destruct s as [|b s].
    + split; [done|]. intros (m & Hs & Hm & _).
      apply Forall2_cons_inv_l in Hm as (y & m' & _ & _ & ->). done.
    + destruct (canonicalize rt a =? canonicalize rt b) eqn:Hab.
      * rewrite IH. apply N.eqb_eq in Hab. split.
        -- intros (m & -> & Hm & ->). exists (b :: m).
           split; [done|]. split; [by constructor|].
           by rewrite edge_cons.
        -- intros (m & Hs & Hm & ->).
           apply Forall2_cons_inv_l in Hm as (y & m' & _ & Hm' & ->).
           injection Hs as <- ->. exists m'.
           by rewrite edge_cons.
      * split; [done|]. intros (m & Hs & Hm & _).
        apply Forall2_cons_inv_l in Hm as (y & m' & Hy & _ & ->).
        injection Hs as <- _. apply N.eqb_neq in Hab. done.
Qed.

Lemma boundedAt_spec pattern prev s :
  boundedAt rt pattern prev s = true <->
  exists m r, s = m ++ r /\ Forall2 (caseEq rt) (patternUnits pattern) m /\
    wordBoundary prev (head (m ++ r)) = true /\
    wordBoundary (edge prev m) (head r) = true.
Proof.
  unfold boundedAt. rewrite andb_true_iff. split.
  - intros [Hb H].
    destruct (matchUnits rt (patternUnits pattern) s prev) as [[u rest]|] eqn:Hm;
      [|done].
    apply matchUnits_spec in Hm as (m & -> & Hm & ->). by exists m, rest.
  - intros (m & r & -> & Hm & H1 & H2). split; [done|].
    assert (matchUnits rt (patternUnits pattern) (m ++ r) prev
            = Some (edge prev m, r)) as ->; [|done].
    apply matchUnits_spec. by exists m.
Qed.

Lemma testFrom_spec pattern prev s :
  testFrom rt pattern prev s = true <-> occurs rt (patternUnits pattern) prev s.
Proof.
  revert prev. induction s as [|c s IH]; intros prev.
  - simpl. rewrite orb_false_r, boundedAt_spec. split.
    + intros (m & r & Hs & H). exists [], m, r. done.
    + intros (l & m & r & Hs & H).
      destruct l; [|done]. by exists m, r.
  - cbn [testFrom]. rewrite orb_true_iff, boundedAt_spec, IH. split.
    + intros [(m & r & Hs & H)|(l & m & r & -> & H)].
      * by exists [], m, r.
      * exists (c :: l), m, r. by rewrite edge_cons.
    + intros (l & m & r & Hs & H). destruct l as [|d l].
      * left. by exists m, r.
      * right. injection Hs as <- ->. exists l, m, r.
        by rewrite edge_cons in H.
Qed.

Lemma Forall2_head_last {A B} (R : A -> B -> Prop) (p : list A) (m : list B) a a' :
  Forall2 R p m -> head p = Some a -> last p = Some a' ->
  exists b b', head m = Some b /\ last m = Some b' /\ R a b /\ R a' b'.
Proof.
  intros H. revert a a'. induction H as [|x y p m Hxy H IH]; intros a a'; [done|].
  intros Ha Hl. simpl in Ha. assert (x = a) as -> by congruence. clear Ha.
  destruct H as [|x' y' p' m' Hxy' H'].
  - simpl in Hl. assert (a = a') as -> by congruence. by exists y, y.
  - change (last (a :: x' :: p')) with (last (x' :: p')) in Hl.
    destruct (IH x' a' eq_refl Hl) as (b & b' & _ & Hb' & _ & HR).
    exists y, b'. by repeat split.
Qed.

Context (laws : RuntimeLaws rt).

(** A keyword that begins and ends with a character of [\w] only matches an
    occurrence that no character of [\w] touches. *)
Lemma regex_whole_word text word :
  isWordAt (head word) = true -> isWordAt (last word) = true ->
  DomUtils.matchesAny rt text [word] = true ->
  exists l m r, toLowerCase rt text = l ++ m ++ r /\ Forall2 (caseEq rt) word m /\
    isWordAt (last l) = false /\ isWordAt (head r) = false.
Proof using laws.
  intros Hh Hl. unfold DomUtils.matchesAny.
  destruct text as [|c text]; [done|]. simpl.
  destruct word as [|a w]; [done|]. rewrite orb_false_r. unfold test.
  rewrite testFrom_spec, patternUnits_escape.
  intros (l & m & r & Hs & Hm & H1 & H2).
  exists l, m, r. split; [done|]. split; [done|].
  destruct (last (a :: w)) as [a'|] eqn:Ha'; [|done].
  destruct (Forall2_head_last _ _ _ a a' Hm eq_refl Ha')
    as (b & b' & Hb & Hb' & Hab & Hab').
  simpl in Hh, Hl.
  rewrite (canonical_word _ laws _ _ Hab) in Hh.
  rewrite (canonical_word _ laws _ _ Hab') in Hl.
  destruct m as [|b0 m]; [done|]. injection Hb as ->.
  unfold wordBoundary in H1, H2. cbn [app head isWordAt] in H1.
  rewrite Hh in H1.
  unfold edge in H2 at 1. rewrite Hb' in H2. cbn [isWordAt] in H2.
  rewrite Hl in H2. unfold edge in H1. split.
  - destruct (last l) as [x|]; [|done]. simpl in *. by destruct (isWordChar x).
  - by destruct (isWordAt (head r)).
Qed.

End WithRuntime.
End RegexFacts.

Module TokenFacts.
Import JS Facts ScanFacts ReferenceFacts MatcherFacts.

Lemma last_snoc_space (l : list N) c :
  isSpace c = true -> blankAt (last (l ++ [c])) = true.
Proof. intros Hc. by rewrite last_snoc. Qed.

(** Every piece of [split(/\s+/)] lies between white space or edges. *)
Lemma splitSpaces_bounded before piece inRun s token :
  blankAt (last before) = true ->
  (inRun = true -> piece = []) ->
  token ∈ DomUtils2.splitSpaces piece inRun s ->
  exists l r, before ++ piece ++ s = l ++ token ++ r /\
    blankAt (last l) = true /\ blankAt (head r) = true.
Proof.
  revert before piece inRun.
  induction s as [|c s IH]; intros before piece inRun Hb Hrun; simpl.
  - intros ->%list_elem_of_singleton. by exists before, [].
  - destruct (isSpace c) eqn:Hc.
    + assert (Hnext : token ∈ DomUtils2.splitSpaces [] true s ->
                exists l r, before ++ piece ++ c :: s = l ++ token ++ r /\
                  blankAt (last l) = true /\ blankAt (head r) = true).
      { intros H.
        destruct (IH (before ++ piece ++ [c]) [] true) as (l & r & Heq & H');
          [|done|done|].
        - rewrite app_assoc. by apply last_snoc_space.
        - exists l, r. split; [|done]. rewrite <- Heq.
          by rewrite <- !app_assoc. }
      destruct inRun; [done|].
      intros [->|H]%elem_of_cons; [|by apply Hnext].
      exists before, (c :: s). simpl. by rewrite Hc.
    + intros H.
      destruct (IH before (piece ++ [c]) false) as (l & r & Heq & H');
        [done|done|done|].
      exists l, r. split; [|done]. rewrite <- Heq. by rewrite <- !app_assoc.
Qed.

Lemma splitSpaces_units piece inRun s token u :
  token ∈ DomUtils2.splitSpaces piece inRun s -> u ∈ token ->
  u ∈ piece \/ u ∈ s.
Proof.
  revert piece inRun. induction s as [|c s IH]; intros piece inRun; simpl.
  - intros ->%list_elem_of_singleton. by left.
  - destruct (isSpace c).
    + assert (Hnext : token ∈ DomUtils2.splitSpaces [] true s -> u ∈ token ->
                u ∈ piece \/ u ∈ c :: s).
      { intros H Hu. destruct (IH _ _ H Hu) as [H'|H'].
        - by apply elem_of_nil in H'.
        - right. by right. }
      destruct inRun; [done|].
      intros [->|H]%elem_of_cons; [by left|by apply Hnext].
    + intros H Hu. destruct (IH _ _ H Hu) as [[H'|H']%elem_of_app|H'].
      * by left.
      * apply list_elem_of_singleton in H' as ->. right. left.
      * right. by right.
Qed.

Lemma cleanWord_id t :
  (forall u, u ∈ t ->
     isWordChar u || ((0xC0 <=? u) && (u <=? 0x17F)) = true) ->
  DomUtils2.cleanWord t = t.
Proof.
  induction t as [|c t IH]; [done|]. intros H. simpl.
  rewrite (H c) by left. f_equal. apply IH. intros u Hu. apply H. by right.
Qed.

Section WithRuntime.
Context (rt : Runtime).

(** On a text made of white space and of the characters the second
    normalizer keeps, a match is a whole piece of the text. *)
Lemma tokens_whole_word text word :
  (forall u, u ∈ toLowerCase rt text -> isSpace u = false ->
     isWordChar u || ((0xC0 <=? u) && (u <=? 0x17F)) = true) ->
  DomUtils2.matchesAny rt text [word] = true ->
  exists l token r, toLowerCase rt text = l ++ token ++ r /\
    toLowerCase rt token = toLowerCase rt word /\
    blankAt (last l) = true /\ blankAt (head r) = true.
Proof.
  intros Hcanon [_ (w & ->%list_elem_of_singleton & _ & H)]%matchesAny2_spec.
  unfold tokenMatch in H.
  apply existsb_exists in H as (token & Ht%list_elem_of_In & Heq%strEq_eq).
  destruct (splitSpaces_bounded [] [] false (toLowerCase rt text) token
              eq_refl) as
    (l & r & Hs & Hl & Hr); [done|done|].
  simpl in Hs. exists l, token, r. split; [done|]. split; [|done].
  rewrite cleanWord_id in Heq; [done|].
  intros u Hu. apply Hcanon.
  - destruct (splitSpaces_units _ _ _ _ _ Ht Hu) as [H'|H']; [|done].
    by apply elem_of_nil in H'.
  - pose proof (splitSpaces_tokens _ _ _ _ Ht eq_refl) as Hns.
    destruct (isSpace u) eqn:Hsp; [|done].
    assert (existsb isSpace token = true); [|congruence].
    apply existsb_exists. exists u. split; [by apply list_elem_of_In|done].
Qed.

End WithRuntime.
End TokenFacts.

(** ** The content script *)

Module ContentFacts.
Import JS Facts Content.

Lemma occurrences_app post l1 l2 :
  occurrences post (l1 ++ l2) = (occurrences post l1 + occurrences post l2)%nat.
Proof. unfold occurrences. by rewrite List.filter_app, length_app. Qed.

Lemma occurrences_none post l : post ∉ l -> occurrences post l = O.
Proof.
  induction l as [|q l IH]; [done|]. intros H. unfold occurrences in *. simpl.
  destruct (q =? post)%nat eqn:Hq.
  - apply Nat.eqb_eq in Hq. subst. exfalso. apply H. left.
  - apply IH. intros Hin. apply H. by right.
Qed.

Lemma visibilityEffects_app post l1 l2 :
  visibilityEffects post (l1 ++ l2) =
  (visibilityEffects post l1 + visibilityEffects post l2)%nat.
Proof. unfold visibilityEffects. by rewrite List.filter_app, length_app. Qed.

Lemma hideEffects_app post l1 l2 :
  hideEffects post (l1 ++ l2) =
  (hideEffects post l1 + hideEffects post l2)%nat.
Proof. unfold hideEffects. by rewrite List.filter_app, length_app. Qed.

Lemma hide_le_visibility post l :
  (hideEffects post l <= visibilityEffects post l)%nat.
Proof.
  induction l as [|x l IH]; [done|].
  unfold hideEffects, visibilityEffects in *. simpl.
  destruct x; simpl; try lia; destruct (post0 =? post)%nat; simpl; lia.
Qed.

Section WithVariant.
Context (V : Variant).

(** *** Entering and resuming [processPost] *)

Lemma enter_cases post e :
  (processPostEnter post e = e /\
   (document e !! post = None \/ isProcessed e post = true)) \/
  (exists p, document e !! post = Some p /\ processed p = false /\
     exists p', processed p' = true /\ hidden p' = hidden p /\
       blocks p' = blocks p /\
       processPostEnter post e =
       withSuspended (suspended e ++ [post])
         (withDocument (<[post := p']> (document e)) e)).
Proof.
  unfold processPostEnter, isProcessed.
  destruct (document e !! post) as [p|] eqn:Hp; [|left; auto].
  destruct (processed p) eqn:Hpr; [left; auto|].
  right. exists p. split; [done|]. split; [done|].
  eexists. split; [|split; [|split; [|reflexivity]]].
  - simpl. by destruct (expanded p), (seeMore p).
  - simpl. by destruct (expanded p), (seeMore p).
  - simpl. by destruct (expanded p), (seeMore p).
Qed.

Lemma enter_processed post e :
  isProcessed e post = true -> processPostEnter post e = e.
Proof.
  unfold processPostEnter, isProcessed.
  destruct (document e !! post) as [p|]; [|done]. by intros ->.
Qed.

Lemma enter_marks post e p :
  document e !! post = Some p -> processed p = false ->
  isProcessed (processPostEnter post e) post = true /\
  post ∈ suspended (processPostEnter post e) /\
  effects (processPostEnter post e) = effects e /\
  sessionHiddenCount (processPostEnter post e) = sessionHiddenCount e.
Proof.
  intros Hp Hpr.
  destruct (enter_cases post e) as [[_ [H|H]]|(p0 & Hp0 & _ & p' & Hp' & _ & _ & ->)].
  - congruence.
  - unfold isProcessed in H. rewrite Hp in H. congruence.
  - unfold isProcessed. simpl. rewrite lookup_insert_eq.
    split; [done|]. split; [|done]. apply elem_of_app. right. left.
Qed.

Lemma enter_twice post e :
  processPostEnter post (processPostEnter post e) = processPostEnter post e.
Proof.
  destruct (enter_cases post e) as [[Heq _]|(p & Hp & Hpr & _)].
  - by rewrite !Heq.
  - apply enter_processed. by apply (enter_marks post e p).
Qed.

Lemma enter_quiet post e :
  effects (processPostEnter post e) = effects e /\
  sessionHiddenCount (processPostEnter post e) = sessionHiddenCount e /\
  currentConfig (processPostEnter post e) = currentConfig e /\
  normalizedWordSet (processPostEnter post e) = normalizedWordSet e /\
  timers (processPostEnter post e) = timers e /\
  sweeps (processPostEnter post e) = sweeps e.
Proof.
  destruct (enter_cases post e) as [[Heq _]|(p & _ & _ & p' & _ & _ & _ & Heq)];
    by rewrite Heq.
Qed.

Lemma isProcessed_insert e e' post p q :
  document e' = <[post := p]> (document e) ->
  isProcessed e' q =
  if decide (post = q) then processed p else isProcessed e q.
Proof.
  unfold isProcessed. intros ->. rewrite lookup_insert. by case_decide.
Qed.

Lemma atMostOnce_enter k post q e :
  atMostOnce k post e -> atMostOnce k post (processPostEnter q e).
Proof.
  unfold atMostOnce. intros H.
  destruct (enter_cases q e) as [[Heq _]|(p & Hp & Hpr & p' & Hp' & _ & _ & Heq)];
    rewrite Heq; [done|].
  rewrite (isProcessed_insert e _ q p') by done.
  simpl. rewrite occurrences_app.
  case_decide as Hq.
  - subst q. rewrite Hp'.
    assert (isProcessed e post = false) as Hn
      by (unfold isProcessed; by rewrite Hp).
    rewrite Hn in H. unfold occurrences at 2. simpl.
    rewrite Nat.eqb_refl. simpl. lia.
  - unfold occurrences at 2. simpl.
    assert ((q =? post)%nat = false) as -> by (by apply Nat.eqb_neq).
    simpl. lia.
Qed.

Lemma resume_cases post e :
  (processPostResume V post e = e) \/
  (exists p, document e !! post = Some p /\
     ((shouldHidePost (currentConfig e) (normalizedWordSet e)
         (matchesAny V (normalizeText V (extractPostText p))
            (normalizedWordSet e)) = true /\
       processPostResume V post e =
       emit (NotifyCount (sessionHiddenCount e + 1))
         (withCount (sessionHiddenCount e + 1)
            (emit (HidePost post)
               (withDocument (<[post := setHidden true p]> (document e)) e))))
      \/
      (shouldHidePost (currentConfig e) (normalizedWordSet e)
         (matchesAny V (normalizeText V (extractPostText p))
            (normalizedWordSet e)) = false /\
       exists extra, (extra = [] \/ extra = [HighlightPost post]) /\
       processPostResume V post e =
       {| sessionHiddenCount := sessionHiddenCount e;
          currentConfig := currentConfig e;
          normalizedWordSet := normalizedWordSet e;
          document := <[post := setHidden false p]> (document e);
          suspended := suspended e; sweeps := sweeps e; timers := timers e;
          effects := (effects e ++ [ShowPost post]) ++ extra;
          highlightRemovals := highlightRemovals e |}))).
Proof.
  unfold processPostResume.
  destruct (document e !! post) as [p|] eqn:Hp; [|by left].
  destruct (normalizeText V (extractPostText p)) as [|c t] eqn:Hn; [by left|].
  right. exists p. split; [done|]. rewrite Hn.
  destruct (shouldHidePost _ _ _) eqn:Hs; [left; done|].
  right. split; [done|].
  cbn [emit withDocument currentConfig].
  destruct (mode (currentConfig e)) as [| | | |m| |];
    try (exists []; split; [by left|]; by rewrite app_nil_r).
  destruct (highlights V && strEq m (js "whitelist") && _).
  - exists [HighlightPost post]. split; [by right|]. done.
  - exists []. split; [by left|]. by rewrite app_nil_r.
Qed.

Lemma atMostOnce_resume k post q e before after :
  suspended e = before ++ q :: after ->
  atMostOnce k post e ->
  atMostOnce k post
    (processPostResume V q (withSuspended (before ++ after) e)).
Proof.
  unfold atMostOnce. intros Hs H. rewrite Hs in H.
  rewrite !occurrences_app in H.
  change (q :: after) with ([q] ++ after) in H.
  rewrite occurrences_app in H.
  set (e0 := withSuspended (before ++ after) e).
  assert (Hq : (occurrences post [q] = if (q =? post)%nat then 1 else 0)%nat).
  { unfold occurrences. simpl. by destruct (q =? post)%nat. }
  rewrite Hq in H.
  destruct (resume_cases q e0) as
    [->|(p & Hp & [[_ ->]|[_ (extra & Hextra & ->)]])].
  - simpl. rewrite occurrences_app. change (isProcessed e0 post) with
      (isProcessed e post). destruct (q =? post)%nat; lia.
  - cbn [emit withCount withDocument suspended effects].
    assert (Hpr : isProcessed
              (emit (NotifyCount (sessionHiddenCount e0 + 1))
                 (withCount (sessionHiddenCount e0 + 1)
                    (emit (HidePost q)
                       (withDocument (<[q:=setHidden true p]> (document e0)) e0))))
              post = isProcessed e post).
    { unfold isProcessed. simpl. rewrite lookup_insert. case_decide; [|done].
      subst q. simpl in Hp. by rewrite Hp. }
    rewrite Hpr. simpl. rewrite occurrences_app, !visibilityEffects_app.
    unfold visibilityEffects at 2 3. simpl.
    destruct (q =? post)%nat; simpl; lia.
  - assert (Hpr : isProcessed
              {| sessionHiddenCount := sessionHiddenCount e0;
                 currentConfig := currentConfig e0;
                 normalizedWordSet := normalizedWordSet e0;
                 document := <[q:=setHidden false p]> (document e0);
                 suspended := suspended e0; sweeps := sweeps e0;
                 timers := timers e0;
                 effects := (effects e0 ++ [ShowPost q]) ++ extra;
                 highlightRemovals := highlightRemovals e0 |}
              post = isProcessed e post).
    { unfold isProcessed. simpl. rewrite lookup_insert. case_decide; [|done].
      subst q. simpl in Hp. by rewrite Hp. }
    rewrite Hpr. simpl. rewrite occurrences_app, !visibilityEffects_app.
    assert (visibilityEffects post extra = O) as ->
      by (by destruct Hextra as [-> | ->]).
    unfold visibilityEffects at 2. simpl.
    destruct (q =? post)%nat; simpl; lia.
Qed.

(** *** Sweeps *)

Lemma enterAll_ind (P : Engine -> Prop) posts e :
  (forall q e, P e -> P (processPostEnter q e)) ->
  P e -> P (foldl (fun e post => processPostEnter post e) e posts).
Proof.
  intros Hstep. revert e. induction posts as [|q posts IH]; intros e He; [done|].
  simpl. apply IH. by apply Hstep.
Qed.

Lemma enterBatch_ind (P : Engine -> Prop) posts e :
  (forall q e, P e -> P (processPostEnter q e)) ->
  (forall l e, P e -> P (withSweeps l e)) ->
  P e -> P (enterBatch V posts e).
Proof.
  intros Hstep Hsw He. unfold enterBatch.
  destruct (batchSize V) as [n|]; [|by apply enterAll_ind].
  destruct (drop n posts); [by apply enterAll_ind|].
  apply Hsw. by apply enterAll_ind.
Qed.

Lemma enterBatch_quiet posts e : sameOutput e (enterBatch V posts e).
Proof.
  apply enterBatch_ind; [| |done].
  - intros q e' H. unfold sameOutput in *.
    destruct (enter_quiet q e') as (E1 & E2 & E3 & E4 & E5 & _).
    by rewrite E1, E2, E3, E4, E5.
  - intros l e' H. exact H.
Qed.

Lemma atMostOnce_batch k post posts e :
  atMostOnce k post e -> atMostOnce k post (enterBatch V posts e).
Proof.
  apply enterBatch_ind.
  - intros q e'. apply atMostOnce_enter.
  - done.
Qed.

Lemma reprocess_quiet e :
  effects (reprocessAllPosts V e) = effects e /\
  sessionHiddenCount (reprocessAllPosts V e) = 0%Z /\
  currentConfig (reprocessAllPosts V e) = currentConfig e /\
  normalizedWordSet (reprocessAllPosts V e) = normalizedWordSet e /\
  timers (reprocessAllPosts V e) = timers e.
Proof.
  unfold reprocessAllPosts, processAllExistingPosts.
  destruct (enterBatch_quiet
    (getAllFeedPosts (withCount 0 (resetProcessingMarkers e)))
    (withCount 0 (resetProcessingMarkers e))) as (E1 & E2 & E3 & E4 & E5).
  by rewrite E1, E2, E3, E4, E5.
Qed.

(** *** One turn *)

Lemma modeChanged_cases m e :
  modeChanged m e = e \/ modeChanged m e = removeAllHighlights e.
Proof.
  unfold modeChanged. destruct m as [v|]; [|by left].
  destruct (isString _ _ && isString _ _); [by right|by left].
Qed.

Lemma storageChanged_cases m p w e :
  (reprocesses (StorageChanged m p w) = true /\
   exists c ws, storageChanged V m p w e =
                reprocessAllPosts V (withConfig c ws (modeChanged m e))) \/
  (reprocesses (StorageChanged m p w) = false /\
   exists c ws, storageChanged V m p w e =
                withConfig c ws (modeChanged m e)).
Proof.
  unfold storageChanged, reprocesses.
  destruct w as [v|].
  - destruct (wordStrings (if truthy v then v else JArray [])) as [ws|].
    + left. split; [done|]. by eexists _, _.
    + right. split; [done|]. by eexists _, _.
  - destruct m as [vm|], p as [vp|];
      try (left; split; [done|]; by eexists _, _).
    right. split; [done|].
    exists (currentConfig e), (normalizedWordSet e). by destruct e.
Qed.

(** A change of a post that keeps its marker keeps the bound. *)
Lemma atMostOnce_update k post q p p' e :
  document e !! q = Some p -> processed p' = processed p ->
  atMostOnce k post e ->
  atMostOnce k post (withDocument (<[q := p']> (document e)) e).
Proof.
  unfold atMostOnce. intros Hq Hp H. simpl.
  rewrite (isProcessed_insert e _ q p') by done.
  case_decide; [|done]. subst q.
  assert (isProcessed e post = processed p) as Hn
    by (unfold isProcessed; by rewrite Hq).
  by rewrite Hp, <- Hn.
Qed.

(** A turn that does not clear the markers keeps the bound. *)
Lemma atMostOnce_step k post e ev e' :
  step V e ev e' -> clearsMarkers ev = false ->
  atMostOnce k post e -> atMostOnce k post e'.
Proof.
  intros Hstep Hev H. destruct Hstep; try done.
  - by apply atMostOnce_enter.
  - by apply atMostOnce_resume.
  - by apply atMostOnce_batch.
  - by apply atMostOnce_batch.
  - unfold atMostOnce in *. simpl.
    rewrite (isProcessed_insert e _ post0 p) by done.
    case_decide; [|done]. subst post0.
    assert (isProcessed e post = false) as Hn
      by (unfold isProcessed; by rewrite H0).
    rewrite H2. by rewrite Hn in H.
  - by apply (atMostOnce_update k post post0 p).
  - by apply (atMostOnce_update k post post0 p).
  - unfold urlChanged. by destruct onFeed.
  - destruct (storageChanged_cases newMode newPaused newWords e)
      as [[Hr _]|[_ (c & ws & ->)]];
      [|by destruct (modeChanged_cases newMode e) as [-> | ->]].
    unfold clearsMarkers in Hev. congruence.
Qed.

Lemma effects_step e ev e' :
  step V e ev e' -> exists new, effects e' = effects e ++ new.
Proof.
  intros Hstep. destruct Hstep.
  - exists []. rewrite app_nil_r. apply enter_quiet.
  - destruct (resume_cases post (withSuspended (before ++ after) e)) as
      [->|(p & Hp & [[_ ->]|[_ (extra & Hextra & ->)]])].
    + exists []. by rewrite app_nil_r.
    + eexists. simpl. by rewrite <- app_assoc.
    + eexists. simpl. by rewrite <- app_assoc.
  - exists []. rewrite app_nil_r. unfold processAllExistingPosts.
    by destruct (enterBatch_quiet (getAllFeedPosts e) e) as [-> _].
  - exists []. rewrite app_nil_r.
    by destruct (enterBatch_quiet posts (withSweeps later e)) as [-> _].
  - exists []. by rewrite app_nil_r.
  - exists []. by rewrite app_nil_r.
  - exists []. by rewrite app_nil_r.
  - exists []. by rewrite app_nil_r.
  - exists []. rewrite app_nil_r. apply reprocess_quiet.
  - exists []. rewrite app_nil_r. unfold urlChanged. by destruct onFeed.
  - exists []. rewrite app_nil_r.
    by destruct (reprocess_quiet (withTimers n e)) as [-> _].
  - exists []. rewrite app_nil_r.
    destruct (storageChanged_cases newMode newPaused newWords e)
      as [[_ (c & ws & ->)]|[_ (c & ws & ->)]];
      [|by destruct (modeChanged_cases newMode e) as [-> | ->]].
    destruct (reprocess_quiet (withConfig c ws (modeChanged newMode e)))
      as [-> _].
    by destruct (modeChanged_cases newMode e) as [-> | ->].
  - exists []. by rewrite app_nil_r.
Qed.

Lemma effects_run e evs e' :
  run V e evs e' -> exists new, effects e' = effects e ++ new.
Proof.
  induction 1 as [e|e ev e1 evs e2 Hstep _ (new2 & IH)].
  - exists []. by rewrite app_nil_r.
  - destruct (effects_step _ _ _ Hstep) as (new1 & H1).
    exists (new1 ++ new2). by rewrite IH, H1, app_assoc.
Qed.

Lemma atMostOnce_run k post e evs e' :
  run V e evs e' -> forallb (fun ev => negb (clearsMarkers ev)) evs = true ->
  atMostOnce k post e -> atMostOnce k post e'.
Proof.
  induction 1 as [e|e ev e1 evs e2 Hstep _ IH]; [done|].
  simpl. intros [Hev Hevs]%andb_true_iff H.
  apply IH; [done|]. eapply atMostOnce_step; [done| |done].
  by apply negb_true_iff.
Qed.

(** *** The counter *)

(** What a turn does to the counter. *)
Lemma count_step e ev e' :
  step V e ev e' ->
  if resetsCounter ev then sessionHiddenCount e' = 0%Z
  else
    (sessionHiddenCount e' = sessionHiddenCount e /\
     exists new, effects e' = effects e ++ new /\
       forall post, HidePost post ∉ new) \/
    (isResume ev = true /\
     sessionHiddenCount e' = (sessionHiddenCount e + 1)%Z /\
     exists post, effects e' =
       effects e ++ [HidePost post; NotifyCount (sessionHiddenCount e + 1)]).
Proof.
  intros Hstep. destruct Hstep; simpl.
  - left. destruct (enter_quiet post e) as (-> & -> & _).
    split; [done|]. exists []. rewrite app_nil_r. split; [done|].
    intros q. apply not_elem_of_nil.
  - destruct (resume_cases post (withSuspended (before ++ after) e)) as
      [->|(p & Hp & [[_ ->]|[_ (extra & Hextra & ->)]])].
    + left. split; [done|]. exists []. rewrite app_nil_r. split; [done|].
      intros q. apply not_elem_of_nil.
    + right. split; [done|]. split; [done|]. exists post. simpl.
      by rewrite <- app_assoc.
    + left. split; [done|]. exists ([ShowPost post] ++ extra). simpl.
      split; [by rewrite <- app_assoc|].
      intros q [Hq|Hq]%elem_of_cons.
      * done.
      * destruct Hextra as [-> | ->]; [by apply elem_of_nil in Hq|].
        by apply list_elem_of_singleton in Hq.
  - left. destruct (enterBatch_quiet (getAllFeedPosts e) e)
      as (E1 & E2 & _). unfold processAllExistingPosts. rewrite E1, E2.
    split; [done|]. exists []. rewrite app_nil_r. split; [done|].
    intros q. apply not_elem_of_nil.
  - left. destruct (enterBatch_quiet posts (withSweeps later e))
      as (-> & -> & _).
    split; [done|]. exists []. rewrite app_nil_r. split; [done|].
    intros q. apply not_elem_of_nil.
  - left. split; [done|]. exists []. rewrite app_nil_r. split; [done|].
    intros q. apply not_elem_of_nil.
  - left. split; [done|]. exists []. rewrite app_nil_r. split; [done|].
    intros q. apply not_elem_of_nil.
  - left. split; [done|]. exists []. rewrite app_nil_r. split; [done|].
    intros q. apply not_elem_of_nil.
  - left. split; [done|]. exists []. rewrite app_nil_r. split; [done|].
    intros q. apply not_elem_of_nil.
  - apply reprocess_quiet.
  - unfold urlChanged. destruct onFeed; [done|].
    left. split; [done|]. exists []. rewrite app_nil_r. split; [done|].
    intros q. apply not_elem_of_nil.
  - apply reprocess_quiet.
  - destruct (storageChanged_cases newMode newPaused newWords e)
      as [[Hr (c & ws & ->)]|[Hr (c & ws & ->)]];
      simpl in Hr; rewrite Hr.
    + apply reprocess_quiet.
    + left.
      destruct (modeChanged_cases newMode e) as [-> | ->];
        (split; [done|]; exists []; rewrite app_nil_r; split; [done|];
         intros q; apply not_elem_of_nil).
  - left. split; [done|]. exists []. rewrite app_nil_r. split; [done|].
    intros q. apply not_elem_of_nil.
Qed.

Lemma count_nonneg_step e ev e' :
  step V e ev e' -> (0 <= sessionHiddenCount e)%Z ->
  (0 <= sessionHiddenCount e')%Z.
Proof.
  intros Hstep H. pose proof (count_step _ _ _ Hstep) as Hc.
  destruct (resetsCounter ev); [lia|].
  destruct Hc as [[-> _]|(_ & -> & _)]; lia.
Qed.

Lemma count_nonneg_run e evs e' :
  run V e evs e' -> (0 <= sessionHiddenCount e)%Z ->
  (0 <= sessionHiddenCount e')%Z.
Proof.
  induction 1 as [e|e ev e1 evs e2 Hstep _ IH]; [done|].
  intros H. apply IH. by eapply count_nonneg_step.
Qed.

(** Without the completion of a pass the counter stays at zero. *)
Lemma count_zero_run e evs e' :
  run V e evs e' -> forallb (fun ev => negb (isResume ev)) evs = true ->
  sessionHiddenCount e = 0%Z -> sessionHiddenCount e' = 0%Z.
Proof.
  induction 1 as [e|e ev e1 evs e2 Hstep _ IH]; [done|].
  simpl. intros [Hev Hevs]%andb_true_iff H0. apply IH; [done|].
  pose proof (count_step _ _ _ Hstep) as Hc.
  destruct (resetsCounter ev); [done|].
  destruct Hc as [[-> _]|(Hr & _)]; [done|].
  rewrite Hr in Hev. done.
Qed.

End WithVariant.
End ContentFacts.

(** ** Shape of the normalized text and of the word set *)

Module TextFacts.
Import JS Facts Props ScanFacts NormalizerFacts ReferenceFacts ExpanderFacts.
Import MatcherFacts TokenFacts.

Lemma trimEnd_last s c : last (trimEnd s) = Some c -> isSpace c = false.
Proof.
  induction s as [|d r IH]; [done|].
  change (trimEnd (d :: r)) with
    (match trimEnd r with
     | [] => if isSpace d then [] else [d]
     | t => d :: t end).
  destruct (trimEnd r) as [|e t] eqn:Hr.
  - destruct (isSpace d) eqn:Hd; [done|]. simpl. by intros [= <-].
  - change (last (d :: e :: t)) with (last (e :: t)). exact IH.
Qed.

Lemma trim_head s c : head (trim s) = Some c -> isSpace c = false.
Proof.
  unfold trim.
  destruct (trimStart_head s) as [->|(d & r & -> & Hd)]; [done|].
  destruct (trimEnd_cons_notSpace d r Hd) as [t ->]. simpl. by intros [= <-].
Qed.

Lemma singleSpaced_adjacent b s l c d r :
  singleSpaced b s = true -> s = l ++ c :: d :: r ->
  isSpace c = true -> isSpace d = false.
Proof.
  intros Hs -> Hc.
  destruct (singleSpaced_suffix b _ (c :: d :: r) Hs) as [b' H].
  { by exists l. }
  simpl in H. rewrite Hc in H.
  destruct (isSpace d); [|done].
  apply andb_true_iff in H as [_ H]. by rewrite andb_false_r in H.
Qed.

Lemma wellSpaced_collapse y :
  wellSpaced (trim (replaceAll spaceMatch [SP] 0 y)).
Proof.
  assert (Hs : singleSpaced false (trim (replaceAll spaceMatch [SP] 0 y))
               = true).
  { eapply singleSpaced_trim. apply collapse_singleSpaced. }
  split; [|split; [|split]].
  - intros u Hu. by eapply singleSpaced_space.
  - intros l c d r. by eapply singleSpaced_adjacent.
  - apply trim_head.
  - apply trimEnd_last.
Qed.

Lemma wellSpaced_nil : wellSpaced [].
Proof.
  split; [|split; [|split]]; try done.
  - intros u Hu. by apply elem_of_nil in Hu.
  - intros l c d r H. by destruct l.
Qed.

(** *** The word set has no duplicates *)

Lemma add_NoDup set x : NoDup set -> NoDup (WordSet.add set x).
Proof.
  intros H. unfold WordSet.add. destruct (WordSet.has x set) eqn:Hx; [done|].
  apply NoDup_app. split; [done|]. split; [|apply NoDup_singleton].
  intros y Hy ->%list_elem_of_singleton.
  apply has_spec in Hy. congruence.
Qed.

Lemma add_all_NoDup vs set :
  NoDup set -> NoDup (fold_left WordSet.add vs set).
Proof.
  revert set. induction vs as [|v vs IH]; intros set H; [done|].
  simpl. apply IH. by apply add_NoDup.
Qed.

Lemma wordSet_NoDup (normalize : list N -> list N)
  (variations : list N -> list (list N)) words set :
  NoDup set ->
  NoDup (fold_left (fun wordSet word =>
           match normalize word with
           | [] => wordSet
           | _ => fold_left WordSet.add (variations (normalize word)) wordSet
           end) words set).
Proof.
  revert set. induction words as [|w words IH]; intros set H; [done|].
  simpl. apply IH. destruct (normalize w); [done|]. by apply add_all_NoDup.
Qed.

Lemma endsWith_dropLast (w : list N) :
  endsWith 115 w = true -> w = dropLast w ++ [115].
Proof.
  unfold endsWith, dropLast. intros H.
  destruct (last w) as [d|] eqn:Hl; [|done]. apply N.eqb_eq in H. subst d.
  apply last_Some in Hl as [l' ->].
  rewrite length_app. simpl.
  replace (length l' + 1 - 1)%nat with (length l') by lia.
  by rewrite take_app_length.
Qed.

Lemma dropLast_snoc (y : list N) c : dropLast (y ++ [c]) = y.
Proof.
  unfold dropLast. rewrite length_app. simpl.
  replace (length y + 1 - 1)%nat with (length y) by lia.
  by rewrite take_app_length.
Qed.

(** A variation is the word, its plural or its singular. *)
Lemma variations1_cases word y :
  word <> [] ->
  y ∈ DomUtils.generateWordVariations word <-> variation1 word y.
Proof.
  intros Hne. unfold DomUtils.generateWordVariations, variation1.
  destruct word as [|c w]; [done|].
  destruct (endsWith 115 (c :: w)) eqn:He; cbn [negb andb app].
  - destruct (1 <? length (c :: w))%nat eqn:Hl; cbn [app].
    + apply Nat.ltb_lt in Hl. split.
      * intros [->|[->|H%elem_of_nil]%elem_of_cons]%elem_of_cons;
          [by left| |done].
        right. right. split; [done|]. split; [done|].
        by apply endsWith_dropLast.
      * intros [->|[[? _]|(_ & _ & Hy)]]; [left|done|].
        right. rewrite Hy at 1. rewrite dropLast_snoc. left.
    + apply Nat.ltb_ge in Hl. split.
      * intros [->|H%elem_of_nil]%elem_of_cons; [by left|done].
      * intros [->|[[? _]|(_ & ? & _)]]; [left|done|lia].
  - split.
    + intros [->|[->|H%elem_of_nil]%elem_of_cons]%elem_of_cons;
        [by left| |done].
      right. by left.
    + intros [->|[[_ ->]|(? & _)]]; [left|right; left|done].
Qed.

Lemma variations2_cases word y :
  word <> [] ->
  y ∈ DomUtils2.generateWordVariations word <-> variation2 word y.
Proof.
  intros Hne. unfold DomUtils2.generateWordVariations, variation2.
  destruct (length word <? 2)%nat eqn:H1.
  { apply Nat.ltb_lt in H1. split.
    - intros [->|H%elem_of_nil]%elem_of_cons; [by left|done].
    - intros [->|[(_ & ? & _)|(_ & ? & _)]]; [left|lia|lia]. }
  destruct (2 <? length word)%nat eqn:H2.
  2: { apply Nat.ltb_ge in H2. split.
       - intros [->|H%elem_of_nil]%elem_of_cons; [by left|done].
       - intros [->|[(_ & ? & _)|(_ & ? & _)]]; [left|lia|lia]. }
  apply Nat.ltb_lt in H2.
  destruct (endsWith 115 word) eqn:He; cbn [negb andb app].
  - destruct (3 <? length word)%nat eqn:H3; cbn [app].
    + apply Nat.ltb_lt in H3. split.
      * intros [->|[->|H%elem_of_nil]%elem_of_cons]%elem_of_cons;
          [by left| |done].
        right. right. split; [done|]. split; [done|].
        by apply endsWith_dropLast.
      * intros [->|[(? & _)|(_ & _ & Hy)]]; [left|done|].
        right. rewrite Hy at 1. rewrite dropLast_snoc. left.
    + apply Nat.ltb_ge in H3. split.
      * intros [->|H%elem_of_nil]%elem_of_cons; [by left|done].
      * intros [->|[(? & _)|(_ & ? & _)]]; [left|done|lia].
  - split.
    + intros [->|[->|H%elem_of_nil]%elem_of_cons]%elem_of_cons;
        [by left| |done].
      right. left. by repeat split.
    + intros [->|[(_ & _ & ->)|(? & _)]]; [left|right; left|done].
Qed.

Lemma variation_nonempty (word y : list N) :
  word <> [] ->
  y = word \/ y = word ++ [115] \/
  ((1 < length word)%nat /\ word = y ++ [115]) ->
  y <> [].
Proof.
  intros Hw [->|[->|[Hl ->]]]; [done| |].
  - by destruct word.
  - intros ->. simpl in Hl. lia.
Qed.

Section WithRuntime.
Context (rt : Runtime).

Lemma matchesAny1_spec text wordSet :
  DomUtils.matchesAny rt text wordSet = true <->
  text <> [] /\ exists word, word ∈ wordSet /\ word <> [] /\
    occurs rt word None (toLowerCase rt text).
Proof.
  unfold DomUtils.matchesAny.
  destruct text as [|c text].
  { split; [done|]. by intros [? _]. }
  destruct wordSet as [|w ws].
  { split; [done|]. intros [_ (x & Hx & _)]. by apply elem_of_nil in Hx. }
  rewrite existsb_exists. split.
  - intros (x & Hx%list_elem_of_In & H). split; [done|]. exists x.
    destruct x as [|a x]; [done|]. split; [done|]. split; [done|].
    unfold WordRegex.test in H.
    apply RegexFacts.testFrom_spec in H.
    by rewrite RegexFacts.patternUnits_escape in H.
  - intros [_ (x & Hx%list_elem_of_In & Hne & H)]. exists x.
    split; [done|]. destruct x as [|a x]; [done|].
    unfold WordRegex.test. apply RegexFacts.testFrom_spec.
    by rewrite RegexFacts.patternUnits_escape.
Qed.

End WithRuntime.

(** *** Pieces of a text *)

Lemma splitSpaces_run piece inRun word r :
  existsb isSpace word = false -> word <> [] ->
  DomUtils2.splitSpaces piece inRun (word ++ r)
  = DomUtils2.splitSpaces (piece ++ word) false r.
Proof.
  revert piece inRun. induction word as [|c w IH]; intros piece inRun; [done|].
  intros [Hc Hw]%orb_false_iff _. simpl. rewrite Hc.
  destruct w as [|d w].
  - done.
  - rewrite IH by done. by rewrite <- app_assoc.
Qed.

(** Every run of other characters between white space or edges is a piece
    of [split(/\s+/)]. *)
Lemma splitSpaces_complete l word r piece inRun :
  existsb isSpace word = false -> word <> [] ->
  blankAt (last l) = true -> blankAt (head r) = true ->
  (l = [] -> piece = []) ->
  word ∈ DomUtils2.splitSpaces piece inRun (l ++ word ++ r).
Proof.
  intros Hw Hne. revert piece inRun.
  induction l as [|c l IH]; intros piece inRun Hl Hr Hp.
  - rewrite (Hp eq_refl). simpl. rewrite splitSpaces_run by done. simpl.
    destruct r as [|d r]; simpl; [left|].
    simpl in Hr. rewrite Hr. left.
  - simpl. destruct (isSpace c) eqn:Hc.
    + assert (word ∈ DomUtils2.splitSpaces [] true (l ++ word ++ r)).
      { apply IH; [|done|done]. destruct l as [|d l]; [done|].
        by rewrite last_cons_cons in Hl. }
      destruct inRun; [done|by right].
    + destruct l as [|d l]; [simpl in Hl; congruence|].
      apply IH; [|done|done]. by rewrite last_cons_cons in Hl.
Qed.

Section Pipeline.
Context (rt : Runtime) (laws : RuntimeLaws rt).

(** The normalized text of the second script is made of settled units. *)
Lemma normalizeText2_settled s u :
  u ∈ DomUtils2.normalizeText rt s -> u < 0x180 /\ settled rt u.
Proof using laws.
  destruct s as [|c s]; [by intros H%elem_of_nil|].
  rewrite normalizeText2_cons. apply (tail2_settled rt laws).
Qed.

Lemma normalizeText2_kept s u :
  u ∈ DomUtils2.normalizeText rt s -> isKept u = true.
Proof.
  destruct s as [|c s]; [by intros H%elem_of_nil|].
  rewrite normalizeText2_cons. apply quiet_punct_kept, tail2_quiet_punct.
Qed.

Lemma normalizeText1_wellSpaced s : wellSpaced (DomUtils.normalizeText rt s).
Proof.
  destruct s as [|c s]; [apply wellSpaced_nil|].
  rewrite normalizeText1_cons. apply wellSpaced_collapse.
Qed.

Lemma normalizeText2_wellSpaced s : wellSpaced (DomUtils2.normalizeText rt s).
Proof.
  destruct s as [|c s]; [apply wellSpaced_nil|].
  rewrite normalizeText2_cons. apply wellSpaced_collapse.
Qed.

Lemma scrubbed_nil : scrubbed rt [].
Proof. repeat split; by apply quiet_nil. Qed.

Lemma normalizeText1_scrubbed s : scrubbed rt (DomUtils.normalizeText rt s).
Proof using laws.
  destruct s as [|c s]; [apply scrubbed_nil|].
  rewrite normalizeText1_cons.
  pose proof markMatch_bounded. pose proof urlMatch_bounded.
  pose proof (mentionMatch_bounded rt laws). pose proof emojiMatch_bounded.
  destruct (cleaned_quiet rt laws (normalizeNFD rt (toLowerCase rt (c :: s))))
    as (Q1 & Q2 & Q3 & Q4).
  unfold tail1.
  repeat split; (apply quiet_trim; [done|]; by apply quiet_step).
Qed.

Lemma normalizeText2_scrubbed s : scrubbed rt (DomUtils2.normalizeText rt s).
Proof using laws.
  destruct s as [|c s]; [apply scrubbed_nil|].
  rewrite normalizeText2_cons.
  pose proof markMatch_bounded. pose proof urlMatch_bounded.
  pose proof (mentionMatch_bounded rt laws). pose proof emojiMatch_bounded.
  destruct (cleaned_quiet rt laws (normalizeNFD rt (toLowerCase rt (c :: s))))
    as (Q1 & Q2 & Q3 & Q4).
  unfold tail2.
  repeat split;
    (apply quiet_trim; [done|]; by do 2 (apply quiet_step; [done|])).
Qed.

Lemma normalizeText2_lower s :
  toLowerCase rt (DomUtils2.normalizeText rt s) = DomUtils2.normalizeText rt s.
Proof using laws.
  apply (settled_string _ laws). apply normalizeText2_settled.
Qed.

Lemma wordSet2_units words y u :
  y ∈ DomUtils2.generateNormalizedWordSet rt words -> u ∈ y ->
  (u < 0x180 /\ settled rt u) /\ isKept u = true.
Proof using laws.
  intros (word & _ & Hn & Hy)%wordSet2_spec Hu.
  assert (H115 : (115 < 0x180 /\ settled rt 115) /\ isKept 115 = true).
  { split; [|done]. split; [done|]. apply (ascii_settled _ laws); [done|].
    by right. }
  apply (proj1 (variations2_cases _ _ Hn)) in Hy
    as [->|[(_ & _ & ->)|(_ & _ & Hy)]].
  - split; [by eapply normalizeText2_settled|by eapply normalizeText2_kept].
  - apply elem_of_app in Hu as [Hu|Hu%list_elem_of_singleton];
      [|by subst u].
    split; [by eapply normalizeText2_settled|by eapply normalizeText2_kept].
  - assert (u ∈ DomUtils2.normalizeText rt word)
      by (rewrite Hy; apply elem_of_app; by left).
    split; [by eapply normalizeText2_settled|by eapply normalizeText2_kept].
Qed.

Lemma kept_token_clean (t : list N) :
  (forall u, u ∈ t -> isKept u = true) -> existsb isSpace t = false ->
  DomUtils2.cleanWord t = t.
Proof.
  intros Hk Hs. apply cleanWord_id. intros u Hu.
  specialize (Hk u Hu). unfold isKept in Hk.
  assert (isSpace u = false) as Hsp.
  { destruct (isSpace u) eqn:E; [|done].
    assert (existsb isSpace t = true); [|congruence].
    apply existsb_exists. exists u. split; [by apply list_elem_of_In|done]. }
  rewrite Hsp, orb_false_r in Hk. exact Hk.
Qed.

(** On the output of the normalizer and with the word set of the expander,
    a match is an occurrence of a keyword as a whole piece of the text. *)
Lemma token_pipeline s words :
  let text := DomUtils2.normalizeText rt s in
  let wordSet := DomUtils2.generateNormalizedWordSet rt words in
  DomUtils2.matchesAny rt text wordSet = true <->
  exists word, word ∈ wordSet /\ existsb isSpace word = false /\
    wholeToken word text.
Proof using laws.
  intros text wordSet. split.
  - intros H.
    pose proof H as [Ht (word & Hw & Hne & Hm)]%matchesAny2_spec.
    exists word. split; [done|].
    assert (Hsp : existsb isSpace word = false).
    { destruct (existsb isSpace word) eqn:E; [|done].
      by rewrite (tokenMatch_spaced rt laws) in Hm. }
    split; [done|].
    assert (H1 : DomUtils2.matchesAny rt text [word] = true).
    { apply matchesAny2_spec. split; [done|]. exists word.
      split; [left|done]. }
    apply tokens_whole_word in H1 as (l & token & r & Heq & Hlow & Hl & Hr).
    2: { intros u Hu Hsu. unfold text in Hu. rewrite normalizeText2_lower in Hu.
         apply normalizeText2_kept in Hu. unfold isKept in Hu.
         by rewrite Hsu, orb_false_r in Hu. }
    unfold text in Heq. rewrite normalizeText2_lower in Heq. fold text in Heq.
    assert (toLowerCase rt token = token) as Ht1.
    { apply (settled_string _ laws). intros u Hu.
      apply (normalizeText2_settled s). fold text. rewrite Heq.
      apply elem_of_app. right. apply elem_of_app. by left. }
    assert (toLowerCase rt word = word) as Hw1.
    { apply (settled_string _ laws). intros u Hu.
      by destruct (wordSet2_units words word u Hw Hu). }
    rewrite Ht1, Hw1 in Hlow. subst token. by exists l, r.
  - intros (word & Hw & Hsp & l & r & Heq & Hl & Hr).
    assert (Hne : word <> []).
    { apply wordSet2_spec in Hw as (w & _ & Hn & Hy).
      apply (proj1 (variations2_cases _ _ Hn)) in Hy.
      eapply variation_nonempty; [exact Hn|].
      destruct Hy as [?|[(_ & _ & ?)|(_ & ? & ?)]]; [by left| |].
      - right. by left.
      - right. right. split; [lia|done]. }
    apply matchesAny2_spec. split.
    { intros E. rewrite E in Heq. destruct l, word; done. }
    exists word. split; [done|]. split; [done|].
    unfold tokenMatch. apply existsb_exists. exists word. split.
    + apply list_elem_of_In. unfold text. rewrite normalizeText2_lower.
      fold text. rewrite Heq. by apply splitSpaces_complete.
    + apply strEq_eq. rewrite kept_token_clean; [done| |done].
      intros u Hu. by destruct (wordSet2_units words word u Hw Hu).
Qed.

End Pipeline.

End TextFacts.

(** ** Convergence of the feed to the policy *)

Module EngineFacts.
Import JS Facts Content EngineProps ContentFacts.

Section WithVariant.
Context (V : Variant).

Lemma enter_shape post e :
  (processPostEnter post e = e /\
   (document e !! post = None \/ isProcessed e post = true)) \/
  (exists p p', document e !! post = Some p /\ processed p = false /\
     processed p' = true /\ hidden p' = hidden p /\ blocks p' = blocks p /\
     attached p' = attached p /\
     processPostEnter post e =
     withSuspended (suspended e ++ [post])
       (withDocument (<[post := p']> (document e)) e)).
Proof.
  unfold processPostEnter, isProcessed.
  destruct (document e !! post) as [p|] eqn:Hp; [|left; auto].
  destruct (processed p) eqn:Hpr; [left; auto|].
  right. exists p. eexists. split; [done|]. split; [done|].
  split; [|split; [|split; [|split; [|reflexivity]]]];
    simpl; by destruct (expanded p), (seeMore p).
Qed.

Lemma verdict_ext e e' p p' :
  currentConfig e' = currentConfig e ->
  normalizedWordSet e' = normalizedWordSet e ->
  blocks p' = blocks p ->
  verdict V e' p' = verdict V e p.
Proof.
  intros Hc Hw Hb. unfold verdict, extractPostText, getTextContentElements.
  by rewrite Hc, Hw, Hb.
Qed.

Lemma text_ext p p' :
  blocks p' = blocks p ->
  normalizeText V (extractPostText p') = normalizeText V (extractPostText p).
Proof.
  intros Hb. unfold extractPostText, getTextContentElements. by rewrite Hb.
Qed.

(** Entering a post of the batch. *)
Lemma awaiting_enter q batch e :
  awaiting V (q :: batch) e -> awaiting V batch (processPostEnter q e).
Proof.
  intros H.
  destruct (enter_shape q e) as
    [[Heq Hq]|(p0 & p' & Hp0 & Hpr & Hpr' & Hh & Hb & Ha & Heq)];
    rewrite Heq.
  - intros post p Hp Hat Ht.
    destruct (H post p Hp Hat Ht) as [?|[?|[Hu Hin]]]; [by left|by right; left|].
    apply elem_of_cons in Hin as [->|Hin]; [|right; right; done].
    destruct Hq as [Hq|Hq]; [congruence|].
    unfold isProcessed in Hq. rewrite Hp in Hq. congruence.
  - intros post p. simpl. destruct (decide (q = post)) as [->|Hne].
    + rewrite lookup_insert_eq. intros [= <-] _ _. right. left. left.
      simpl. apply elem_of_app. right. left.
    + rewrite lookup_insert_ne by done. intros Hp Hat Ht.
      destruct (H post p Hp Hat Ht) as [?|[[?|?]|[Hu Hin]]].
      * by left.
      * right. left. left. simpl. apply elem_of_app. by left.
      * right. left. by right.
      * apply elem_of_cons in Hin as [->|Hin]; [done|]. right. by right.
Qed.

Lemma awaiting_enterAll l batch e :
  awaiting V (l ++ batch) e ->
  awaiting V batch (foldl (fun e post => processPostEnter post e) e l).
Proof.
  revert e. induction l as [|q l IH]; intros e H; [done|].
  simpl. apply IH. by apply awaiting_enter.
Qed.

Lemma enterAll_sweeps l e :
  sweeps (foldl (fun e post => processPostEnter post e) e l) = sweeps e /\
  currentConfig (foldl (fun e post => processPostEnter post e) e l)
    = currentConfig e /\
  normalizedWordSet (foldl (fun e post => processPostEnter post e) e l)
    = normalizedWordSet e.
Proof.
  apply (enterAll_ind (fun e' => sweeps e' = sweeps e /\
           currentConfig e' = currentConfig e /\
           normalizedWordSet e' = normalizedWordSet e)); [|done].
  intros q e' (H1 & H2 & H3).
  destruct (enter_quiet q e') as (_ & _ & E3 & E4 & _ & E6).
  by rewrite E3, E4, E6.
Qed.

(** Entering a batch: what is left of it waits in a sweep. *)
Lemma awaiting_batch posts e :
  awaiting V posts e -> converging V (enterBatch V posts e).
Proof.
  intros H. unfold enterBatch, converging.
  destruct (batchSize V) as [n|].
  2: { apply awaiting_enterAll. by rewrite app_nil_r. }
  assert (H' : awaiting V (drop n posts)
                 (foldl (fun e post => processPostEnter post e) e
                    (take n posts))).
  { apply awaiting_enterAll. by rewrite take_drop. }
  destruct (drop n posts) as [|x later] eqn:Hd; [done|].
  intros post p Hp Hat Ht.
  destruct (H' post p Hp Hat Ht) as [?|[[?|(Hu & b & Hb & Hin)]|[Hu Hin]]].
  - by left.
  - right. left. by left.
  - right. left. right. split; [done|]. exists b. split; [|done].
    simpl. apply elem_of_app. by left.
  - right. left. right. split; [done|]. exists (x :: later).
    split; [|done]. simpl. apply elem_of_app. right. left.
Qed.

Lemma converging_next posts later e :
  sweeps e = posts :: later -> converging V e ->
  converging V (enterBatch V posts (withSweeps later e)).
Proof.
  intros Hs H. apply awaiting_batch.
  intros post p Hp Hat Ht.
  destruct (H post p Hp Hat Ht) as [?|[[?|(Hu & b & Hb & Hin)]|[_ Hin]]].
  - by left.
  - right. left. by left.
  - rewrite Hs in Hb. apply elem_of_cons in Hb as [->|Hb].
    + right. by right.
    + right. left. right. split; [done|]. by exists b.
  - by apply elem_of_nil in Hin.
Qed.

Lemma converging_sweep e :
  converging V e -> converging V (processAllExistingPosts V e).
Proof.
  intros H. apply awaiting_batch. intros post p Hp Hat Ht.
  destruct (H post p Hp Hat Ht) as [?|[?|[_ Hin]]];
    [by left|right; by left|by apply elem_of_nil in Hin].
Qed.

Lemma elem_of_getAllFeedPosts e post p :
  document e !! post = Some p -> attached p = true ->
  post ∈ getAllFeedPosts e.
Proof.
  intros Hp Hat. unfold getAllFeedPosts.
  apply list_elem_of_In, in_map_iff. exists (post, p). split; [done|].
  apply filter_In. split; [|done].
  apply list_elem_of_In. by apply elem_of_map_to_list.
Qed.

(** Right after [reprocessAllPosts] every post of the feed has a pass
    pending. *)
Lemma converging_reprocess e : converging V (reprocessAllPosts V e).
Proof.
  unfold reprocessAllPosts, processAllExistingPosts.
  apply awaiting_batch. intros post p Hp Hat Ht.
  right. right.
  assert (Hu : processed p = false).
  { simpl in Hp. unfold resetProcessingMarkers in Hp. simpl in Hp.
    rewrite lookup_fmap in Hp.
    destruct (document e !! post) as [p0|]; [|done].
    simpl in Hp. injection Hp as <-.
    destruct (attached p0) eqn:Ha; [done|]. congruence. }
  split; [done|]. by eapply elem_of_getAllFeedPosts.
Qed.

(** The completion of a pass. *)
Lemma converging_resume post before after e :
  suspended e = before ++ post :: after -> converging V e ->
  converging V (processPostResume V post (withSuspended (before ++ after) e)).
Proof.
  intros Hs H.
  set (e1 := withSuspended (before ++ after) e).
  assert (Hkeep : forall q p, q <> post -> document e !! q = Some p ->
            attached p = true -> normalizeText V (extractPostText p) <> [] ->
            hidden p = verdict V e p \/ pending e1 q p).
  { intros q p Hne Hp Hat Ht.
    destruct (H q p Hp Hat Ht) as [?|[[Hin|?]|[_ Hin]]].
    - by left.
    - right. left. simpl. rewrite Hs in Hin.
      apply elem_of_app in Hin as [?|[?|?]%elem_of_cons];
        [apply elem_of_app; by left|done|apply elem_of_app; by right].
    - right. by right.
    - by apply elem_of_nil in Hin. }
  unfold processPostResume.
  destruct (document e1 !! post) as [p|] eqn:Hp.
  2: { intros q p Hq Hat Ht. destruct (decide (q = post)) as [->|Hne].
       - unfold e1 in *. simpl in *. congruence.
       - destruct (Hkeep q p Hne Hq Hat Ht) as [?|?]; [by left|right; by left]. }
  destruct (normalizeText V (extractPostText p)) as [|c t] eqn:Hn.
  { intros q p0 Hq Hat Ht. destruct (decide (q = post)) as [->|Hne].
    - unfold e1 in *. simpl in *.
      assert (p0 = p) as -> by congruence. congruence.
    - destruct (Hkeep q p0 Hne Hq Hat Ht) as [?|?]; [by left|right; by left]. }
  assert (Hdone : forall e2 b,
            currentConfig e2 = currentConfig e ->
            normalizedWordSet e2 = normalizedWordSet e ->
            suspended e2 = before ++ after -> sweeps e2 = sweeps e ->
            document e2 = <[post := setHidden b p]> (document e) ->
            b = verdict V e p ->
            converging V e2).
  { intros e2 b Hc Hw Hsu Hsw Hd Hb q p0. rewrite Hd.
    destruct (decide (post = q)) as [->|Hne].
    - rewrite lookup_insert_eq. intros [= <-] _ _. left. simpl.
      rewrite Hb. symmetry. by apply verdict_ext.
    - rewrite lookup_insert_ne by done. intros Hq Hat Ht.
      destruct (Hkeep q p0 (not_eq_sym Hne) Hq Hat Ht) as [Hv|[Hin|Hsweep]].
      + left. rewrite Hv. symmetry. by apply verdict_ext.
      + right. left. left. by rewrite Hsu.
      + right. left. right. by rewrite Hsw. }
  assert (Hv : shouldHidePost (currentConfig e1) (normalizedWordSet e1)
                 (matchesAny V (c :: t) (normalizedWordSet e1))
               = verdict V e p) by (unfold verdict; by rewrite Hn).
  rewrite Hv.
  destruct (verdict V e p) eqn:Hverdict.
  - by apply (Hdone _ true).
  - cbn [emit withDocument currentConfig].
    destruct (mode (currentConfig e1)) as [| | | |m| |];
      try (by apply (Hdone _ false)).
    destruct (highlights V && strEq m (js "whitelist") && _);
      by apply (Hdone _ false).
Qed.

Lemma awaiting_weaken batch e : converging V e -> awaiting V batch e.
Proof.
  intros H post p Hp Hat Ht.
  destruct (H post p Hp Hat Ht) as [?|[?|[_ Hin]]];
    [by left|right; by left|by apply elem_of_nil in Hin].
Qed.

(** A state with the same configuration, the same calls and sweeps, and the
    same posts up to their markers. *)
Lemma converging_ext e e' :
  currentConfig e' = currentConfig e ->
  normalizedWordSet e' = normalizedWordSet e ->
  suspended e' = suspended e -> sweeps e' = sweeps e ->
  (forall post p', document e' !! post = Some p' -> attached p' = true ->
     exists p, document e !! post = Some p /\ attached p = true /\
       blocks p' = blocks p /\ hidden p' = hidden p /\
       (processed p = false -> processed p' = false)) ->
  converging V e -> converging V e'.
Proof.
  intros Hc Hw Hsu Hsw Hdoc H post p' Hp' Hat' Ht'.
  destruct (Hdoc post p' Hp' Hat') as (p & Hp & Hat & Hb & Hh & Hpr).
  rewrite (text_ext _ _ Hb) in Ht'.
  destruct (H post p Hp Hat Ht') as [Hv|[[Hin|(Hu & b & Hb' & Hin)]|[_ Hin]]].
  - left. rewrite Hh, Hv. symmetry. by apply verdict_ext.
  - right. left. left. by rewrite Hsu.
  - right. left. right. split; [by apply Hpr|]. exists b. by rewrite Hsw.
  - by apply elem_of_nil in Hin.
Qed.

(** A turn that is steady keeps the feed converging. *)
Lemma converging_step e ev e' :
  step V e ev e' -> steady e ev = true -> converging V e -> converging V e'.
Proof.
  intros Hstep Hev H. destruct Hstep; try done.
  - apply awaiting_enter. by apply awaiting_weaken.
  - by apply converging_resume.
  - by apply converging_sweep.
  - by apply converging_next.
  - simpl in Hev. apply bool_decide_eq_true in Hev.
    intros q p'. simpl. destruct (decide (post = q)) as [->|Hne].
    + rewrite lookup_insert_eq. intros _ _ _. right. left. by left.
    + rewrite lookup_insert_ne by done. intros Hq Hat Ht.
      destruct (H q p' Hq Hat Ht) as [?|[?|[_ Hin]]];
        [by left|right; by left|by apply elem_of_nil in Hin].
  - apply (converging_ext e); [done|done|done|done| |exact H].
    intros q p'. simpl. destruct (decide (post = q)) as [->|Hne].
    + rewrite lookup_insert_eq. by intros [= <-].
    + rewrite lookup_insert_ne by done. intros Hq Hat. by exists p'.
  - apply (converging_ext e); [done|done|done|done| |exact H].
    intros q p'. unfold restartObserver, resetProcessingMarkers. simpl.
    rewrite lookup_fmap. destruct (document e !! q) as [p0|]; [|done].
    simpl. intros [= <-] Hat. exists p0.
    destruct (attached p0) eqn:Ha; simpl in *; [|congruence].
    by repeat split.
  - apply converging_reprocess.
  - unfold urlChanged. destruct onFeed; [|done].
    apply (converging_ext e); [done|done|done|done| |exact H].
    intros q p' Hq Hat. by exists p'.
  - apply converging_reprocess.
  - destruct (storageChanged_cases V newMode newPaused newWords e)
      as [[_ (c & ws & ->)]|[Hr _]].
    + apply converging_reprocess.
    + unfold steady in Hev. congruence.
Qed.

Lemma converging_run e evs e' :
  steadyRun V e evs e' -> converging V e -> converging V e'.
Proof.
  induction 1 as [e|e ev e1 evs e2 Hstep Hev _ IH]; [done|].
  intros H. apply IH. by eapply converging_step.
Qed.

Lemma steadyRun_run e evs e' : steadyRun V e evs e' -> run V e evs e'.
Proof.
  induction 1 as [e|e ev e1 evs e2 Hstep _ _ IH]; [constructor|].
  by eapply run_cons.
Qed.

(** A turn that runs [reprocessAllPosts] leaves the feed converging. *)
Lemma converging_after e ev e' :
  step V e ev e' -> reprocesses ev = true -> converging V e'.
Proof.
  intros Hstep Hev. destruct Hstep; try done.
  - apply converging_reprocess.
  - apply converging_reprocess.
  - destruct (storageChanged_cases V newMode newPaused newWords e)
      as [[_ (c & ws & ->)]|[Hr _]]; [|congruence].
    apply converging_reprocess.
Qed.

Lemma converging_idle e post p :
  converging V e -> idle e ->
  document e !! post = Some p -> attached p = true ->
  normalizeText V (extractPostText p) <> [] ->
  hidden p = verdict V e p.
Proof.
  intros H [Hsu Hsw] Hp Hat Ht.
  destruct (H post p Hp Hat Ht) as [?|[[Hin|(_ & b & Hb & _)]|[_ Hin]]];
    [done| | |].
  - rewrite Hsu in Hin. by apply elem_of_nil in Hin.
  - rewrite Hsw in Hb. by apply elem_of_nil in Hb.
  - by apply elem_of_nil in Hin.
Qed.

(** *** Completion *)

Lemma run_app e evs e1 evs' e2 :
  steadyRun V e evs e1 -> steadyRun V e1 evs' e2 ->
  steadyRun V e (evs ++ evs') e2.
Proof.
  induction 1 as [e|e ev e1 evs e3 Hstep Hev _ IH]; [done|].
  intros H. simpl. eapply steadyRun_cons; [done|done|]. by apply IH.
Qed.

Lemma resume_keeps post e :
  suspended (processPostResume V post e) = suspended e /\
  sweeps (processPostResume V post e) = sweeps e.
Proof.
  destruct (resume_cases V post e) as
    [->|(p & Hp & [[_ ->]|[_ (extra & Hextra & ->)]])]; done.
Qed.

Lemma drain_suspended e :
  exists evs e', steadyRun V e evs e' /\ forallb completes evs = true /\
    suspended e' = [] /\ sweeps e' = sweeps e.
Proof.
  remember (length (suspended e)) as n eqn:Hn. revert e Hn.
  induction n as [|n IH]; intros e Hn.
  - exists [], e. split; [constructor|]. split; [done|].
    split; [|done]. destruct (suspended e); [done|simpl in Hn; lia].
  - destruct (suspended e) as [|post after] eqn:Hs; [simpl in Hn; lia|].
    set (e1 := processPostResume V post (withSuspended ([] ++ after) e)).
    destruct (resume_keeps post (withSuspended ([] ++ after) e)) as [H1 H2].
    destruct (IH e1) as (evs & e' & Hrun & Hevs & Hsu & Hsw).
    + unfold e1. rewrite H1. simpl in *. lia.
    + exists (Resume post :: evs), e'. split.
      * eapply steadyRun_cons; [|done|exact Hrun].
        by apply (step_resume V e post [] after).
      * split; [done|]. split; [done|]. rewrite Hsw. unfold e1. by rewrite H2.
Qed.

Lemma sweepWork_app l l' :
  sweepWork (l ++ l') = (sweepWork l + sweepWork l')%nat.
Proof. induction l as [|b l IH]; simpl; [done|]. rewrite IH. lia. Qed.

Lemma enterBatch_sweeps posts e :
  batchSize V <> Some O ->
  (sweepWork (sweeps (enterBatch V posts e))
   < S (length posts) + sweepWork (sweeps e))%nat.
Proof.
  intros Hn. unfold enterBatch.
  destruct (batchSize V) as [n|].
  2: { destruct (enterAll_sweeps posts e) as [-> _]. lia. }
  destruct (enterAll_sweeps (take n posts) e) as [Hs _].
  destruct (drop n posts) as [|x later] eqn:Hd.
  - rewrite Hs. lia.
  - simpl. rewrite Hs, sweepWork_app. simpl.
    assert (length (drop n posts) = S (length later)) by (by rewrite Hd).
    rewrite length_drop in H. destruct n; [done|]. lia.
Qed.

(** The work under way can always be completed: the suspended calls are
    resumed, then the next batch of a sweep is entered, and so on until no
    batch is left. *)
Lemma completion e :
  batchSize V <> Some O ->
  exists evs e', steadyRun V e evs e' /\ forallb completes evs = true /\
    idle e'.
Proof.
  intros Hn.
  remember (sweepWork (sweeps e)) as m eqn:Hm. revert e Hm.
  induction m as [m IH] using lt_wf_ind. intros e Hm.
  destruct (drain_suspended e) as (evs1 & e1 & Hrun1 & Hevs1 & Hsu1 & Hsw1).
  destruct (sweeps e1) as [|posts later] eqn:Hs.
  - exists evs1, e1. by repeat split.
  - set (e2 := enterBatch V posts (withSweeps later e1)).
    destruct (IH (sweepWork (sweeps e2))) with (e := e2)
      as (evs2 & e' & Hrun2 & Hevs2 & Hidle); [|done|].
    + pose proof (enterBatch_sweeps posts (withSweeps later e1) Hn) as Hlt.
      fold e2 in Hlt. rewrite <- Hsw1 in Hm. simpl in Hlt, Hm. lia.
    + exists (evs1 ++ NextBatch :: evs2), e'. split; [|split; [|done]].
      * eapply run_app; [exact Hrun1|].
        eapply steadyRun_cons; [|done|exact Hrun2]. by apply step_batch.
      * rewrite forallb_app, Hevs1. simpl. exact Hevs2.
Qed.

(** *** The filter while it is off, and what the counter counts *)

Lemma config_step e ev e' :
  step V e ev e' -> keepsConfig ev = true ->
  currentConfig e' = currentConfig e /\
  normalizedWordSet e' = normalizedWordSet e.
Proof.
  intros Hstep Hev. destruct Hstep; try done.
  - by destruct (enter_quiet post e) as (_ & _ & -> & -> & _).
  - destruct (resume_cases V post (withSuspended (before ++ after) e)) as
      [->|(p & Hp & [[_ ->]|[_ (extra & Hextra & ->)]])]; done.
  - unfold processAllExistingPosts.
    by destruct (enterBatch_quiet V (getAllFeedPosts e) e)
      as (_ & _ & -> & -> & _).
  - by destruct (enterBatch_quiet V posts (withSweeps later e))
      as (_ & _ & -> & -> & _).
  - by destruct (reprocess_quiet V e) as (_ & _ & -> & -> & _).
  - unfold urlChanged. by destruct onFeed.
  - by destruct (reprocess_quiet V (withTimers n e)) as (_ & _ & -> & -> & _).
Qed.

Lemma effects_nonresume e ev e' :
  step V e ev e' -> isResume ev = false -> effects e' = effects e.
Proof.
  intros Hstep Hev. destruct Hstep; try done.
  - apply enter_quiet.
  - unfold processAllExistingPosts.
    by destruct (enterBatch_quiet V (getAllFeedPosts e) e) as [-> _].
  - by destruct (enterBatch_quiet V posts (withSweeps later e)) as [-> _].
  - apply reprocess_quiet.
  - unfold urlChanged. by destruct onFeed.
  - by destruct (reprocess_quiet V (withTimers n e)) as [-> _].
  - destruct (storageChanged_cases V newMode newPaused newWords e)
      as [[_ (c & ws & ->)]|[_ (c & ws & ->)]];
      [|by destruct (modeChanged_cases newMode e) as [-> | ->]].
    destruct (reprocess_quiet V (withConfig c ws (modeChanged newMode e)))
      as [-> _].
    by destruct (modeChanged_cases newMode e) as [-> | ->].
Qed.

Lemma shouldHide_inactive e hasMatch :
  inactive e ->
  shouldHidePost (currentConfig e) (normalizedWordSet e) hasMatch = false.
Proof.
  unfold shouldHidePost. intros [-> | ->]; [done|]. by rewrite orb_true_r.
Qed.

Lemma inactive_step e ev e' :
  step V e ev e' -> keepsConfig ev = true -> inactive e ->
  inactive e' /\
  (sessionHiddenCount e' = sessionHiddenCount e \/
   sessionHiddenCount e' = 0%Z) /\
  exists new, effects e' = effects e ++ new /\ forallb silent new = true.
Proof.
  intros Hstep Hev Hin.
  destruct (config_step _ _ _ Hstep Hev) as [Hc Hw].
  split; [unfold inactive; by rewrite Hc, Hw|].
  pose proof (count_step V _ _ _ Hstep) as Hcount.
  destruct (isResume ev) eqn:Hr.
  - destruct Hstep; try done. split.
    + destruct (resume_cases V post (withSuspended (before ++ after) e)) as
        [->|(p & Hp & [[Hs _]|[_ (extra & Hextra & ->)]])];
        [by left| |by left].
      rewrite shouldHide_inactive in Hs; done.
    + destruct (resume_cases V post (withSuspended (before ++ after) e)) as
        [->|(p & Hp & [[Hs _]|[_ (extra & Hextra & ->)]])].
      * exists []. by rewrite app_nil_r.
      * rewrite shouldHide_inactive in Hs; done.
      * exists ([ShowPost post] ++ extra). simpl.
        split; [by rewrite <- app_assoc|]. by destruct Hextra as [-> | ->].
  - split.
    + destruct (resetsCounter ev); [by right|].
      destruct Hcount as [[-> _]|(Hr' & _)]; [by left|congruence].
    + exists []. rewrite app_nil_r. split; [|done].
      by apply (effects_nonresume e ev).
Qed.

Lemma inactive_run e evs e' :
  run V e evs e' -> forallb keepsConfig evs = true -> inactive e ->
  inactive e' /\
  (sessionHiddenCount e' = sessionHiddenCount e \/
   sessionHiddenCount e' = 0%Z) /\
  exists new, effects e' = effects e ++ new /\ forallb silent new = true.
Proof.
  induction 1 as [e|e ev e1 evs e2 Hstep _ IH].
  - intros _ H. split; [done|]. split; [by left|].
    exists []. by rewrite app_nil_r.
  - simpl. intros [Hev Hevs]%andb_true_iff H.
    destruct (inactive_step _ _ _ Hstep Hev H) as (H1 & Hc1 & new1 & E1 & S1).
    destruct (IH Hevs H1) as (H2 & Hc2 & new2 & E2 & S2).
    split; [done|]. split.
    + destruct Hc2 as [->|?]; [done|by right].
    + exists (new1 ++ new2). rewrite E2, E1, app_assoc. split; [done|].
      rewrite forallb_app. by rewrite S1, S2.
Qed.

Lemma hides_step e ev e' :
  step V e ev e' -> resetsCounter ev = false ->
  exists new, effects e' = effects e ++ new /\
    sessionHiddenCount e' =
    (sessionHiddenCount e + Z.of_nat (length (List.filter hides new)))%Z.
Proof.
  intros Hstep Hev. pose proof (count_step V _ _ _ Hstep) as Hc.
  rewrite Hev in Hc.
  destruct Hc as [(-> & new & -> & Hno)|(_ & -> & post & ->)].
  - exists new. split; [done|].
    assert (List.filter hides new = []) as ->; [|simpl; lia].
    induction new as [|x new IH]; [done|]. simpl.
    destruct x as [q| | |]; simpl.
    + exfalso. apply (Hno q). left.
    + apply IH. intros q Hq. apply (Hno q). by right.
    + apply IH. intros q Hq. apply (Hno q). by right.
    + apply IH. intros q Hq. apply (Hno q). by right.
  - eexists. split; [done|]. simpl. lia.
Qed.

Lemma hides_run e evs e' :
  run V e evs e' ->
  forallb (fun ev => negb (resetsCounter ev)) evs = true ->
  exists new, effects e' = effects e ++ new /\
    sessionHiddenCount e' =
    (sessionHiddenCount e + Z.of_nat (length (List.filter hides new)))%Z.
Proof.
  induction 1 as [e|e ev e1 evs e2 Hstep _ IH].
  - intros _. exists []. rewrite app_nil_r. split; [done|]. simpl. lia.
  - simpl. intros [Hev%negb_true_iff Hevs]%andb_true_iff.
    destruct (hides_step _ _ _ Hstep Hev) as (new1 & E1 & C1).
    destruct (IH Hevs) as (new2 & E2 & C2).
    exists (new1 ++ new2). rewrite E2, E1, app_assoc. split; [done|].
    rewrite C2, C1, List.filter_app, length_app. lia.
Qed.

(** *** Switching the filter off *)

Lemma reprocess_inactive e :
  inactive e -> inactive (reprocessAllPosts V e).
Proof.
  unfold inactive.
  by destruct (reprocess_quiet V e) as (_ & _ & -> & -> & _).
Qed.

(** A change of [paused] to a truthy value that is followed by the
    reprocess leaves the filter off. *)
Lemma storageChanged_paused newMode v newWords e :
  truthy v = true ->
  reprocesses (StorageChanged newMode (Some v) newWords) = true ->
  inactive (storageChanged V newMode (Some v) newWords e).
Proof.
  intros Hv Hr. unfold storageChanged.
  destruct newWords as [w|].
  - simpl in Hr.
    destruct (wordStrings (if truthy w then w else JArray [])) as [ws|];
      [|done].
    apply reprocess_inactive. left. simpl. exact Hv.
  - destruct newMode; apply reprocess_inactive; left; simpl; exact Hv.
Qed.

(** A change of [words] to an empty list, or to a falsy value, leaves the
    filter off. *)
Lemma storageChanged_cleared newMode newPaused v e :
  generateNormalizedWordSet V [] = [] ->
  v = JArray [] \/ truthy v = false ->
  inactive (storageChanged V newMode newPaused (Some v) e).
Proof.
  intros Hempty Hv. unfold storageChanged.
  assert (wordStrings (if truthy v then v else JArray []) = Some []) as ->.
  { destruct Hv as [->|Hv]; [done|by rewrite Hv]. }
  apply reprocess_inactive. right. exact Hempty.
Qed.

(** *** Visibility changes at the completion of a pass only *)

Lemma keeps_refl e : keeps e e.
Proof. intros post p Hp. by exists p. Qed.

Lemma keeps_trans e1 e2 e3 : keeps e1 e2 -> keeps e2 e3 -> keeps e1 e3.
Proof.
  intros H12 H23 post p Hp.
  destruct (H12 post p Hp) as (p2 & Hp2 & Hh2 & Hb2).
  destruct (H23 post p2 Hp2) as (p3 & Hp3 & Hh3 & Hb3).
  exists p3. split; [done|]. split; congruence.
Qed.

Lemma keeps_enter q e : keeps e (processPostEnter q e).
Proof.
  destruct (enter_shape q e) as
    [[-> _]|(p0 & p' & Hp0 & _ & _ & Hh & Hb & _ & ->)];
    [apply keeps_refl|].
  intros post p Hp. simpl. destruct (decide (q = post)) as [->|Hne].
  - rewrite lookup_insert_eq. exists p'.
    assert (p = p0) as -> by congruence. done.
  - rewrite lookup_insert_ne by done. by exists p.
Qed.

Lemma keeps_batch posts e : keeps e (enterBatch V posts e).
Proof.
  apply (enterBatch_ind V (keeps e)).
  - intros q e' H. eapply keeps_trans; [exact H|apply keeps_enter].
  - intros l e' H. exact H.
  - apply keeps_refl.
Qed.

Lemma keeps_reset e : keeps e (resetProcessingMarkers e).
Proof.
  intros post p Hp. unfold resetProcessingMarkers. simpl.
  rewrite lookup_fmap, Hp. simpl. eexists. split; [done|].
  by destruct (attached p).
Qed.

Lemma keeps_reprocess e : keeps e (reprocessAllPosts V e).
Proof.
  unfold reprocessAllPosts, processAllExistingPosts.
  eapply keeps_trans; [apply keeps_reset|].
  apply (keeps_batch _ (withCount 0 (resetProcessingMarkers e))).
Qed.

Lemma keeps_step e ev e' :
  step V e ev e' -> isResume ev = false ->
  forall post p, document e !! post = Some p ->
    exists p', document e' !! post = Some p' /\ hidden p' = hidden p.
Proof.
  intros Hstep Hev post p Hp.
  assert (Hkeeps : keeps e e' -> exists p',
            document e' !! post = Some p' /\ hidden p' = hidden p).
  { intros H. destruct (H post p Hp) as (p' & ? & ? & _). by exists p'. }
  destruct Hstep; try done.
  - apply Hkeeps, keeps_enter.
  - apply Hkeeps, keeps_batch.
  - apply Hkeeps. apply (keeps_batch posts (withSweeps later e)).
  - simpl. exists p. split; [|done].
    rewrite lookup_insert_ne; [done|]. intros ->. congruence.
  - simpl. destruct (decide (post0 = post)) as [->|Hne].
    + rewrite lookup_insert_eq. eexists. split; [done|].
      assert (p0 = p) as -> by congruence. done.
    + rewrite lookup_insert_ne by done. by exists p.
  - simpl. destruct (decide (post0 = post)) as [->|Hne].
    + rewrite lookup_insert_eq. eexists. split; [done|].
      assert (p0 = p) as -> by congruence. done.
    + rewrite lookup_insert_ne by done. by exists p.
  - apply Hkeeps. unfold restartObserver.
    apply (keeps_reset e).
  - apply Hkeeps, keeps_reprocess.
  - unfold urlChanged. destruct onFeed; by exists p.
  - apply Hkeeps. apply (keeps_reprocess (withTimers n e)).
  - apply Hkeeps.
    destruct (storageChanged_cases V newMode newPaused newWords e)
      as [[_ (c & ws & ->)]|[_ (c & ws & ->)]].
    + eapply keeps_trans;
        [|apply (keeps_reprocess (withConfig c ws (modeChanged newMode e)))].
      intros q p1 Hq. exists p1.
      by destruct (modeChanged_cases newMode e) as [-> | ->].
    + intros q p1 Hq. exists p1.
      by destruct (modeChanged_cases newMode e) as [-> | ->].
  - by exists p.
Qed.

(** *** The highlights are removed by the storage listener only *)

Lemma removals_enter q e :
  highlightRemovals (processPostEnter q e) = highlightRemovals e.
Proof.
  unfold processPostEnter. destruct (document e !! q) as [p|]; [|done].
  by destruct (processed p).
Qed.

Lemma removals_batch posts e :
  highlightRemovals (enterBatch V posts e) = highlightRemovals e.
Proof.
  apply (enterBatch_ind V
           (fun e' => highlightRemovals e' = highlightRemovals e)).
  - intros q e' H. by rewrite removals_enter.
  - intros l e' H. exact H.
  - done.
Qed.

Lemma removals_reprocess e :
  highlightRemovals (reprocessAllPosts V e) = highlightRemovals e.
Proof.
  unfold reprocessAllPosts, processAllExistingPosts.
  by rewrite removals_batch.
Qed.

Lemma removals_resume q e :
  highlightRemovals (processPostResume V q e) = highlightRemovals e.
Proof.
  destruct (resume_cases V q e) as
    [->|(p & Hp & [[_ ->]|[_ (extra & Hextra & ->)]])]; done.
Qed.

Lemma removals_step e ev e' :
  step V e ev e' ->
  highlightRemovals e' =
  if removesHighlights e ev then S (highlightRemovals e)
  else highlightRemovals e.
Proof.
  intros Hstep. destruct Hstep; simpl; try done.
  - apply removals_enter.
  - by rewrite removals_resume.
  - apply removals_batch.
  - by rewrite removals_batch.
  - apply removals_reprocess.
  - unfold urlChanged. by destruct onFeed.
  - by rewrite removals_reprocess.
  - assert (Hm : highlightRemovals (modeChanged newMode e) =
                 if removesHighlights e
                      (StorageChanged newMode newPaused newWords)
                 then S (highlightRemovals e) else highlightRemovals e).
    { unfold modeChanged, removesHighlights.
      destruct newMode as [v|]; [|done].
      by destruct (isString _ _ && isString _ _). }
    destruct (storageChanged_cases V newMode newPaused newWords e)
      as [[_ (c & ws & ->)]|[_ (c & ws & ->)]].
    + by rewrite removals_reprocess.
    + exact Hm.
Qed.

(** What the completion of a pass does to the posts. *)
Lemma resume_visibility post before after e q p :
  suspended e = before ++ post :: after ->
  document e !! q = Some p ->
  exists p',
    document (processPostResume V post (withSuspended (before ++ after) e))
      !! q = Some p' /\
    hidden p' =
    if decide (q = post) then
      match normalizeText V (extractPostText p) with
      | [] => hidden p
      | _ => verdict V e p
      end
    else hidden p.
Proof.
  intros Hs Hq. unfold processPostResume. simpl.
  destruct (document e !! post) as [p0|] eqn:Hp0.
  2: { exists p. split; [done|]. case_decide; [congruence|done]. }
  destruct (normalizeText V (extractPostText p0)) as [|c t] eqn:Hn.
  { exists p. split; [done|]. case_decide as Hd; [|done].
    subst q. assert (p = p0) as -> by congruence. by rewrite Hn. }
  assert (Hv : shouldHidePost (currentConfig e) (normalizedWordSet e)
                 (matchesAny V (c :: t) (normalizedWordSet e))
               = verdict V e p0) by (unfold verdict; by rewrite Hn).
  rewrite Hv.
  assert (Hdone : forall e2 b,
            document e2 = <[post := setHidden b p0]> (document e) ->
            b = verdict V e p0 ->
            exists p', document e2 !! q = Some p' /\
              hidden p' =
              if decide (q = post) then
                match normalizeText V (extractPostText p) with
                | [] => hidden p
                | _ => verdict V e p
                end
              else hidden p).
  { intros e2 b Hd Hb. rewrite Hd. case_decide as Hqp.
    - subst q. rewrite lookup_insert_eq. eexists. split; [done|].
      assert (p = p0) as -> by congruence. rewrite Hn. simpl. done.
    - rewrite lookup_insert_ne by done. by exists p. }
  destruct (verdict V e p0) eqn:Hverdict.
  - by apply (Hdone _ true).
  - cbn [emit withDocument currentConfig withSuspended].
    destruct (mode (currentConfig e)) as [| | | |m| |];
      try (by apply (Hdone _ false)).
    destruct (highlights V && strEq m (js "whitelist") && _);
      by apply (Hdone _ false).
Qed.

End WithVariant.
End EngineFacts.

(** ** Highlighting *)

Module MarkupFacts.
Import JS Facts Highlight2 MarkupProps ScanFacts ReferenceFacts RegexFacts.

Lemma node_induction (P : node -> Prop) :
  (forall data, P (Text data)) ->
  (forall tag children, Forall P children -> P (Element tag children)) ->
  forall n, P n.
Proof.
  intros Htext Helem.
  fix IH 1. intros [data|tag children]; [apply Htext|].
  apply Helem. induction children as [|c children IHc]; constructor.
  - apply IH.
  - exact IHc.
Qed.

Lemma textOf_app a b : textOf (a ++ b) = textOf a ++ textOf b.
Proof. unfold textOf. by rewrite map_app, concat_app. Qed.

Lemma startsWith_prefix p s : startsWith p s = true <-> p `prefix_of` s.
Proof.
  revert s. induction p as [|a p IH]; intros s.
  - split; [|done]. intros _. by exists s.
  - destruct s as [|b s]; simpl.
    + split; [done|]. intros [k Hk]. done.
    + rewrite andb_true_iff, N.eqb_eq, IH. split.
      * intros [-> [k ->]]. by exists k.
      * intros [k Hk]. injection Hk as -> ->. split; [done|]. by exists k.
Qed.

(** [indexOf] finds an occurrence at or after [from], not later than any
    other. *)
Lemma indexOfAt_found needle s from pos k :
  (from <= pos + k)%nat -> needle `prefix_of` drop k s -> (k <= length s)%nat ->
  exists j, indexOfAt needle s from pos = Z.of_nat (pos + j) /\
    (from <= pos + j)%nat /\ (j <= k)%nat /\ needle `prefix_of` drop j s.
Proof.
  revert s pos. induction k as [|k IH]; intros s pos Hfrom Hpre Hlen.
  - exists O. rewrite drop_0 in Hpre.
    assert (Hs : startsWith needle s = true) by (by apply startsWith_prefix).
    assert (Hf : (from <=? pos)%nat = true) by (apply Nat.leb_le; lia).
    split; [|by rewrite drop_0].
    destruct s; simpl; rewrite Hf, Hs; simpl; f_equal; lia.
  - destruct s as [|c s]; [simpl in Hlen; lia|].
    destruct ((from <=? pos)%nat && startsWith needle (c :: s)) eqn:Hhere.
    + exists O. apply andb_true_iff in Hhere as [Hf Hs].
      apply Nat.leb_le in Hf. apply startsWith_prefix in Hs.
      split; [|split; [lia|split; [lia|by rewrite drop_0]]].
      cbn [indexOfAt]. apply Nat.leb_le in Hf.
      apply startsWith_prefix in Hs. rewrite Hf, Hs. simpl. f_equal. lia.
    + destruct (IH s (S pos)) as (j & Hj & Hfj & Hjk & Hpj).
      * lia.
      * exact Hpre.
      * simpl in Hlen. lia.
      * exists (S j). cbn [indexOfAt]. rewrite Hhere.
        split; [rewrite Hj; f_equal; lia|]. split; [lia|]. split; [lia|done].
Qed.

Lemma substring_spec s a b :
  (a <= b)%nat -> (b <= length s)%nat ->
  substring s (Z.of_nat a) (Z.of_nat b) = take (b - a) (drop a s).
Proof.
  intros Hab Hb. unfold substring.
  replace (Z.to_nat (Z.min (Z.max (Z.of_nat a) 0) (Z.of_nat (length s))))
    with a by lia.
  replace (Z.to_nat (Z.min (Z.max (Z.of_nat b) 0) (Z.of_nat (length s))))
    with b by lia.
  by rewrite Nat.max_r, Nat.min_l by lia.
Qed.

Lemma chain_weaken text from from' ms :
  (from' <= from)%nat -> chain text from ms -> chain text from' ms.
Proof.
  destruct ms as [|m ms]; [done|]. simpl.
  intros Hle (q & Hq & H). exists q. split; [lia|done].
Qed.

Lemma prefix_length_drop (m text : list N) q :
  m `prefix_of` drop q text -> m <> [] ->
  (q + length m <= length text)%nat.
Proof.
  intros [k Hk] Hne.
  assert (length (drop q text) = length (m ++ k)) by (by rewrite Hk).
  rewrite length_drop, length_app in H.
  destruct m; [done|]. simpl in *. lia.
Qed.

(** One step of the loop over the matches. *)
Lemma fragment_step text m (lastIndex : nat) fragment q :
  (lastIndex <= q)%nat -> m `prefix_of` drop q text -> m <> [] ->
  textOf fragment = take lastIndex text ->
  let matchIndex := indexOf m text (Z.of_nat lastIndex) in
  let before :=
    if (Z.of_nat lastIndex <? matchIndex)%Z
    then [Text (substring text (Z.of_nat lastIndex) matchIndex)] else [] in
  exists j, matchIndex = Z.of_nat j /\ (lastIndex <= j)%nat /\ (j <= q)%nat /\
    (j + length m <= length text)%nat /\
    textOf (fragment ++ before ++ [strong m]) = take (j + length m) text.
Proof.
  intros Hq Hpre Hne Hfrag. cbv zeta. unfold indexOf.
  rewrite Nat2Z.id.
  pose proof (prefix_length_drop _ _ _ Hpre Hne) as Hlen.
  destruct (indexOfAt_found m text lastIndex O q) as (j & Hj & Hfj & Hjq & Hpj);
    [lia|done|lia|].
  simpl in Hj, Hfj. rewrite Hj. exists j.
  pose proof (prefix_length_drop _ _ _ Hpj Hne) as Hlenj.
  split; [done|]. split; [done|]. split; [done|]. split; [done|].
  rewrite !textOf_app, Hfrag.
  assert (Hm : textOf [strong m] = m) by (unfold textOf; simpl; by rewrite !app_nil_r).
  rewrite Hm.
  assert (Hb : textOf (if (Z.of_nat lastIndex <? Z.of_nat j)%Z
                       then [Text (substring text (Z.of_nat lastIndex)
                                     (Z.of_nat j))] else [])
               = take (j - lastIndex) (drop lastIndex text)).
  { destruct (Z.of_nat lastIndex <? Z.of_nat j)%Z eqn:Hlt.
    - unfold textOf. simpl. rewrite app_nil_r. apply substring_spec; lia.
    - apply Z.ltb_ge in Hlt. replace (j - lastIndex)%nat with O by lia. done. }
  rewrite Hb. destruct Hpj as [k Hk].
  rewrite app_assoc.
  assert (take lastIndex text ++ take (j - lastIndex) (drop lastIndex text)
          = take j text) as ->.
  { rewrite <- (take_drop lastIndex text) at 3.
    rewrite take_app, length_take.
    assert (lastIndex `min` length text = lastIndex)%nat as -> by lia.
    rewrite take_take. by assert (j `min` lastIndex = lastIndex)%nat as -> by lia. }
  rewrite <- (take_drop j text) at 2. rewrite take_app, length_take.
  assert (j `min` length text = j)%nat as -> by lia.
  rewrite take_take.
  assert ((j + length m) `min` j = j)%nat as -> by lia.
  replace (j + length m - j)%nat with (length m) by lia.
  rewrite Hk. by rewrite take_app_length.
Qed.

Lemma fragment_fold text ms (lastIndex : nat) fragment :
  chain text lastIndex ms -> Forall (fun m => m <> []) ms ->
  (lastIndex <= length text)%nat ->
  textOf fragment = take lastIndex text ->
  let result :=
    fold_left (fun state m =>
      let '(lastIndex, fragment) := state in
      let matchIndex := indexOf m text lastIndex in
      let before :=
        if (lastIndex <? matchIndex)%Z
        then [Text (substring text lastIndex matchIndex)] else [] in
      ((matchIndex + Z.of_nat (length m))%Z, fragment ++ before ++ [strong m]))
      ms (Z.of_nat lastIndex, fragment) in
  exists j, fst result = Z.of_nat j /\ (j <= length text)%nat /\
    textOf (snd result) = take j text.
Proof.
  revert lastIndex fragment.
  induction ms as [|m ms IH]; intros lastIndex fragment Hchain Hne Hlen Hfrag.
  - exists lastIndex. by repeat split.
  - destruct Hchain as (q & Hq & Hpre & Hchain).
    apply Forall_cons in Hne as [Hm Hne].
    destruct (fragment_step text m lastIndex fragment q Hq Hpre Hm Hfrag)
      as (j & Hj & Hlj & Hjq & Hjlen & Htext).
    cbn [fold_left]. cbv zeta in Hj, Htext. cbv zeta. rewrite Hj.
    rewrite Hj in Htext.
    rewrite <- Nat2Z.inj_add.
    apply IH; [|done|done|done].
    eapply chain_weaken; [|exact Hchain]. lia.
Qed.

Section WithRuntime.
Context (rt : Runtime).

Lemma boundedAt_take pattern prev s :
  WordRegex.boundedAt rt pattern prev s = true ->
  length (take (length (WordRegex.patternUnits pattern)) s)
  = length (WordRegex.patternUnits pattern).
Proof.
  intros (m & r & -> & Hm & _)%boundedAt_spec.
  apply Forall2_length in Hm. rewrite length_take, length_app. lia.
Qed.

(** The matches of [text.match(regex)] occur in the text one after the
    other. *)
Lemma matchAll_chain pattern text pre s prev skip :
  WordRegex.patternUnits pattern <> [] -> text = pre ++ s ->
  chain text (length pre + skip) (matchAll rt pattern prev skip s) /\
  Forall (fun m => m <> []) (matchAll rt pattern prev skip s).
Proof.
  intros Hne. revert pre prev skip.
  induction s as [|c r IH]; intros pre prev skip Htext; [done|].
  assert (Hnext : text = (pre ++ [c]) ++ r) by (by rewrite <- app_assoc).
  destruct skip as [|k]; cbn [matchAll].
  - destruct (WordRegex.boundedAt rt pattern prev (c :: r)) eqn:Hb.
    + pose proof (boundedAt_take _ _ _ Hb) as Hlen.
      set (n := length (WordRegex.patternUnits pattern)) in *.
      assert (Hn : (0 < n)%nat).
      { unfold n. destruct (WordRegex.patternUnits pattern); [done|simpl; lia]. }
      destruct (IH (pre ++ [c]) (Some c) (n - 1)%nat Hnext) as [Hc Hf].
      split.
      * exists (length pre). split; [lia|]. split.
        -- rewrite Htext, drop_app_length. apply prefix_take.
        -- rewrite Hlen. rewrite length_app in Hc. simpl in Hc.
           replace (length pre + n)%nat with (length pre + 1 + (n - 1))%nat
             by lia. exact Hc.
      * constructor; [|done]. intros E. rewrite E in Hlen. simpl in Hlen. lia.
    + destruct (IH (pre ++ [c]) (Some c) O Hnext) as [Hc Hf].
      split; [|done]. eapply chain_weaken; [|exact Hc].
      rewrite length_app. simpl. lia.
  - destruct (IH (pre ++ [c]) (Some c) k Hnext) as [Hc Hf].
    split; [|done]. rewrite length_app in Hc. simpl in Hc.
    replace (length pre + S k)%nat with (length pre + 1 + k)%nat by lia.
    exact Hc.
Qed.

(** The fragment built for a keyword has the text of the node. *)
Lemma fragmentFor_text keyword text :
  keyword <> [] ->
  textOf (fragmentFor text
            (matchAll rt (WordRegex.escapeRegExp keyword) None 0 text))
  = text.
Proof.
  intros Hne.
  destruct (matchAll_chain (WordRegex.escapeRegExp keyword) text [] text None O)
    as [Hc Hf]; [by rewrite patternUnits_escape|done|].
  simpl in Hc.
  destruct (fragment_fold text _ O [] Hc Hf) as (j & Hj & Hlen & Htext);
    [lia|done|].
  unfold fragmentFor. change (Z.of_nat 0) with 0%Z in Hj, Htext.
  destruct (fold_left _ _ (0%Z, [])) as [lastIndex fragment].
  simpl in Hj, Htext. subst lastIndex.
  destruct (Z.of_nat j <? Z.of_nat (length text))%Z eqn:Hlt.
  - rewrite textOf_app, Htext. unfold textOf at 1. simpl. rewrite app_nil_r.
    rewrite substring_spec by lia.
    rewrite <- (take_drop j text) at 4. f_equal.
    rewrite take_ge; [done|]. rewrite length_drop. lia.
  - apply Z.ltb_ge in Hlt. rewrite Htext. apply take_ge. lia.
Qed.

Lemma processText_text wordSet text fragment :
  processText rt wordSet text = Some (Some fragment) ->
  textOf fragment = text.
Proof.
  unfold processText.
  assert (H : forall state,
            (forall f, state = Some (Some f) -> textOf f = text) ->
            forall f,
              fold_left (fun state keyword =>
                match state with
                | None => None
                | Some replaced =>
                  match keyword with
                  | [] => state
                  | _ =>
                    match matchAll rt (WordRegex.escapeRegExp keyword) None 0
                            text with
                    | [] => state
                    | matches =>
                      match replaced with
                      | None => Some (Some (fragmentFor text matches))
                      | Some _ => None
                      end
                    end
                  end
                end) wordSet state = Some (Some f) ->
              textOf f = text).
  { induction wordSet as [|keyword wordSet IH]; intros state Hstate f.
    - simpl. apply Hstate.
    - simpl. apply IH. destruct state as [replaced|]; [|done].
      destruct keyword as [|a w]; [done|].
      destruct (matchAll rt (WordRegex.escapeRegExp (a :: w)) None 0 text)
        as [|m ms] eqn:Hm; [done|].
      destruct replaced; [done|].
      intros f' [= <-]. rewrite <- Hm. by apply fragmentFor_text. }
  apply H. done.
Qed.

Lemma childFold_text (f : node -> option (list node * bool)) children :
  Forall (fun c => forall nodes changed,
            f c = Some (nodes, changed) -> textOf nodes = textContent c)
    children ->
  forall done0 changed0 done1 changed1,
    fold_left (fun state child =>
      match state with
      | None => None
      | Some (done, changed) =>
        match f child with
        | None => None
        | Some (nodes, c) => Some (done ++ nodes, changed || c)
        end
      end) children (Some (done0, changed0)) = Some (done1, changed1) ->
    textOf done1 = textOf done0 ++ textOf children.
Proof.
  induction 1 as [|c children Hc _ IH]; intros done0 changed0 done1 changed1.
  - simpl. intros [= <- _]. unfold textOf at 3. simpl. by rewrite app_nil_r.
  - cbn [fold_left]. destruct (f c) as [[nodes ch]|] eqn:Hf.
    + intros H. apply IH in H. rewrite H, textOf_app, (Hc _ _ eq_refl).
      unfold textOf at 4. simpl. by rewrite <- app_assoc.
    + intros H. exfalso. clear -H.
      induction children as [|x children IHc]; [done|]. by apply IHc.
Qed.

Lemma processTextNode_text wordSet n nodes changed :
  processTextNode rt wordSet n = Some (nodes, changed) ->
  textOf nodes = textContent n.
Proof.
  revert nodes changed. induction n as [data|tag children IH] using node_induction;
    intros nodes changed.
  - cbn [processTextNode].
    destruct (processText rt wordSet data) as [[fragment|]|] eqn:Hp; [| |done].
    + intros [= <- _]. by apply processText_text in Hp.
    + intros [= <- _]. unfold textOf. simpl. by rewrite app_nil_r.
  - cbn [processTextNode].
    match goal with
    | |- match ?x with _ => _ end = _ -> _ => destruct x as [[done1 ch]|] eqn:Hf
    end; [|done].
    intros [= <- _]. apply (childFold_text _ _ IH) in Hf.
    change (textOf [Element tag done1]) with (textOf done1 ++ []).
    change (textContent (Element tag children)) with (textOf children).
    by rewrite app_nil_r, Hf.
Qed.

Lemma highlightElement_text wordSet html html' :
  highlightElement rt wordSet html = Some (Some html') ->
  textOf html' = textOf html.
Proof.
  unfold highlightElement.
  match goal with
  | |- match ?x with _ => _ end = _ -> _ => destruct x as [[done1 ch]|] eqn:Hf
  end; [|done].
  destruct ch; [|done]. intros [= <-].
  apply (childFold_text (processTextNode rt wordSet)) in Hf; [done|].
  apply Forall_forall. intros c _ nodes changed.
  apply processTextNode_text.
Qed.

End WithRuntime.
(** *** The marks of [highlightKeywords] *)

Lemma elem_of_insertByLength (x y : list N) l :
  y ∈ WordSet.insertByLength x l <-> y = x \/ y ∈ l.
Proof.
  induction l as [|z l IH]; simpl.
  - rewrite list_elem_of_singleton, elem_of_nil. tauto.
  - destruct (length z <=? length x)%nat.
    + by rewrite elem_of_cons.
    + rewrite !elem_of_cons, IH. tauto.
Qed.

Lemma elem_of_sortLongestFirst (y : list N) l :
  y ∈ WordSet.sortLongestFirst l <-> y ∈ l.
Proof.
  induction l as [|x l IH]; [done|].
  unfold WordSet.sortLongestFirst in *. simpl.
  by rewrite elem_of_insertByLength, IH, elem_of_cons.
Qed.

Section Wrap.
Context (rt : Runtime) (pattern opening closing : list N).

Lemma wrapFrom_length prev skip s :
  (length s <=
   length (WordRegex.wrapFrom rt pattern opening closing prev skip s))%nat.
Proof.
  revert prev skip. induction s as [|c r IH]; intros prev skip; [done|].
  cbn [WordRegex.wrapFrom]. destruct skip as [|k].
  - destruct (WordRegex.boundedAt rt pattern prev (c :: r)).
    + cbv zeta. rewrite length_app. cbn [length]. rewrite length_app.
      pose proof (IH (Some c)
        (length (WordRegex.patternUnits pattern) - 1)%nat). simpl. lia.
    + simpl. pose proof (IH (Some c) O). lia.
  - cbn [length]. rewrite length_app. pose proof (IH (Some c) k). simpl. lia.
Qed.

Lemma wrapFrom_unchanged prev s :
  WordRegex.testFrom rt pattern prev s = false ->
  WordRegex.wrapFrom rt pattern opening closing prev 0 s = s.
Proof.
  revert prev. induction s as [|c r IH]; intros prev; [done|].
  cbn [WordRegex.testFrom WordRegex.wrapFrom].
  intros [-> H]%orb_false_iff. f_equal. by apply IH.
Qed.

Lemma wrapFrom_grows prev s :
  WordRegex.patternUnits pattern <> [] -> opening <> [] ->
  WordRegex.testFrom rt pattern prev s = true ->
  (length s <
   length (WordRegex.wrapFrom rt pattern opening closing prev 0 s))%nat.
Proof.
  intros Hp Ho. revert prev. induction s as [|c r IH]; intros prev.
  - simpl. rewrite orb_false_r.
    intros (m & r & Hs & Hm & _)%boundedAt_spec.
    destruct m; [|done]. apply Forall2_nil_inv_r in Hm. done.
  - cbn [WordRegex.testFrom WordRegex.wrapFrom].
    destruct (WordRegex.boundedAt rt pattern prev (c :: r)).
    + intros _. cbv zeta. rewrite length_app. cbn [length].
      rewrite length_app.
      pose proof (wrapFrom_length (Some c)
        (length (WordRegex.patternUnits pattern) - 1)%nat r).
      destruct opening; [done|]. simpl. lia.
    + simpl. intros H. apply IH in H. lia.
Qed.

End Wrap.

Section Marks.
Context (rt : Runtime).

Lemma markOpen_nonempty : DomUtils.markOpen <> [].
Proof. done. Qed.

(** The loop over the sorted words: the text is changed exactly when one of
    the words has a match in the text it started with, and then it is
    longer. *)
Lemma highlight_fold (sortedWords : list (list N)) (text : list N) :
  let step := fun acc word =>
    match word with
    | [] => acc
    | _ => WordRegex.wrapFrom rt (WordRegex.escapeRegExp word)
             DomUtils.markOpen DomUtils.markClose None 0 acc
    end in
  ((forall word, word ∈ sortedWords -> word <> [] ->
      WordRegex.test rt (WordRegex.escapeRegExp word) text = false) /\
   fold_left step sortedWords text = text) \/
  ((exists word, word ∈ sortedWords /\ word <> [] /\
      WordRegex.test rt (WordRegex.escapeRegExp word) text = true) /\
   (length text < length (fold_left step sortedWords text))%nat).
Proof.
  intros step.
  assert (Hmono : forall l acc,
            (length acc <= length (fold_left step l acc))%nat).
  { induction l as [|w l IHl]; intros acc; [done|]. simpl.
    etransitivity; [|apply IHl]. unfold step. destruct w; [done|].
    apply wrapFrom_length. }
  induction sortedWords as [|w l IH]; [left; split; [|done]|].
  { intros word Hw. by apply elem_of_nil in Hw. }
  simpl. destruct w as [|a w].
  - destruct IH as [[Hno Heq]|[(word & Hw & Hne & Ht) Hlen]].
    + left. split; [|done]. intros word [->|Hw]%elem_of_cons; [done|].
      by apply Hno.
    + right. split; [|done]. exists word. split; [by right|done].
  - destruct (WordRegex.test rt (WordRegex.escapeRegExp (a :: w)) text)
      eqn:Htest.
    + right. split; [exists (a :: w); split; [left|done]|].
      eapply Nat.lt_le_trans; [|apply Hmono].
      unfold step. apply wrapFrom_grows; [|done|done].
      by rewrite patternUnits_escape.
    + assert (step text (a :: w) = text) as ->.
      { unfold step. by apply wrapFrom_unchanged. }
      destruct IH as [[Hno Heq]|[(word & Hw & Hne & Ht) Hlen]].
      * left. split; [|done]. intros word [->|Hw]%elem_of_cons; [done|].
        by apply Hno.
      * right. split; [|done]. exists word. split; [by right|done].
Qed.

Lemma highlightKeywords_cases text words mode :
  (DomUtils.highlightKeywords rt text words mode = None <->
   mode <> js "whitelist" \/ words = [] \/ trim text = [] \/
   forall word, word ∈ words -> word <> [] ->
     WordRegex.test rt (WordRegex.escapeRegExp word) text = false) /\
  (forall marked, DomUtils.highlightKeywords rt text words mode = Some marked ->
     (length text < length marked)%nat).
Proof.
  unfold DomUtils.highlightKeywords.
  destruct (strEq mode (js "whitelist")) eqn:Hmode; cbn [negb orb].
  2: { split; [|done]. split; [|done]. intros _. left. intros ->. done. }
  apply strEq_eq in Hmode.
  destruct (length words =? 0)%nat eqn:Hl.
  { split; [|done]. split; [|done]. intros _. right. left.
    apply Nat.eqb_eq in Hl. by destruct words. }
  assert (Hwords : words <> []) by (intros ->; done).
  destruct (trim text) as [|c t] eqn:Htrim.
  { split; [|done]. split; [|done]. intros _. right. right. by left. }
  destruct (highlight_fold (WordSet.sortLongestFirst words) text)
    as [[Hno Heq]|[(word & Hw & Hne & Ht) Hlen]].
  - cbv zeta in Heq. rewrite Heq.
    assert (strEq text text = true) as -> by (by apply strEq_eq).
    split; [|done]. split; [|done]. intros _. right. right. right.
    intros word Hw. apply Hno. by apply elem_of_sortLongestFirst.
  - cbv zeta in Hlen.
    match goal with
    | |- context [strEq ?x text] => destruct (strEq x text) eqn:Heq
    end.
    + apply strEq_eq in Heq. rewrite Heq in Hlen. lia.
    + split.
      * split; [done|]. intros [?|[?|[?|Hno]]]; [done|done|done|].
        apply (proj1 (elem_of_sortLongestFirst _ _)) in Hw.
        rewrite (Hno word Hw Hne) in Ht. done.
      * by intros marked [= <-].
Qed.

End Marks.

End MarkupFacts.

(** ** Keywords in the popup *)

Module PopupFacts.
Import JS Facts Props Popup ScanFacts ReferenceFacts ExpanderFacts TextFacts.

Lemma splitSeparators_tokens piece inRun s token :
  token ∈ splitSeparators piece inRun s ->
  existsb isSeparator piece = false -> existsb isSeparator token = false.
Proof.
  revert piece inRun. induction s as [|c r IH]; intros piece inRun; simpl.
  - by intros ->%list_elem_of_singleton.
  - destruct (isSeparator c) eqn:Hc.
    + destruct inRun.
      * intros H _. by apply (IH [] true).
      * intros [->|H]%elem_of_cons Hp; [done|]. by apply (IH [] true).
    + intros H Hp. apply (IH _ _ H).
      rewrite existsb_app, Hp. simpl. by rewrite Hc.
Qed.

Lemma splitSeparators_run piece inRun word r :
  existsb isSeparator word = false -> word <> [] ->
  splitSeparators piece inRun (word ++ r)
  = splitSeparators (piece ++ word) false r.
Proof.
  revert piece inRun. induction word as [|c w IH]; intros piece inRun; [done|].
  intros [Hc Hw]%orb_false_iff _. simpl. rewrite Hc.
  destruct w as [|d w].
  - done.
  - rewrite IH by done. by rewrite <- app_assoc.
Qed.

Lemma splitSeparators_join inRun words :
  words <> [] -> Forall cleanKeyword words ->
  splitSeparators [] inRun (join [10] words) = words.
Proof.
  intros Hne Hall. revert inRun.
  induction Hall as [|w words (Hw & _ & Hsep) Hall IH]; [done|]. intros inRun.
  destruct words as [|w' words].
  - simpl. rewrite <- (app_nil_r w) at 1.
    by rewrite splitSeparators_run.
  - change (join [10] (w :: w' :: words))
      with (w ++ 10 :: join [10] (w' :: words)).
    rewrite splitSeparators_run by done. simpl. f_equal. by apply IH.
Qed.

Lemma existsb_units (p : N -> bool) (a b : list N) :
  (forall u, u ∈ a -> u ∈ b) -> existsb p b = false -> existsb p a = false.
Proof.
  intros Hab Hb. destruct (existsb p a) eqn:Ha; [|done].
  apply existsb_exists in Ha as (u & Hu%list_elem_of_In & Hp).
  assert (existsb p b = true); [|congruence].
  apply existsb_exists. exists u. split; [|done].
  by apply list_elem_of_In, Hab.
Qed.

Lemma parseKeywords_clean input : Forall cleanKeyword (parseKeywords input).
Proof.
  apply Forall_forall. intros w Hw. unfold parseKeywords in Hw.
  destruct input as [|c input]; [by apply elem_of_nil in Hw|].
  apply list_elem_of_In, filter_In in Hw as [Hw Hlen].
  apply in_map_iff in Hw as (piece & <- & Hpiece%list_elem_of_In).
  split; [|split].
  - intros E. rewrite E in Hlen. done.
  - apply trim_idem.
  - apply (existsb_units _ _ piece); [intros u; apply trim_units|].
    by eapply splitSeparators_tokens.
Qed.

Lemma filter_all {A} (f : A -> bool) (l : list A) :
  Forall (fun x => f x = true) l -> List.filter f l = l.
Proof.
  induction 1 as [|x l Hx _ IH]; [done|]. simpl. by rewrite Hx, IH.
Qed.

Lemma map_fixed {A} (f : A -> A) (l : list A) :
  Forall (fun x => f x = x) l -> map f l = l.
Proof.
  induction 1 as [|x l Hx _ IH]; [done|]. simpl. by rewrite Hx, IH.
Qed.

Lemma join_nil_inv words :
  Forall cleanKeyword words -> join [10] words = [] -> words = [].
Proof.
  intros Hall. destruct Hall as [|w words (Hw & _) Hall]; [done|].
  destruct words; simpl; destruct w; done.
Qed.

(** The text area gives back the keywords it was filled with. *)
Lemma parseKeywords_join words :
  Forall cleanKeyword words -> parseKeywords (join [10] words) = words.
Proof.
  intros Hall. unfold parseKeywords.
  destruct (join [10] words) as [|c t] eqn:Hj.
  { symmetry. by apply join_nil_inv. }
  rewrite <- Hj.
  assert (Hne : words <> []) by (intros ->; done).
  rewrite splitSeparators_join by done.
  rewrite map_fixed.
  - apply filter_all. eapply Forall_impl; [exact Hall|].
    intros w (Hw & _). destruct w; done.
  - eapply Forall_impl; [exact Hall|]. by intros w (_ & Hw & _).
Qed.

(** *** [arraysEqual] *)

Lemma everyFrom_spec i a b :
  everyFrom i a b = true <-> take (length a) (drop i b) = a.
Proof.
  revert i. induction a as [|v a IH]; intros i; [done|]. simpl.
  destruct (b !! i) as [o|] eqn:Hb.
  - rewrite andb_true_iff, strEq_eq, IH.
    rewrite (drop_S _ _ _ Hb). simpl. split.
    + by intros [-> ->].
    + intros [= -> H]. by rewrite H.
  - split; [done|]. apply lookup_ge_None in Hb.
    rewrite drop_ge by done. done.
Qed.

Lemma arraysEqual_spec a b : arraysEqual a b = true <-> a = b.
Proof.
  unfold arraysEqual. destruct (length a =? length b)%nat eqn:Hl; simpl.
  - apply Nat.eqb_eq in Hl. rewrite everyFrom_spec, drop_0, Hl, firstn_all.
    split; by intros ->.
  - split; [done|]. intros ->. by rewrite Nat.eqb_refl in Hl.
Qed.

(** *** Sets of words in insertion order *)

Lemma add_all_prefix vs (set : list (list N)) :
  set `prefix_of` fold_left WordSet.add vs set.
Proof.
  revert set. induction vs as [|v vs IH]; intros set; [done|]. simpl.
  etransitivity; [|apply IH]. unfold WordSet.add.
  destruct (WordSet.has v set); [done|]. by apply prefix_app_r.
Qed.

Lemma add_all_known vs (set : list (list N)) :
  (forall v, v ∈ vs -> v ∈ set) -> fold_left WordSet.add vs set = set.
Proof.
  induction vs as [|v vs IH]; intros H; [done|]. simpl.
  assert (WordSet.add set v = set) as ->.
  { unfold WordSet.add.
    assert (WordSet.has v set = true) as ->; [|done].
    apply has_spec, H. left. }
  apply IH. intros x Hx. apply H. by right.
Qed.

Lemma add_all_fresh vs (set : list (list N)) :
  NoDup (set ++ vs) -> fold_left WordSet.add vs set = set ++ vs.
Proof.
  revert set. induction vs as [|v vs IH]; intros set H.
  - by rewrite app_nil_r.
  - simpl.
    assert (WordSet.add set v = set ++ [v]) as ->.
    { unfold WordSet.add. destruct (WordSet.has v set) eqn:Hv; [|done].
      apply has_spec in Hv. apply NoDup_app in H as (_ & H & _).
      exfalso. apply (H v Hv). left. }
    rewrite IH; rewrite <- app_assoc; done.
Qed.

Section WithRuntime.
Context (rt : Runtime).

Lemma normalizeKeywords_spec keywords y :
  y ∈ normalizeKeywords rt keywords <->
  y <> [] /\ exists w, w ∈ keywords /\ normalizeKeyword rt w = y.
Proof.
  unfold normalizeKeywords. rewrite add_all_spec, elem_of_nil.
  split.
  - intros [[]|Hy]. apply list_elem_of_In, filter_In in Hy as [Hy Hlen].
    apply in_map_iff in Hy as (w & <- & Hw%list_elem_of_In).
    split; [|by exists w]. intros E. rewrite E in Hlen. done.
  - intros [Hne (w & Hw & <-)]. right.
    apply list_elem_of_In, filter_In. split.
    + apply in_map_iff. exists w. split; [done|by apply list_elem_of_In].
    + destruct (normalizeKeyword rt w); done.
Qed.

Lemma normalizeKeywords_NoDup keywords : NoDup (normalizeKeywords rt keywords).
Proof. apply add_all_NoDup, NoDup_nil. done. Qed.

Lemma normalizeKeyword_shape w :
  trim (normalizeKeyword rt w) = normalizeKeyword rt w /\
  quiet markMatch (normalizeKeyword rt w).
Proof.
  unfold normalizeKeyword. split; [apply trim_idem|].
  apply quiet_trim; [apply markMatch_bounded|apply quiet_strip].
Qed.

Lemma mergeWords_spec currentWords importWords y :
  y ∈ mergeWords rt currentWords importWords <->
  y ∈ currentWords \/ y ∈ normalizeKeywords rt importWords.
Proof.
  unfold mergeWords. rewrite add_all_spec, elem_of_nil, elem_of_app. tauto.
Qed.

Lemma mergeWords_NoDup currentWords importWords :
  NoDup (mergeWords rt currentWords importWords).
Proof. apply add_all_NoDup, NoDup_nil. done. Qed.

Lemma mergeWords_prefix currentWords importWords :
  NoDup currentWords ->
  currentWords `prefix_of` mergeWords rt currentWords importWords.
Proof.
  intros H. unfold mergeWords. rewrite fold_left_app.
  rewrite (add_all_fresh currentWords []) by done. apply add_all_prefix.
Qed.

Lemma mergeWords_again currentWords importWords :
  mergeWords rt (mergeWords rt currentWords importWords) importWords
  = mergeWords rt currentWords importWords.
Proof.
  set (m := mergeWords rt currentWords importWords).
  unfold mergeWords at 1. fold m. rewrite fold_left_app.
  rewrite (add_all_fresh m []) by apply mergeWords_NoDup.
  apply add_all_known. intros v Hv. apply mergeWords_spec. by right.
Qed.

End WithRuntime.
End PopupFacts.

(** ** The text of a post *)

Module PostFacts.
Import JS Facts Content ScanFacts.

Lemma trimStart_length s : (length (trimStart s) <= length s)%nat.
Proof.
  induction s as [|c r IH]; [done|]. simpl.
  destruct (isSpace c); simpl; lia.
Qed.

Lemma trimEnd_length s : (length (trimEnd s) <= length s)%nat.
Proof.
  destruct (trimEnd_split s) as (tail & Hs & _).
  rewrite Hs at 2. rewrite length_app. lia.
Qed.

Lemma trim_length s : (length (trim s) <= length s)%nat.
Proof.
  unfold trim. pose proof (trimEnd_length (trimStart s)).
  pose proof (trimStart_length s). lia.
Qed.

(** The loop of [extractPostText]: it keeps the first block that is longer
    than all the blocks before it and than the bound it started with. *)
Lemma longest_fold (l : list (list N)) (s : list N) (n : nat) :
  let result :=
    fold_left (fun sel text =>
      if (snd sel <? length text)%nat then (text, length text) else sel)
      l (s, n) in
  (Forall (fun b => (length b <= n)%nat) l /\ result = (s, n)) \/
  (exists l1 l2, l = l1 ++ fst result :: l2 /\
     snd result = length (fst result) /\ (n < length (fst result))%nat /\
     Forall (fun b => (length b < length (fst result))%nat) l1 /\
     Forall (fun b => (length b <= length (fst result))%nat) l2).
Proof.
  revert s n. induction l as [|b l IH]; intros s n; [by left|].
  cbn [fold_left snd]. destruct (n <? length b)%nat eqn:Hb.
  - apply Nat.ltb_lt in Hb. right.
    destruct (IH b (length b)) as [[Hall ->]|(l1 & l2 & Hl & Hm & Hn & H1 & H2)].
    + exists [], l. by repeat split.
    + exists (b :: l1), l2. simpl. rewrite Hl at 1.
      repeat split; try done; [lia|]. constructor; [lia|done].
  - apply Nat.ltb_ge in Hb.
    destruct (IH s n) as [[Hall ->]|(l1 & l2 & Hl & Hm & Hn & H1 & H2)].
    + left. split; [|done]. by constructor.
    + right. exists (b :: l1), l2. simpl. rewrite Hl at 1.
      repeat split; try done. constructor; [lia|done].
Qed.

Lemma getTextContentElements_long p b :
  b ∈ getTextContentElements p -> (10 < length b)%nat.
Proof.
  unfold getTextContentElements.
  intros [_ H%Nat.ltb_lt]%list_elem_of_In%filter_In.
  pose proof (trim_length b). lia.
Qed.

Lemma extractPostText_first_longest p :
  getTextContentElements p <> [] ->
  exists before after,
    getTextContentElements p = before ++ extractPostText p :: after /\
    Forall (fun b => (length b < length (extractPostText p))%nat) before /\
    Forall (fun b => (length b <= length (extractPostText p))%nat) after.
Proof.
  intros Hne. unfold extractPostText.
  destruct (getTextContentElements p) as [|first rest] eqn:He; [done|].
  destruct (longest_fold (first :: rest) first O)
    as [[Hall _]|(l1 & l2 & Hl & _ & _ & H1 & H2)].
  - apply Forall_cons in Hall as [Hfirst _].
    assert (10 < length first)%nat; [|lia].
    apply (getTextContentElements_long p). rewrite He. left.
  - exists l1, l2. split; [exact Hl|]. by split.
Qed.

End PostFacts.

(** ** Badges *)

Module BadgeFacts.
Import JS Props Background.

Lemma decimalValue_snoc l d :
  decimalValue (l ++ [d]) = (decimalValue l * 10 + (Z.of_N d - 48))%Z.
Proof. unfold decimalValue. by rewrite fold_left_app. Qed.

(** The digits [toString] writes spell the number. *)
Lemma decimal_value fuel n :
  (0 <= n)%Z -> (Z.to_nat n < fuel)%nat ->
  decimalValue (decimal fuel n) = n /\
  forallb isDigit (decimal fuel n) = true /\ decimal fuel n <> [].
Proof.
  revert n. induction fuel as [|fuel IH]; intros n Hn Hf; [lia|].
  cbn [decimal]. destruct (n <? 10)%Z eqn:Hlt.
  - apply Z.ltb_lt in Hlt. split; [|split; [|done]].
    + unfold decimalValue. simpl. rewrite Z2N.id by lia. lia.
    + simpl. rewrite andb_true_r. unfold isDigit.
      apply andb_true_iff. split; apply N.leb_le; lia.
  - apply Z.ltb_ge in Hlt.
    destruct (IH (n / 10)%Z) as (Hv & Hd & Hne).
    + apply Z.div_pos; lia.
    + assert (n / 10 < n)%Z by (apply Z.div_lt; lia). lia.
    + pose proof (Z.mod_pos_bound n 10 ltac:(lia)) as Hm.
      split; [|split].
      * rewrite decimalValue_snoc, Hv, Z2N.id by lia.
        pose proof (Z.div_mod n 10 ltac:(lia)). lia.
      * rewrite forallb_app, Hd. simpl. rewrite andb_true_r. unfold isDigit.
        apply andb_true_iff. split; apply N.leb_le; lia.
      * by destruct (decimal fuel (n / 10)).
Qed.

Lemma toString_value n :
  (0 <= n)%Z ->
  decimalValue (toString n) = n /\ forallb isDigit (toString n) = true /\
  toString n <> [].
Proof. intros Hn. apply decimal_value; [done|lia]. Qed.

Section WithRuntime.
Context (exponentDigit : Z -> digit).

Local Abbreviation badgeText := (badgeText exponentDigit).
Local Abbreviation parseCount := (parseCount exponentDigit).
Local Abbreviation consistent := (consistent exponentDigit).
Local Abbreviation handle := (handle exponentDigit).
Local Abbreviation updateBadge := (updateBadge exponentDigit).

Lemma digitValue_bounds d : (1 <= digitValue d <= 9)%Z.
Proof. destruct d; simpl; lia. Qed.

(** What [parseInt] reads from the count. *)
Lemma parseCount_cases count :
  ((Z.abs count < 10 ^ 21)%Z /\ parseCount count = count) \/
  ((10 ^ 21 <= count)%Z /\
   parseCount count = digitValue (exponentDigit count)) \/
  ((count <= - 10 ^ 21)%Z /\
   parseCount count = (- digitValue (exponentDigit count))%Z).
Proof.
  unfold Background.parseCount.
  destruct (Z.abs count <? 10 ^ 21)%Z eqn:H.
  - apply Z.ltb_lt in H. by left.
  - apply Z.ltb_ge in H. right.
    destruct (Z.abs_spec count) as [[Hc Ha]|[Hc Ha]].
    + left. split; [lia|]. rewrite Z.sgn_pos; lia.
    + right. split; [lia|]. rewrite Z.sgn_neg; lia.
Qed.

Lemma badgeText_short count : (length (badgeText count) <= 3)%nat.
Proof.
  unfold Background.badgeText. cbv zeta.
  generalize (parseCount count). clear count. intros count.
  destruct (0 <? count)%Z eqn:H0; [|simpl; lia].
  destruct (99 <? count)%Z eqn:H99; [simpl; lia|].
  apply Z.ltb_lt in H0. apply Z.ltb_ge in H99.
  assert (H : forallb (fun k => (length (toString (Z.of_nat k)) <=? 3)%nat)
                (seq 0 100) = true) by (vm_compute; reflexivity).
  rewrite forallb_forall in H.
  specialize (H (Z.to_nat count)). rewrite Z2Nat.id in H by lia.
  apply Nat.leb_le, H, in_seq. lia.
Qed.

Lemma cachedCount_insert w tabId count badges' :
  cachedCount {| tabHiddenCounts := <[tabId := count]> (tabHiddenCounts w);
                 badges := badges' |} tabId = count.
Proof. unfold cachedCount. simpl. by rewrite lookup_insert_eq. Qed.

Lemma updateBadge_consistent tabId w :
  consistent w -> consistent (updateBadge tabId (cachedCount w tabId) w).
Proof.
  intros H t text. simpl. destruct (decide (tabId = t)) as [->|Hne].
  - rewrite lookup_insert_eq. by intros [= <-].
  - rewrite lookup_insert_ne by done. apply H.
Qed.

Lemma handle_consistent m w : consistent w -> consistent (handle m w).
Proof.
  intros H.
  destruct m as [[tabId|] value|tabId|tabId onLinkedIn|tabs|tabId]; simpl.
  - unfold onCountMessage. destruct (tabId =? 0)%nat; [done|].
    unfold handleCountUpdate, updateBadge.
    intros t text. unfold cachedCount. simpl.
    destruct (decide (tabId = t)) as [->|Hne].
    + rewrite !lookup_insert_eq. by intros [= <-].
    + rewrite !lookup_insert_ne by done. apply H.
  - done.
  - unfold onRemoved. intros t text. unfold cachedCount. simpl.
    destruct (decide (tabId = t)) as [->|Hne].
    + by rewrite lookup_delete_eq.
    + rewrite !lookup_delete_ne by done. apply H.
  - unfold onUpdated. destruct onLinkedIn.
    + by apply updateBadge_consistent.
    + unfold updateBadge. intros t text. unfold cachedCount. simpl.
      destruct (decide (tabId = t)) as [->|Hne].
      * rewrite lookup_insert_eq, lookup_delete_eq. by intros [= <-].
      * rewrite lookup_insert_ne, lookup_delete_ne by done. apply H.
  - unfold initializeBadges. revert w H.
    induction tabs as [|t tabs IH]; intros w H; [done|].
    simpl. apply IH. by apply updateBadge_consistent.
  - intros t text. unfold cachedCount. simpl.
    destruct (decide (tabId = t)) as [->|Hne].
    + by rewrite lookup_delete_eq.
    + rewrite lookup_delete_ne by done. apply H.
Qed.

Lemma run_consistent ms w :
  consistent w -> consistent (foldl (fun w m => handle m w) w ms).
Proof.
  revert w. induction ms as [|m ms IH]; intros w H; [done|].
  simpl. apply IH. by apply handle_consistent.
Qed.

Lemma start_consistent : consistent start.
Proof. intros t x. simpl. by rewrite lookup_empty. Qed.

End WithRuntime.

End BadgeFacts.

(** * The claims *)

Import JS Facts Content.

(** ** C1: visibility policy *)

(** C1. [shouldHidePost] returns [false] whenever the filter is paused or the
    word set is empty; otherwise it returns [hasMatch] in blacklist (block)
    mode and its negation in whitelist (allow) mode.  The function reads the
    configuration, the word set and [hasMatch] only: no post is among its
    arguments. *)
Theorem shouldHidePost_policy (config : Config) (wordSet : list (list N))
  (hasMatch : bool) :
  (truthy (paused config) = true \/ wordSet = [] ->
   shouldHidePost config wordSet hasMatch = false) /\
  (truthy (paused config) = false -> wordSet <> [] ->
   (mode config = JString (js "blacklist") ->
    shouldHidePost config wordSet hasMatch = hasMatch) /\
   (mode config = JString (js "whitelist") ->
    shouldHidePost config wordSet hasMatch = negb hasMatch)).
Proof.
  unfold shouldHidePost. split.
  - intros [-> | ->]; [done|]. by rewrite orb_true_r.
  - intros -> Hne. destruct wordSet as [|w ws]; [done|]. simpl.
    split; intros ->; simpl; by destruct hasMatch.
Qed.

Lemma shouldHidePost_policy_witness :
  shouldHidePost
    {| mode := JString (js "blacklist"); paused := JBool true;
       words := JArray [JString (js "x")] |} [js "x"; js "xs"] true = false /\
  shouldHidePost
    {| mode := JString (js "blacklist"); paused := JBool false;
       words := JArray [JString (js "spam")] |} [js "spam"; js "spams"] true
  = true /\
  shouldHidePost
    {| mode := JString (js "whitelist"); paused := JBool false;
       words := JArray [JString (js "spam")] |} [js "spam"; js "spams"] true
  = false.
Proof.
  split; [|split].
  - apply (proj1 (shouldHidePost_policy _ _ _)). left. reflexivity.
  - apply (proj2 (shouldHidePost_policy _ _ _)); [reflexivity|discriminate|].
    reflexivity.
  - apply (proj2 (shouldHidePost_policy
             {| mode := JString (js "whitelist"); paused := JBool false;
                words := JArray [JString (js "spam")] |}
             [js "spam"; js "spams"] true)); [reflexivity|discriminate|].
    reflexivity.
Defined.

(** ** C2: whole-word matching *)

(** C2. The regex matcher of [src/content/dom-utils.js] at a keyword that
    ends with a character outside [\w]: the keyword [c++] comes from the
    expander, the text is canonical, and the match is found inside the token
    [c++20], while the same keyword standing alone between spaces is not
    matched. *)
Theorem matchesAny_inside_token :
  let rt := Reference.runtime in
  let wordSet := DomUtils.generateNormalizedWordSet rt [js "c++"] in
  wordSet = [js "c++"; js "c++s"] /\
  DomUtils.normalizeText rt (js "learning c++20 today")
    = js "learning c++20 today" /\
  DomUtils.matchesAny rt (js "learning c++20 today") wordSet = true /\
  DomUtils.matchesAny rt (js "learning c++ today") wordSet = false.
Proof. vm_compute. repeat split. Qed.

(** ** C3: the normalizer *)

(** C3 (counterexample). In [src/content/dom-utils.js] the combining grapheme
    joiner U+034F is removed with the diacritical marks after the
    decomposition; the two marks it separated are then out of canonical
    order, and a second pass reorders them. *)
Lemma normalizeText_not_idempotent :
  DomUtils.normalizeText Reference.runtime
    (DomUtils.normalizeText Reference.runtime [0x61; 0x20D7; 0x34F; 0x5B0])
  <> DomUtils.normalizeText Reference.runtime [0x61; 0x20D7; 0x34F; 0x5B0].
Proof. vm_compute. discriminate. Qed.

(** C3 (amended). The normalizer of [src/unnamed/part_002] is idempotent on
    every string; the normalizer of [src/content/dom-utils.js] is idempotent
    on every string whose normalized form is left unchanged by lower-casing
    and canonical decomposition; both return the empty string for an empty
    or white-space-only input. *)
Theorem normalizeText_idempotent_settled (rt : Runtime)
  (laws : RuntimeLaws rt) :
  (forall s, DomUtils2.normalizeText rt (DomUtils2.normalizeText rt s)
             = DomUtils2.normalizeText rt s) /\
  (forall s, toLowerCase rt (DomUtils.normalizeText rt s)
               = DomUtils.normalizeText rt s ->
             normalizeNFD rt (DomUtils.normalizeText rt s)
               = DomUtils.normalizeText rt s ->
             DomUtils.normalizeText rt (DomUtils.normalizeText rt s)
             = DomUtils.normalizeText rt s) /\
  (forall s, forallb isSpace s = true ->
             DomUtils.normalizeText rt s = [] /\
             DomUtils2.normalizeText rt s = []).
Proof.
  split; [|split].
  - by apply NormalizerFacts.normalizeText2_idempotent.
  - intros s. by apply (NormalizerFacts.normalizeText1_idempotent rt laws s).
  - by apply NormalizerFacts.normalizeText_blank.
Qed.

Lemma normalizeText_idempotent_settled_witness :
  let rt := Reference.runtime in
  DomUtils2.normalizeText rt (DomUtils2.normalizeText rt (js "Hello, World! #tag"))
    = DomUtils2.normalizeText rt (js "Hello, World! #tag") /\
  DomUtils.normalizeText rt
    (DomUtils.normalizeText rt (js "Procuro um  trabalh" ++ [0xF3; 0x21]))
    = DomUtils.normalizeText rt (js "Procuro um  trabalh" ++ [0xF3; 0x21]) /\
  DomUtils.normalizeText rt [32; 9; 0xA0] = [] /\
  DomUtils2.normalizeText rt [32; 9; 0xA0] = [].
Proof.
  destruct (normalizeText_idempotent_settled Reference.runtime
              ReferenceFacts.runtime_laws) as (H2 & H1 & Hb).
  split; [apply H2|]. split; [apply H1; vm_compute; reflexivity|].
  apply Hb. reflexivity.
Defined.

(** ** C4 and C5: the keyword expander *)

Section Expander.
Context (rt : Runtime) (laws : RuntimeLaws rt).

Lemma ascii_text_settled (s : list N) :
  forallb (fun u => (u <? 128) && ((u <? 65) || (90 <? u))) s = true ->
  toLowerCase rt s = s /\ normalizeNFD rt s = s.
Proof using laws.
  intros H. apply (settled_string _ laws). intros u Hu.
  rewrite forallb_forall in H.
  specialize (H u (proj1 (list_elem_of_In _ _) Hu)).
  apply andb_true_iff in H as [H1%N.ltb_lt H2].
  split; [lia|]. apply (ascii_settled _ laws); [done|].
  apply orb_true_iff in H2 as [H2%N.ltb_lt|H2%N.ltb_lt]; lia.
Qed.

Lemma normalizeText_job :
  DomUtils.normalizeText rt (js "job") = js "job" /\
  DomUtils.normalizeText rt (js "jobs") = js "jobs" /\
  DomUtils2.normalizeText rt (js "job") = js "job" /\
  DomUtils2.normalizeText rt (js "jobs") = js "jobs".
Proof using laws.
  destruct (ascii_text_settled (js "job") eq_refl) as [L1 N1].
  destruct (ascii_text_settled (js "jobs") eq_refl) as [L2 N2].
  repeat split.
  - change (js "job") with (106 :: js "ob") at 1.
    rewrite NormalizerFacts.normalizeText1_cons.
    change (106 :: js "ob") with (js "job"). by rewrite L1, N1.
  - change (js "jobs") with (106 :: js "obs") at 1.
    rewrite NormalizerFacts.normalizeText1_cons.
    change (106 :: js "obs") with (js "jobs"). by rewrite L2, N2.
  - change (js "job") with (106 :: js "ob") at 1.
    rewrite NormalizerFacts.normalizeText2_cons.
    change (106 :: js "ob") with (js "job"). by rewrite L1, N1.
  - change (js "jobs") with (106 :: js "obs") at 1.
    rewrite NormalizerFacts.normalizeText2_cons.
    change (106 :: js "obs") with (js "jobs"). by rewrite L2, N2.
Qed.

End Expander.

(** C4 (counterexample). In [src/unnamed/part_002] the keyword [ia], of
    length 2 and not ending in [s], is expanded to itself alone. *)
Lemma expansion_short_keyword_no_plural :
  let n := DomUtils2.normalizeText Reference.runtime (js "ia") in
  (1 < length n)%nat /\ endsWith 115 n = false /\
  n ++ [115] ∉ DomUtils2.generateNormalizedWordSet Reference.runtime [js "ia"].
Proof.
  vm_compute. split; [lia|]. split; [done|].
  intros H. apply list_elem_of_singleton in H. discriminate.
Qed.

(** C4 (amended). For every normalized keyword of length > 1 the expansion
    includes the keyword.  In [src/content/dom-utils.js] it also includes
    the keyword followed by [s] when the keyword does not end in [s], and the
    keyword without its final [s] when it does.  In [src/unnamed/part_002]
    the plural is added only to keywords longer than 2 and the singular only
    for keywords longer than 3.  In both, [job] gives [job] and [jobs], and
    [jobs] gives [jobs] and [job]. *)
Theorem expansion_variants (rt : Runtime) (laws : RuntimeLaws rt) :
  (forall (words : list (list N)) (word : list N), word ∈ words ->
     let n := DomUtils.normalizeText rt word in
     let set := DomUtils.generateNormalizedWordSet rt words in
     (1 < length n)%nat ->
     n ∈ set /\
     (endsWith 115 n = false -> n ++ [115] ∈ set) /\
     (endsWith 115 n = true -> dropLast n ∈ set)) /\
  (forall (words : list (list N)) (word : list N), word ∈ words ->
     let n := DomUtils2.normalizeText rt word in
     let set := DomUtils2.generateNormalizedWordSet rt words in
     (1 < length n)%nat ->
     n ∈ set /\
     (endsWith 115 n = false -> (2 < length n)%nat -> n ++ [115] ∈ set) /\
     (endsWith 115 n = true -> (3 < length n)%nat -> dropLast n ∈ set)) /\
  (js "job" ∈ DomUtils.generateNormalizedWordSet rt [js "job"] /\
   js "jobs" ∈ DomUtils.generateNormalizedWordSet rt [js "job"] /\
   js "jobs" ∈ DomUtils.generateNormalizedWordSet rt [js "jobs"] /\
   js "job" ∈ DomUtils.generateNormalizedWordSet rt [js "jobs"]) /\
  (js "job" ∈ DomUtils2.generateNormalizedWordSet rt [js "job"] /\
   js "jobs" ∈ DomUtils2.generateNormalizedWordSet rt [js "job"] /\
   js "jobs" ∈ DomUtils2.generateNormalizedWordSet rt [js "jobs"] /\
   js "job" ∈ DomUtils2.generateNormalizedWordSet rt [js "jobs"]).
Proof.
  assert (H1 : forall (words : list (list N)) (word : list N), word ∈ words ->
     let n := DomUtils.normalizeText rt word in
     let set := DomUtils.generateNormalizedWordSet rt words in
     (1 < length n)%nat ->
     n ∈ set /\
     (endsWith 115 n = false -> n ++ [115] ∈ set) /\
     (endsWith 115 n = true -> dropLast n ∈ set)).
  { intros words word Hw n set Hlen.
    destruct (ExpanderFacts.variations1 n Hlen) as (Ha & Hb & Hc).
    assert (Hn : n <> []) by (intros E; rewrite E in Hlen; simpl in Hlen; lia).
    repeat split; intros; apply ExpanderFacts.wordSet1_spec; exists word; auto. }
  assert (H2 : forall (words : list (list N)) (word : list N), word ∈ words ->
     let n := DomUtils2.normalizeText rt word in
     let set := DomUtils2.generateNormalizedWordSet rt words in
     (1 < length n)%nat ->
     n ∈ set /\
     (endsWith 115 n = false -> (2 < length n)%nat -> n ++ [115] ∈ set) /\
     (endsWith 115 n = true -> (3 < length n)%nat -> dropLast n ∈ set)).
  { intros words word Hw n set Hlen.
    destruct (ExpanderFacts.variations2 n Hlen) as (Ha & Hb & Hc).
    assert (Hn : n <> []) by (intros E; rewrite E in Hlen; simpl in Hlen; lia).
    repeat split; intros; apply ExpanderFacts.wordSet2_spec; exists word; auto. }
  destruct (normalizeText_job rt laws) as (J1 & J2 & J3 & J4).
  split; [exact H1|]. split; [exact H2|]. split.
  - pose proof (H1 [js "job"] (js "job")) as Ha.
    pose proof (H1 [js "jobs"] (js "jobs")) as Hb.
    cbv zeta in Ha, Hb. rewrite J1 in Ha. rewrite J2 in Hb.
    destruct Ha as (A1 & A2 & _); [left|simpl; lia|].
    destruct Hb as (B1 & _ & B3); [left|simpl; lia|].
    repeat split; [exact A1|by apply A2|exact B1|by apply B3].
  - pose proof (H2 [js "job"] (js "job")) as Ha.
    pose proof (H2 [js "jobs"] (js "jobs")) as Hb.
    cbv zeta in Ha, Hb. rewrite J3 in Ha. rewrite J4 in Hb.
    destruct Ha as (A1 & A2 & _); [left|simpl; lia|].
    destruct Hb as (B1 & _ & B3); [left|simpl; lia|].
    repeat split;
      [exact A1|apply A2; [done|simpl; lia]|exact B1
      |apply B3; [done|simpl; lia]].
Qed.

Lemma expansion_variants_witness :
  let rt := Reference.runtime in
  js "trabalho" ∈ DomUtils.generateNormalizedWordSet rt
                    [js "x"; js "Trabalh" ++ [0xF3]] /\
  js "trabalhos" ∈ DomUtils.generateNormalizedWordSet rt
                     [js "x"; js "Trabalh" ++ [0xF3]] /\
  js "new" ∈ DomUtils2.generateNormalizedWordSet rt [js "NEWS!"] /\
  js "jobs" ∈ DomUtils2.generateNormalizedWordSet rt [js "job"].
Proof.
  destruct (expansion_variants Reference.runtime ReferenceFacts.runtime_laws)
    as (H1 & H2 & _ & (_ & J & _)).
  pose proof (H1 [js "x"; js "Trabalh" ++ [0xF3]] (js "Trabalh" ++ [0xF3])) as A.
  pose proof (H2 [js "NEWS!"] (js "NEWS!")) as B.
  destruct A as (A1 & A2 & _); [right; left|vm_compute; lia|].
  destruct B as (_ & _ & B3); [left|vm_compute; lia|].
  split; [exact A1|]. split; [apply A2; reflexivity|].
  split; [apply B3; [reflexivity|vm_compute; lia]|exact J].
Defined.

(** C5 (counterexample). In [src/content/dom-utils.js] the one-letter
    keyword [a] is expanded to [a] and [as]. *)
Lemma single_letter_keyword_expanded :
  let n := DomUtils.normalizeText Reference.runtime (js "a") in
  (length n <= 1)%nat /\
  DomUtils.generateNormalizedWordSet Reference.runtime [js "a"]
  = [n; n ++ [115]].
Proof. vm_compute. split; [lia|done]. Qed.

(** C5 (amended). In [src/unnamed/part_002] a normalized keyword of length
    at most 1 is expanded to itself alone.  In [src/content/dom-utils.js] a
    one-character keyword other than [s] is expanded to itself and to its
    plural, and [s] to itself alone. *)
Theorem short_keyword_expansion :
  (forall word : list N, (length word <= 1)%nat ->
     DomUtils2.generateWordVariations word = [word]) /\
  (forall (rt : Runtime) (word : list N),
     let n := DomUtils2.normalizeText rt word in
     (length n <= 1)%nat ->
     DomUtils2.generateNormalizedWordSet rt [word]
     = match n with [] => [] | _ => [n] end) /\
  (forall word : list N, length word = 1%nat ->
     DomUtils.generateWordVariations word
     = if endsWith 115 word then [word] else [word; word ++ [115]]).
Proof.
  split; [|split].
  - intros word H. unfold DomUtils2.generateWordVariations.
    by assert ((length word <? 2)%nat = true) as -> by (apply Nat.ltb_lt; lia).
  - intros rt word n H. unfold DomUtils2.generateNormalizedWordSet. simpl.
    fold n. destruct n as [|c n']; [done|].
    unfold DomUtils2.generateWordVariations.
    by assert ((length (c :: n') <? 2)%nat = true) as ->
      by (apply Nat.ltb_lt; simpl in *; lia).
  - intros word H. destruct word as [|c [|d w]]; try done.
    unfold DomUtils.generateWordVariations, endsWith. simpl.
    by destruct (c =? 115).
Qed.

Lemma short_keyword_expansion_witness :
  DomUtils2.generateWordVariations (js "a") = [js "a"] /\
  DomUtils2.generateNormalizedWordSet Reference.runtime [js "A!"] = [js "a"] /\
  DomUtils.generateWordVariations (js "s") = [js "s"].
Proof.
  destruct short_keyword_expansion as (H1 & H2 & H3).
  split; [apply H1; simpl; lia|].
  split; [apply (H2 Reference.runtime (js "A!")); vm_compute; lia|].
  apply (H3 (js "s")). reflexivity.
Defined.

(** ** C10: keywords with white space in the token matcher *)

(** C10. In [src/unnamed/part_002] a match is the equality, up to case, of a
    keyword with a piece of the text between white space, cleaned of the
    characters outside [\w] and U+00C0-U+017F; a keyword that contains a
    white-space character is therefore never the cause of a match. *)
Theorem spaced_keyword_never_matches (rt : Runtime) (laws : RuntimeLaws rt) :
  (forall text wordSet : _,
     DomUtils2.matchesAny rt text wordSet = true <->
     text <> [] /\
     exists word, word ∈ wordSet /\ word <> [] /\
       exists piece,
         piece ∈ DomUtils2.splitSpaces [] false (toLowerCase rt text) /\
         toLowerCase rt (DomUtils2.cleanWord piece) = toLowerCase rt word) /\
  (forall (text : list N) (wordSet : list (list N)),
     (forall word, word ∈ wordSet -> existsb isSpace word = true) ->
     DomUtils2.matchesAny rt text wordSet = false) /\
  (forall (text : list N) (wordSet : list (list N)),
     DomUtils2.matchesAny rt text wordSet = true ->
     exists word, word ∈ wordSet /\ existsb isSpace word = false /\
       DomUtils2.matchesAny rt text [word] = true).
Proof.
  split; [|split].
  - intros text wordSet. rewrite MatcherFacts.matchesAny2_spec.
    unfold tokenMatch. split.
    + intros [Ht (word & Hw & Hne & H)]. split; [done|]. exists word.
      split; [done|]. split; [done|].
      apply existsb_exists in H as (piece & Hp & Heq).
      exists piece. split; [by apply list_elem_of_In|].
      by apply ReferenceFacts.strEq_eq.
    + intros [Ht (word & Hw & Hne & piece & Hp & Heq)]. split; [done|].
      exists word. split; [done|]. split; [done|].
      apply existsb_exists. exists piece.
      split; [by apply list_elem_of_In|]. by apply ReferenceFacts.strEq_eq.
  - intros text wordSet Hall.
    destruct (DomUtils2.matchesAny rt text wordSet) eqn:H; [exfalso|done].
    apply MatcherFacts.matchesAny2_spec in H as [_ (word & Hw & _ & H)].
    rewrite (MatcherFacts.tokenMatch_spaced rt laws) in H; [done|].
    by apply Hall.
  - intros text wordSet H.
    apply MatcherFacts.matchesAny2_spec in H as [Ht (word & Hw & Hne & H)].
    exists word. split; [done|]. split.
    + destruct (existsb isSpace word) eqn:Hs; [|done].
      by rewrite (MatcherFacts.tokenMatch_spaced rt laws) in H.
    + apply MatcherFacts.matchesAny2_spec. split; [done|].
      exists word. split; [left|done].
Qed.

Lemma spaced_keyword_never_matches_witness :
  DomUtils2.matchesAny Reference.runtime (js "i like machine learning")
    [js "machine learning"; js "machine learnings"] = false.
Proof.
  apply (spaced_keyword_never_matches Reference.runtime
           ReferenceFacts.runtime_laws).
  intros word Hw.
  apply elem_of_cons in Hw as [->|Hw]; [reflexivity|].
  apply list_elem_of_singleton in Hw as ->. reflexivity.
Defined.

(** ** C9: configuration read faults *)

(** C9. When the read of the configuration fails, by a rejected promise or by
    a value on which the [try] block throws, [loadConfig] leaves the default
    configuration (blacklist mode, not paused, no keywords) and an empty word
    set; in that state [shouldHidePost] is [false] for every post, and the
    completion of a pass neither hides a post nor changes the counter. *)
Theorem loadConfig_fallback (V : Variant) (outcome : option jsval) :
  readFault outcome ->
  loadConfig V outcome = (defaultConfig, []) /\
  defaultConfig = {| mode := JString (js "blacklist"); paused := JBool false;
                     words := JArray [] |} /\
  (forall hasMatch : bool,
     shouldHidePost (fst (loadConfig V outcome)) (snd (loadConfig V outcome))
       hasMatch = false) /\
  (forall (e : Engine) (post : nat),
     let e0 := withConfig (fst (loadConfig V outcome))
                 (snd (loadConfig V outcome)) e in
     sessionHiddenCount (processPostResume V post e0) = sessionHiddenCount e /\
     exists new, effects (processPostResume V post e0) = effects e ++ new /\
       forall q, HidePost q ∉ new).
Proof.
  intros Hfault.
  assert (Hload : loadConfig V outcome = (defaultConfig, [])).
  { unfold loadConfig. destruct outcome as [v|]; [|done].
    simpl in Hfault. destruct (configOf v) as [config|]; [|done].
    by rewrite Hfault. }
  rewrite Hload. split; [done|]. split; [done|]. split; [done|].
  intros e post e0.
  destruct (ContentFacts.resume_cases V post e0) as
    [->|(p & Hp & [[Hhide _]|[_ (extra & Hextra & ->)]])].
  - split; [done|]. exists []. split; [by rewrite app_nil_r|].
    intros q. apply not_elem_of_nil.
  - done.
  - split; [done|]. exists ([ShowPost post] ++ extra). simpl.
    split; [by rewrite <- app_assoc|].
    intros q [Hq|Hq]%elem_of_cons; [done|].
    destruct Hextra as [-> | ->]; [by apply elem_of_nil in Hq|].
    by apply list_elem_of_singleton in Hq.
Qed.

Lemma loadConfig_fallback_witness :
  loadConfig (script1 Reference.runtime) None = (defaultConfig, []) /\
  loadConfig (script2 Reference.runtime)
    (Some (JObject [(js "mode", JString (js "whitelist"));
                    (js "paused", JBool false);
                    (js "words", JString (js "spam"))]))
  = (defaultConfig, []).
Proof.
  split.
  - apply (loadConfig_fallback (script1 Reference.runtime) None). exact I.
  - apply (loadConfig_fallback (script2 Reference.runtime)). reflexivity.
Defined.

(** ** C6: at-most-once processing *)

Section Processing.
Context (V : Variant).

Lemma resume_after_enter (e : Engine) (post : nat) (p : Post) before after :
  document e !! post = Some p -> processed p = false ->
  post ∉ suspended e ->
  normalizeText V (extractPostText p) <> [] ->
  suspended (processPostEnter post e) = before ++ post :: after ->
  let e' := processPostResume V post
              (withSuspended (before ++ after) (processPostEnter post e)) in
  isProcessed e' post = true /\
  exists new, effects e' = effects e ++ new /\
    visibilityEffects post new = 1%nat.
Proof.
  intros Hp Hpr Hns Htext Hs.
  destruct (ContentFacts.enter_cases post e) as
    [[_ [H|H]]|(p0 & Hp0 & _ & p' & Hp' & _ & Hblocks & Heq)].
  { congruence. }
  { unfold isProcessed in H. rewrite Hp in H. congruence. }
  assert (p0 = p) as -> by congruence.
  rewrite Heq in *. cbv zeta.
  set (e1 := withSuspended (before ++ after) _).
  assert (Hdoc : document e1 !! post = Some p').
  { unfold e1. simpl. by rewrite lookup_insert_eq. }
  assert (Htext' : normalizeText V (extractPostText p') <> []).
  { unfold extractPostText, getTextContentElements. rewrite Hblocks.
    exact Htext. }
  destruct (ContentFacts.resume_cases V post e1) as
    [Hid|(p1 & Hp1 & [[_ ->]|[_ (extra & Hextra & ->)]])].
  - exfalso. unfold processPostResume in Hid. rewrite Hdoc in Hid.
    destruct (normalizeText V (extractPostText p')) as [|c t] eqn:Hn; [done|].
    revert Hid.
    destruct (shouldHidePost _ _ _);
      [|destruct (mode _) as [| | | |m| |];
        try destruct (highlights V && strEq m (js "whitelist") && _)];
      intros Hid; apply (f_equal effects) in Hid; simpl in Hid;
      apply (f_equal length) in Hid; rewrite ?length_app in Hid;
      simpl in Hid; lia.
  - split.
    + unfold isProcessed. simpl. rewrite lookup_insert_eq. simpl.
      assert (p1 = p') as -> by congruence. done.
    + eexists. split; [simpl; by rewrite <- app_assoc|].
      unfold visibilityEffects. simpl. by rewrite Nat.eqb_refl.
  - split.
    + unfold isProcessed. simpl. rewrite lookup_insert_eq. simpl.
      assert (p1 = p') as -> by congruence. done.
    + eexists. split; [simpl; by rewrite <- app_assoc|].
      unfold visibilityEffects. simpl. rewrite Nat.eqb_refl.
      by destruct Hextra as [-> | ->].
Qed.

End Processing.

(** What the marker does ensure.  [processPost] returns at once, leaving the
    state as it is, for a post that carries the marker; for any other post
    it sets the marker before it suspends, without any effect yet, so that
    a second call entered in between changes nothing.  As long as no turn
    clears the markers (no [reprocessAllPosts], no restart of the
    observer), whatever the order of the turns and the changes of the page,
    a post that was not marked and had no suspended call at the start is
    hidden or shown at most once; discovered twice before or after its pass
    completes, a post with text is hidden or shown exactly once. *)
Theorem processPost_at_most_once (V : Variant) :
  (forall (e : Engine) (post : nat),
     isProcessed e post = true -> processPostEnter post e = e) /\
  (forall (e : Engine) (post : nat) (p : Post),
     document e !! post = Some p -> processed p = false ->
     isProcessed (processPostEnter post e) post = true /\
     post ∈ suspended (processPostEnter post e) /\
     effects (processPostEnter post e) = effects e /\
     sessionHiddenCount (processPostEnter post e) = sessionHiddenCount e) /\
  (forall (e : Engine) (post : nat),
     processPostEnter post (processPostEnter post e)
     = processPostEnter post e) /\
  (forall (e : Engine) (evs : list event) (e' : Engine) (post : nat),
     run V e evs e' ->
     forallb (fun ev => negb (clearsMarkers ev)) evs = true ->
     isProcessed e post = false -> post ∉ suspended e ->
     exists new, effects e' = effects e ++ new /\
       (visibilityEffects post new <= 1)%nat /\
       (hideEffects post new <= 1)%nat) /\
  (forall (e : Engine) (post : nat) (p : Post) (evs : list event)
          (e' : Engine),
     document e !! post = Some p -> processed p = false ->
     post ∉ suspended e -> normalizeText V (extractPostText p) <> [] ->
     evs = [Discover post; Discover post; Resume post] \/
     evs = [Discover post; Resume post; Discover post] ->
     run V e evs e' ->
     exists new, effects e' = effects e ++ new /\
       visibilityEffects post new = 1%nat).
Proof.
  split; [intros e post; apply ContentFacts.enter_processed|].
  split; [intros e post p; apply ContentFacts.enter_marks|].
  split; [intros e post; apply ContentFacts.enter_twice|]. split.
  - intros e evs e' post Hrun Hevs Hpr Hns.
    destruct (ContentFacts.effects_run V _ _ _ Hrun) as (new & Hnew).
    exists new. split; [done|].
    assert (H : atMostOnce (visibilityEffects post (effects e)) post e').
    { eapply ContentFacts.atMostOnce_run; [done|done|].
      unfold atMostOnce. rewrite Hpr.
      rewrite ContentFacts.occurrences_none by done. lia. }
    unfold atMostOnce in H. rewrite Hnew in H.
    rewrite ContentFacts.visibilityEffects_app in H.
    assert (visibilityEffects post new <= 1)%nat
      by (destruct (isProcessed e' post); lia).
    split; [done|]. pose proof (ContentFacts.hide_le_visibility post new). lia.
  - intros e post p evs e' Hp Hpr Hns Htext Hevs Hrun.
    destruct Hevs as [-> | ->].
    + inversion Hrun as [|? ? e1 ? ? Hs1 Hr1]; subst.
      inversion Hs1; subst.
      inversion Hr1 as [|? ? e2 ? ? Hs2 Hr2]; subst.
      inversion Hs2; subst.
      rewrite ContentFacts.enter_twice in Hr2.
      inversion Hr2 as [|? ? e3 ? ? Hs3 Hr3]; subst.
      inversion Hs3; subst. inversion Hr3; subst.
      by destruct (resume_after_enter V e post p before after) as [_ H].
    + inversion Hrun as [|? ? e1 ? ? Hs1 Hr1]; subst.
      inversion Hs1; subst.
      inversion Hr1 as [|? ? e2 ? ? Hs2 Hr2]; subst.
      inversion Hs2; subst.
      inversion Hr2 as [|? ? e3 ? ? Hs3 Hr3]; subst.
      inversion Hs3; subst. inversion Hr3; subst.
      destruct (resume_after_enter V e post p before after) as [Hm H];
        try done.
      by rewrite ContentFacts.enter_processed.
Qed.

(** A feed with one post, and the configuration of the first end-to-end
    scenario: block mode, keyword [spam]. *)
Lemma processPost_at_most_once_witness :
  let V := script1 Reference.runtime in
  let post := {| attached := true; blocks := [js "This is SPAM content"];
                 seeMore := false;
                 processed := false; expanded := false; hidden := false |} in
  let e := withConfig
             {| mode := JString (js "blacklist"); paused := JBool false;
                words := JArray [JString (js "spam")] |}
             [js "spam"; js "spams"]
             (withDocument {[ 1%nat := post ]} initial) in
  let e' := processPostResume V 1%nat
              (withSuspended ([] ++ [])
                 (processPostEnter 1%nat (processPostEnter 1%nat e))) in
  run V e [Discover 1%nat; Discover 1%nat; Resume 1%nat] e' /\
  (exists new, effects e' = effects e ++ new /\
     visibilityEffects 1%nat new = 1%nat) /\
  (exists new, effects e' = effects e ++ new /\
     (visibilityEffects 1%nat new <= 1)%nat /\
     (hideEffects 1%nat new <= 1)%nat) /\
  processPostEnter 1%nat e' = e'.
Proof.
  intros V post e e'.
  destruct (processPost_at_most_once V) as (Hnoop & _ & _ & Hmost & Honce).
  assert (Hrun : run V e [Discover 1%nat; Discover 1%nat; Resume 1%nat] e').
  { eapply run_cons; [apply step_discover|].
    eapply run_cons; [apply step_discover|].
    eapply run_cons; [apply (step_resume V _ 1%nat [] []); reflexivity|].
    apply run_nil. }
  split; [exact Hrun|]. split; [|split].
  - apply (Honce e 1%nat post
             [Discover 1%nat; Discover 1%nat; Resume 1%nat] e').
    + reflexivity.
    + reflexivity.
    + apply not_elem_of_nil.
    + vm_compute. discriminate.
    + by left.
    + exact Hrun.
  - apply (Hmost e [Discover 1%nat; Discover 1%nat; Resume 1%nat] e' 1%nat).
    + exact Hrun.
    + reflexivity.
    + reflexivity.
    + apply not_elem_of_nil.
  - apply Hnoop. reflexivity.
Defined.

(** C6. The marker does not make the processing at-most-once per epoch.
    [reprocessAllPosts] clears the marker of a post whose call of
    [processPost] is still suspended at [await expandSeeMoreContent] and
    enters the post again; the two calls then complete in the same epoch,
    and each of them hides the post and adds 1 to the counter.  With one
    post in the feed, saving the keyword [spam] in the popup (the change of
    the stored words, then the [reprocess] message) leaves the post hidden
    twice and the counter at 2 in [src/unnamed/part_003]; so does, in the
    content script of [src/content/dom-utils.js], a [reprocess] message that
    arrives after the observer has discovered the post. *)
Theorem processPost_twice_after_reprocess :
  let post := {| attached := true; blocks := [js "This is SPAM content"];
                 seeMore := true; processed := false; expanded := false;
                 hidden := false |} in
  let e := withDocument {[ 1%nat := post ]} initial in
  let newWords := Some (JArray [JString (js "spam")]) in
  (let V := script1 Reference.runtime in
   let e1 := storageChanged V None None newWords e in
   let e2 := reprocessAllPosts V e1 in
   let e3 := processPostResume V 1%nat (withSuspended ([] ++ [1%nat]) e2) in
   let e4 := processPostResume V 1%nat (withSuspended ([] ++ []) e3) in
   run V e [StorageChanged None None newWords; Reprocess] e2 /\
   run V e2 [Resume 1%nat; Resume 1%nat] e4 /\
   suspended e1 = [1%nat] /\ suspended e2 = [1%nat; 1%nat] /\
   sessionHiddenCount e2 = 0%Z /\ effects e2 = [] /\
   effects e4 = [HidePost 1%nat; NotifyCount 1; HidePost 1%nat; NotifyCount 2]
   /\ sessionHiddenCount e4 = 2%Z /\ getAllFeedPosts e4 = [1%nat]) /\
  (let V := script2 Reference.runtime in
   let e0 := withConfig
               {| mode := JString (js "blacklist"); paused := JBool false;
                  words := JArray [JString (js "spam")] |}
               [js "spam"; js "spams"] e in
   let e1 := processPostEnter 1%nat e0 in
   let e2 := reprocessAllPosts V e1 in
   let e3 := processPostResume V 1%nat (withSuspended ([] ++ [1%nat]) e2) in
   let e4 := processPostResume V 1%nat (withSuspended ([] ++ []) e3) in
   run V e0 [Discover 1%nat; Reprocess] e2 /\
   run V e2 [Resume 1%nat; Resume 1%nat] e4 /\
   suspended e1 = [1%nat] /\ suspended e2 = [1%nat; 1%nat] /\
   sessionHiddenCount e2 = 0%Z /\ effects e2 = [] /\
   effects e4 = [HidePost 1%nat; NotifyCount 1; HidePost 1%nat; NotifyCount 2]
   /\ sessionHiddenCount e4 = 2%Z /\ getAllFeedPosts e4 = [1%nat]).
Proof.
  intros post e newWords. split.
  - intros V e1 e2 e3 e4.
    split; [|split].
    + eapply run_cons; [apply step_storage|].
      eapply run_cons; [apply step_reprocess|]. apply run_nil.
    + eapply run_cons;
        [apply (step_resume V e2 1%nat [] [1%nat]); vm_compute; reflexivity|].
      eapply run_cons;
        [apply (step_resume V e3 1%nat [] []); vm_compute; reflexivity|].
      apply run_nil.
    + repeat split; vm_compute; reflexivity.
  - intros V e0 e1 e2 e3 e4.
    split; [|split].
    + eapply run_cons; [apply step_discover|].
      eapply run_cons; [apply step_reprocess|]. apply run_nil.
    + eapply run_cons;
        [apply (step_resume V e2 1%nat [] [1%nat]); vm_compute; reflexivity|].
      eapply run_cons;
        [apply (step_resume V e3 1%nat [] []); vm_compute; reflexivity|].
      apply run_nil.
    + repeat split; vm_compute; reflexivity.
Qed.

(** ** C7: the session counter *)

(** C7. The counter is never negative.  A turn that runs
    [reprocessAllPosts], or the navigation to another view of the feed,
    leaves it at 0; any other turn leaves it unchanged, or adds 1 to it, and
    it adds 1 exactly when it is the completion of a pass that hides a post.
    After a full reprocess the counter is 0, no post has been hidden or
    shown by the reprocess itself, and the counter stays 0 until a pass
    completes. *)
Theorem sessionHiddenCount_epochs (V : Variant) :
  (forall (evs : list event) (e : Engine),
     run V initial evs e -> (0 <= sessionHiddenCount e)%Z) /\
  (forall (e : Engine) (ev : event) (e' : Engine),
     step V e ev e' ->
     if resetsCounter ev then sessionHiddenCount e' = 0%Z
     else
       (sessionHiddenCount e' = sessionHiddenCount e /\
        exists new, effects e' = effects e ++ new /\
          forall post, HidePost post ∉ new) \/
       (isResume ev = true /\
        sessionHiddenCount e' = (sessionHiddenCount e + 1)%Z /\
        exists post, effects e' =
          effects e ++ [HidePost post; NotifyCount (sessionHiddenCount e + 1)])) /\
  (forall (e : Engine) (ev : event) (e1 : Engine) (evs : list event)
          (e2 : Engine),
     step V e ev e1 -> reprocesses ev = true ->
     run V e1 evs e2 ->
     forallb (fun ev => negb (isResume ev)) evs = true ->
     sessionHiddenCount e1 = 0%Z /\ effects e1 = effects e /\
     sessionHiddenCount e2 = 0%Z).
Proof.
  split; [|split].
  - intros evs e Hrun. by apply (ContentFacts.count_nonneg_run V _ _ _ Hrun).
  - apply ContentFacts.count_step.
  - intros e ev e1 evs e2 Hstep Hev Hrun Hevs.
    assert (H1 : sessionHiddenCount e1 = 0%Z).
    { pose proof (ContentFacts.count_step V _ _ _ Hstep) as Hc.
      assert (resetsCounter ev = true) as Hr by (by destruct ev).
      by rewrite Hr in Hc. }
    split; [done|]. split.
    + destruct Hstep; try done.
      * apply ContentFacts.reprocess_quiet.
      * by destruct (ContentFacts.reprocess_quiet V (withTimers n e)) as [-> _].
      * destruct (ContentFacts.storageChanged_cases V newMode newPaused
                    newWords e) as [[_ (c & ws & ->)]|[Hr _]]; [|congruence].
        destruct (ContentFacts.reprocess_quiet V
                    (withConfig c ws (modeChanged newMode e))) as [-> _].
        by destruct (ContentFacts.modeChanged_cases newMode e) as [-> | ->].
    + by apply (ContentFacts.count_zero_run V _ _ _ Hrun).
Qed.

Lemma sessionHiddenCount_epochs_witness :
  let V := script2 Reference.runtime in
  let post := {| attached := true; blocks := [js "This is SPAM content"];
                 seeMore := true;
                 processed := false; expanded := false; hidden := false |} in
  let newWords := Some (JArray [JString (js "spam")]) in
  let e1 := withDocument (<[1%nat := post]> (document initial)) initial in
  let e2 := storageChanged V None None newWords e1 in
  let e3 := processPostResume V 1%nat (withSuspended ([] ++ []) e2) in
  run V initial
    [Appear 1%nat post; StorageChanged None None newWords; Resume 1%nat] e3 /\
  (0 <= sessionHiddenCount e3)%Z /\
  sessionHiddenCount e3 = (sessionHiddenCount e2 + 1)%Z /\
  sessionHiddenCount (reprocessAllPosts V e3) = 0%Z /\
  sessionHiddenCount (urlChanged true e3) = 0%Z /\
  sessionHiddenCount (processPostEnter 2%nat (reprocessAllPosts V e3)) = 0%Z.
Proof.
  intros V post newWords e1 e2 e3.
  destruct (sessionHiddenCount_epochs V) as (Hnn & Hstep & Hre).
  assert (Hresume : step V e2 (Resume 1%nat) e3).
  { apply (step_resume V e2 1%nat [] []). reflexivity. }
  assert (Hrun : run V initial
            [Appear 1%nat post; StorageChanged None None newWords;
             Resume 1%nat] e3).
  { eapply run_cons; [apply (step_appear V initial 1%nat post); reflexivity|].
    eapply run_cons; [apply (step_storage V e1 None None newWords)|].
    eapply run_cons; [exact Hresume|]. apply run_nil. }
  split; [exact Hrun|]. split; [exact (Hnn _ _ Hrun)|].
  split; [|split; [|split]].
  - pose proof (Hstep e2 (Resume 1%nat) e3 Hresume) as H.
    simpl in H. destruct H as [[_ (new & Hnew & Hno)]|(_ & H & _)]; [|exact H].
    exfalso. apply (Hno 1%nat).
    assert (new = [HidePost 1%nat; NotifyCount 1%Z]) as ->
      by (vm_compute in Hnew; congruence).
    left.
  - exact (Hstep e3 Reprocess _ (step_reprocess V e3)).
  - exact (Hstep e3 (UrlChanged true) _ (step_url V e3 true)).
  - apply (Hre e3 Reprocess (reprocessAllPosts V e3) [Discover 2%nat]).
    + apply step_reprocess.
    + reflexivity.
    + eapply run_cons; [apply step_discover|apply run_nil].
    + reflexivity.
Defined.

(** ** C8: highlighting *)

Lemma insertByLength_perm (x : list N) (l : list (list N)) :
  WordSet.insertByLength x l ≡ₚ x :: l.
Proof.
  induction l as [|y l IH]; [done|]. simpl.
  destruct (length y <=? length x)%nat; [done|].
  rewrite IH. apply Permutation_swap.
Qed.

(** The words are tried in an order that is a rearrangement of the set. *)
Lemma sortLongestFirst_perm (l : list (list N)) :
  WordSet.sortLongestFirst l ≡ₚ l.
Proof.
  induction l as [|x l IH]; [done|]. simpl.
  by rewrite insertByLength_perm, IH.
Qed.

Lemma insertByLength_sorted (x : list N) (l : list (list N)) :
  StronglySorted (fun a b : list N => (length b <= length a)%nat) l ->
  StronglySorted (fun a b : list N => (length b <= length a)%nat)
    (WordSet.insertByLength x l).
Proof.
  induction 1 as [|y l Hs IH Hy]; simpl.
  - repeat constructor.
  - destruct (length y <=? length x)%nat eqn:Hxy.
    + apply Nat.leb_le in Hxy. constructor; [by constructor|].
      constructor; [done|].
      eapply Forall_impl; [exact Hy|]. simpl. intros z Hz. lia.
    + apply Nat.leb_gt in Hxy. constructor; [done|].
      apply (Forall_forall _ _). intros z Hz.
      rewrite (insertByLength_perm x l) in Hz.
      apply elem_of_cons in Hz as [->|Hz]; [lia|].
      by apply (proj1 (Forall_forall _ _) Hy).
Qed.

(** [highlightKeywords] of [src/content/dom-utils.js] tries the longer words
    first. *)
Lemma sortLongestFirst_sorted (l : list (list N)) :
  StronglySorted (fun a b : list N => (length b <= length a)%nat)
    (WordSet.sortLongestFirst l).
Proof.
  induction l as [|x l IH]; [constructor|].
  simpl. by apply insertByLength_sorted.
Qed.

(** In [src/unnamed/part_002] the keywords are tried in the order of the
    set; as soon as a second keyword has a match in a text node the function
    ends with an exception and nothing is highlighted. *)
Lemma highlightElement_second_match_throws :
  let rt := Reference.runtime in
  Highlight2.highlightElement rt [js "job"; js "jobs"]
    [Highlight2.Text (js "jobs and job")] = None /\
  Highlight2.highlightElement rt [js "learning"; js "machine learning"]
    [Highlight2.Text (js "machine learning")] = None /\
  Highlight2.highlightElement rt [js "learning"; js "machine learning"]
    [Highlight2.Text (js "deep learning")]
  = Some (Some [Highlight2.Text (js "deep ");
                Highlight2.strong (js "learning")]).
Proof. vm_compute. repeat split. Qed.

(** C8. [highlightKeywords] of [src/content/dom-utils.js] at the keywords
    [machine learning] and [learning]: the words are sorted longest first,
    the longer keyword is wrapped first, and the shorter one is then matched
    inside the span that was just wrapped and wrapped again. *)
Theorem highlightKeywords_nested_mark :
  let rt := Reference.runtime in
  let wordSet :=
    DomUtils.generateNormalizedWordSet rt
      [js "learning"; js "machine learning"] in
  WordSet.sortLongestFirst wordSet
  = [js "machine learnings"; js "machine learning"; js "learnings";
     js "learning"] /\
  DomUtils.highlightKeywords rt (js "machine learning") wordSet
    (js "whitelist")
  = Some (DomUtils.markOpen ++ js "machine "
          ++ DomUtils.markOpen ++ js "learning" ++ DomUtils.markClose
          ++ DomUtils.markClose).
Proof. vm_compute. split; reflexivity. Qed.

(** * Further properties of the text utilities *)

Import JS Facts Content Props.

(** X1. The text both normalizers return has no white space at its ends, and
    the white space inside it is made of single U+0020 characters: no other
    white-space character is left and no two stand side by side. *)
Theorem normalizeText_well_spaced (rt : Runtime) (s : list N) :
  wellSpaced (DomUtils.normalizeText rt s) /\
  wellSpaced (DomUtils2.normalizeText rt s).
Proof.
  split; [apply TextFacts.normalizeText1_wellSpaced
         |apply TextFacts.normalizeText2_wellSpaced].
Qed.

(** X2. Every code unit of the text the normalizer of
    [src/unnamed/part_002] returns is a character of [\w] (an ASCII letter
    or digit, or the underscore), a character of the range U+00C0-U+017F,
    or a space U+0020: every other character of the input has been removed
    or replaced by a space.  The underscore is kept. *)
Theorem normalizeText_kept_units (rt : Runtime) (s : list N) :
  Forall keptUnit (DomUtils2.normalizeText rt s).
Proof.
  apply Forall_forall. intros u Hu.
  pose proof (TextFacts.normalizeText2_kept rt s u Hu) as Hk.
  destruct (TextFacts.normalizeText2_wellSpaced rt s) as (Hsp & _).
  unfold keptUnit, isKept in *.
  destruct (isWordChar u); [by left|]. right.
  destruct (isSpace u) eqn:Hs; [left; by apply Hsp|].
  right. simpl in Hk. Facts.bools. lia.
Qed.

(** X3. Nothing the normalizers remove is left in their result: no combining
    mark of U+0300-U+036F, no URL, no mention or hashtag and no emoji of the
    listed ranges starts at any position of the normalized text. *)
Theorem normalizeText_scrubbed (rt : Runtime) (laws : RuntimeLaws rt)
  (s : list N) :
  scrubbed rt (DomUtils.normalizeText rt s) /\
  scrubbed rt (DomUtils2.normalizeText rt s).
Proof.
  split; [by apply TextFacts.normalizeText1_scrubbed
         |by apply TextFacts.normalizeText2_scrubbed].
Qed.

Lemma normalizeText_scrubbed_witness :
  let rt := Reference.runtime in
  let s := js "Hi @bob, see https://a.io/x #jobs caf" ++ [0xE9] in
  DomUtils.normalizeText rt s = js "hi , see cafe" /\
  DomUtils2.normalizeText rt s = js "hi see cafe" /\
  scrubbed rt (DomUtils.normalizeText rt s) /\
  scrubbed rt (DomUtils2.normalizeText rt s).
Proof.
  split; [vm_compute; reflexivity|]. split; [vm_compute; reflexivity|].
  apply (normalizeText_scrubbed Reference.runtime ReferenceFacts.runtime_laws).
Defined.

(** X4. The word set of the expander has no duplicate and never holds the
    empty string; its elements are exactly the forms derived from the
    keywords whose normalized form is not empty: the normalized keyword, its
    plural and its singular, under the length conditions of each script. *)
Theorem generateNormalizedWordSet_members (rt : Runtime)
  (words : list (list N)) :
  let set1 := DomUtils.generateNormalizedWordSet rt words in
  let set2 := DomUtils2.generateNormalizedWordSet rt words in
  (NoDup set1 /\ Forall (fun y => y <> []) set1 /\
   forall y, y ∈ set1 <->
     exists word, word ∈ words /\ DomUtils.normalizeText rt word <> [] /\
       variation1 (DomUtils.normalizeText rt word) y) /\
  (NoDup set2 /\ Forall (fun y => y <> []) set2 /\
   forall y, y ∈ set2 <->
     exists word, word ∈ words /\ DomUtils2.normalizeText rt word <> [] /\
       variation2 (DomUtils2.normalizeText rt word) y).
Proof.
  assert (M1 : forall y, y ∈ DomUtils.generateNormalizedWordSet rt words <->
     exists word, word ∈ words /\ DomUtils.normalizeText rt word <> [] /\
       variation1 (DomUtils.normalizeText rt word) y).
  { intros y. rewrite ExpanderFacts.wordSet1_spec.
    split; intros (w & Hw & Hn & Hy); exists w; (split; [done|]);
      (split; [done|]); by apply (TextFacts.variations1_cases _ _ Hn). }
  assert (M2 : forall y, y ∈ DomUtils2.generateNormalizedWordSet rt words <->
     exists word, word ∈ words /\ DomUtils2.normalizeText rt word <> [] /\
       variation2 (DomUtils2.normalizeText rt word) y).
  { intros y. rewrite ExpanderFacts.wordSet2_spec.
    split; intros (w & Hw & Hn & Hy); exists w; (split; [done|]);
      (split; [done|]); by apply (TextFacts.variations2_cases _ _ Hn). }
  cbv zeta. split; (split; [by apply TextFacts.wordSet_NoDup, NoDup_nil|]).
  - split; [|exact M1]. apply Forall_forall. intros y Hy.
    apply M1 in Hy as (w & _ & Hn & Hy).
    eapply TextFacts.variation_nonempty; [exact Hn|].
    destruct Hy as [?|[(_ & ?)|(_ & ? & ?)]]; [by left|right; by left|].
    right. by right.
  - split; [|exact M2]. apply Forall_forall. intros y Hy.
    apply M2 in Hy as (w & _ & Hn & Hy).
    eapply TextFacts.variation_nonempty; [exact Hn|].
    destruct Hy as [?|[(_ & _ & ?)|(_ & ? & ?)]]; [by left|right; by left|].
    right. right. split; [lia|done].
Qed.

(** X5. Escaping makes a keyword a literal pattern, so the regex matcher of
    [src/content/dom-utils.js] answers [true] exactly when the text is not
    empty and some non-empty keyword of the set occurs in the lower-cased
    text, unit by unit up to the case folding of the [i] flag, with a word
    boundary on each side. *)
Theorem matchesAny_regex_occurrence (rt : Runtime) (text : list N)
  (wordSet : list (list N)) :
  (forall word,
     WordRegex.patternUnits (WordRegex.escapeRegExp word) = word) /\
  (DomUtils.matchesAny rt text wordSet = true <->
   text <> [] /\
   exists word, word ∈ wordSet /\ word <> [] /\
     occurs rt word None (toLowerCase rt text)).
Proof.
  split; [apply RegexFacts.patternUnits_escape
         |apply TextFacts.matchesAny1_spec].
Qed.

(** X6. When every keyword of the set begins and ends with a character of
    [\w], a match of the regex matcher is a whole word: some keyword occurs
    in the lower-cased text, up to case, with no character of [\w] right
    before or right after it. *)
Theorem regex_matcher_whole_word (rt : Runtime) (laws : RuntimeLaws rt)
  (text : list N) (wordSet : list (list N)) :
  (forall word, word ∈ wordSet ->
     WordRegex.isWordAt (head word) = true /\
     WordRegex.isWordAt (last word) = true) ->
  DomUtils.matchesAny rt text wordSet = true ->
  exists word l m r,
    word ∈ wordSet /\ toLowerCase rt text = l ++ m ++ r /\
    Forall2 (caseEq rt) word m /\
    WordRegex.isWordAt (last l) = false /\
    WordRegex.isWordAt (head r) = false.
Proof.
  intros Hw [Ht (word & Hin & Hne & Hocc)]%TextFacts.matchesAny1_spec.
  destruct (Hw word Hin) as [Hh Hl].
  destruct (RegexFacts.regex_whole_word rt laws text word Hh Hl)
    as (l & m & r & H).
  { apply TextFacts.matchesAny1_spec. split; [done|]. exists word.
    split; [left|done]. }
  by exists word, l, m, r.
Qed.

Lemma regex_matcher_whole_word_witness :
  let rt := Reference.runtime in
  exists word l m r,
    word ∈ [js "job"; js "jobs"] /\
    toLowerCase rt (js "new jobs, today") = l ++ m ++ r /\
    Forall2 (caseEq rt) word m /\
    WordRegex.isWordAt (last l) = false /\
    WordRegex.isWordAt (head r) = false.
Proof.
  apply (regex_matcher_whole_word Reference.runtime
           ReferenceFacts.runtime_laws (js "new jobs, today")
           [js "job"; js "jobs"]).
  - intros word [->|[->|H%elem_of_nil]%elem_of_cons]%elem_of_cons;
      [split; reflexivity|split; reflexivity|done].
  - vm_compute. reflexivity.
Defined.

(** X7. In [src/unnamed/part_002] the normalizer, the expander and the token
    matcher fit together: a normalized text matches the word set built from
    the keywords exactly when some element of the set, free of white space,
    occurs in the text as a whole piece between spaces or the ends. *)
Theorem token_matcher_whole_token (rt : Runtime) (laws : RuntimeLaws rt)
  (s : list N) (words : list (list N)) :
  let text := DomUtils2.normalizeText rt s in
  let wordSet := DomUtils2.generateNormalizedWordSet rt words in
  DomUtils2.matchesAny rt text wordSet = true <->
  exists word, word ∈ wordSet /\ existsb isSpace word = false /\
    wholeToken word text.
Proof. by apply TextFacts.token_pipeline. Qed.

Lemma token_matcher_whole_token_witness :
  let rt := Reference.runtime in
  let text := DomUtils2.normalizeText rt (js "Tecnologia e IA, hoje!") in
  let wordSet := DomUtils2.generateNormalizedWordSet rt [js "ia"; js "Jobs"] in
  text = js "tecnologia e ia hoje" /\
  wordSet = [js "ia"; js "jobs"; js "job"] /\
  DomUtils2.matchesAny rt text wordSet = true /\
  exists word, word ∈ wordSet /\ existsb isSpace word = false /\
    wholeToken word text.
Proof.
  split; [vm_compute; reflexivity|]. split; [vm_compute; reflexivity|].
  split; [vm_compute; reflexivity|].
  apply (token_matcher_whole_token Reference.runtime
           ReferenceFacts.runtime_laws (js "Tecnologia e IA, hoje!")
           [js "ia"; js "Jobs"]).
  vm_compute. reflexivity.
Defined.

(** * Further properties of the content script *)

Import JS Facts Content Props EngineProps.

(** X8. After [reprocessAllPosts], whatever turns follow except the arrival
    of a post, a change of the text of a post outside its pass, or a change
    of configuration without a reprocess, the feed ends as the policy wants
    it: once no call of [processPost] is suspended and no batch is waiting,
    every post in the document whose normalized text is not empty is hidden
    exactly when [shouldHidePost] says so for its text under the current
    configuration.  Such a state is always reached by completing the passes
    and batches under way, when the batch size is not zero. *)
Theorem reprocess_converges (V : Variant) :
  (forall (e : Engine) (ev : event) (e1 : Engine) (evs : list event)
          (e2 : Engine),
     step V e ev e1 -> reprocesses ev = true ->
     steadyRun V e1 evs e2 -> idle e2 ->
     forall (post : nat) (p : Post),
       document e2 !! post = Some p -> attached p = true ->
       normalizeText V (extractPostText p) <> [] ->
       hidden p = verdict V e2 p) /\
  (batchSize V <> Some O ->
   forall e : Engine,
     exists (evs : list event) (e' : Engine),
       steadyRun V e evs e' /\ forallb completes evs = true /\ idle e').
Proof.
  split.
  - intros e ev e1 evs e2 Hstep Hev Hrun Hidle post p Hp Hat Ht.
    apply (EngineFacts.converging_idle V e2 post p); try done.
    apply (EngineFacts.converging_run V e1 evs e2); [done|].
    by apply (EngineFacts.converging_after V e ev e1).
  - intros Hn e. by apply EngineFacts.completion.
Qed.

(** A feed of two posts, one about spam; the keyword arrives by a change of
    the stored words, the text of the second post grows while its pass is
    suspended, and the two passes complete. *)
Lemma reprocess_converges_witness :
  let V := script2 Reference.runtime in
  let post1 := {| attached := true; blocks := [js "This is SPAM content"];
                  seeMore := false; processed := false; expanded := false;
                  hidden := false |} in
  let post2 := {| attached := true; blocks := [js "A walk in the"];
                  seeMore := true; processed := false; expanded := false;
                  hidden := true |} in
  let e := withDocument (<[2%nat := post2]> {[ 1%nat := post1 ]}) initial in
  let ev := StorageChanged None None (Some (JArray [JString (js "spam")])) in
  let e1 := storageChanged V None None
              (Some (JArray [JString (js "spam")])) e in
  let grown := setContent [js "A walk in the park, no s p a m"] false
                 (setExpanded true (setProcessed true post2)) in
  let e1' := withDocument (<[2%nat := grown]> (document e1)) e1 in
  let e2 := processPostResume V 2%nat (withSuspended ([] ++ [])
              (processPostResume V 1%nat
                 (withSuspended ([2%nat] ++ []) e1'))) in
  steadyRun V e1
    [ContentChanged 2%nat [js "A walk in the park, no s p a m"] false;
     Resume 1%nat; Resume 2%nat] e2 /\
  idle e2 /\
  (forall (post : nat) (p : Post),
     document e2 !! post = Some p -> attached p = true ->
     normalizeText V (extractPostText p) <> [] ->
     hidden p = verdict V e2 p) /\
  (hidden <$> document e2 !! 1%nat) = Some true /\
  (hidden <$> document e2 !! 2%nat) = Some false.
Proof.
  intros V post1 post2 e ev e1 grown e1' e2.
  assert (Hrun : steadyRun V e1
            [ContentChanged 2%nat [js "A walk in the park, no s p a m"] false;
             Resume 1%nat; Resume 2%nat] e2).
  { eapply steadyRun_cons;
      [apply (step_content V e1 2%nat (setExpanded true
                (setProcessed true post2))); vm_compute; reflexivity
      |vm_compute; reflexivity|].
    eapply steadyRun_cons;
      [apply (step_resume V e1' 1%nat [2%nat] []); vm_compute; reflexivity
      |reflexivity|].
    eapply steadyRun_cons; [|reflexivity|apply steadyRun_nil].
    apply (step_resume V _ 2%nat [] []). vm_compute. reflexivity. }
  assert (Hidle : idle e2) by (split; vm_compute; reflexivity).
  split; [exact Hrun|]. split; [exact Hidle|]. split.
  - apply (proj1 (reprocess_converges V) e ev e1
             [ContentChanged 2%nat [js "A walk in the park, no s p a m"] false;
              Resume 1%nat; Resume 2%nat] e2).
    + apply step_storage.
    + reflexivity.
    + exact Hrun.
    + exact Hidle.
  - split; vm_compute; reflexivity.
Defined.

(** X9. While the filter is off, paused or without keywords, and the
    configuration is not changed, no turn hides a post or reports a count:
    the only effects are posts shown (and highlighted), and the counter
    keeps its value or is reset to 0. *)
Theorem inactive_never_hides (V : Variant) (e : Engine) (evs : list event)
  (e' : Engine) :
  run V e evs e' -> forallb keepsConfig evs = true -> inactive e ->
  inactive e' /\
  (sessionHiddenCount e' = sessionHiddenCount e \/
   sessionHiddenCount e' = 0%Z) /\
  exists new, effects e' = effects e ++ new /\ forallb silent new = true.
Proof. apply EngineFacts.inactive_run. Qed.

Lemma inactive_never_hides_witness :
  let V := script1 Reference.runtime in
  let post := {| attached := true; blocks := [js "This is SPAM content"];
                 seeMore := false; processed := false; expanded := false;
                 hidden := true |} in
  let e := withConfig
             {| mode := JString (js "blacklist"); paused := JBool true;
                words := JArray [JString (js "spam")] |}
             [js "spam"; js "spams"]
             (withDocument {[ 1%nat := post ]} initial) in
  let e' := processPostResume V 1%nat
              (withSuspended ([] ++ []) (processPostEnter 1%nat e)) in
  effects e' = [ShowPost 1%nat] /\
  exists new, effects e' = effects e ++ new /\ forallb silent new = true.
Proof.
  intros V post e e'. split; [vm_compute; reflexivity|].
  apply (inactive_never_hides V e [Discover 1%nat; Resume 1%nat] e').
  - eapply run_cons; [apply step_discover|].
    eapply run_cons; [|apply run_nil].
    apply (step_resume V _ 1%nat [] []). vm_compute. reflexivity.
  - reflexivity.
  - left. reflexivity.
Defined.

(** X10. Between two resets the counter counts the hide operations: over
    turns that do not reset it, it grows by the number of posts hidden, and
    after a reset it is the number of posts hidden since. *)
Theorem sessionHiddenCount_counts_hides (V : Variant) :
  (forall (e : Engine) (evs : list event) (e' : Engine),
     run V e evs e' ->
     forallb (fun ev => negb (resetsCounter ev)) evs = true ->
     exists new, effects e' = effects e ++ new /\
       sessionHiddenCount e' =
       (sessionHiddenCount e
        + Z.of_nat (length (List.filter hides new)))%Z) /\
  (forall (e : Engine) (ev : event) (e1 : Engine) (evs : list event)
          (e2 : Engine),
     step V e ev e1 -> resetsCounter ev = true -> run V e1 evs e2 ->
     forallb (fun ev => negb (resetsCounter ev)) evs = true ->
     exists new, effects e2 = effects e1 ++ new /\
       sessionHiddenCount e2 = Z.of_nat (length (List.filter hides new))).
Proof.
  split; [apply EngineFacts.hides_run|].
  intros e ev e1 evs e2 Hstep Hev Hrun Hevs.
  destruct (EngineFacts.hides_run V e1 evs e2 Hrun Hevs) as (new & E & C).
  exists new. split; [done|].
  pose proof (ContentFacts.count_step V _ _ _ Hstep) as H0.
  rewrite Hev in H0. rewrite C, H0. lia.
Qed.

Lemma sessionHiddenCount_counts_hides_witness :
  let V := script1 Reference.runtime in
  let post := {| attached := true; blocks := [js "This is SPAM content"];
                 seeMore := false; processed := false; expanded := false;
                 hidden := false |} in
  let e := withCount 7
             (withConfig
                {| mode := JString (js "blacklist"); paused := JBool false;
                   words := JArray [JString (js "spam")] |}
                [js "spam"; js "spams"]
                (withDocument {[ 1%nat := post ]} initial)) in
  let e1 := reprocessAllPosts V e in
  let e2 := processPostResume V 1%nat (withSuspended ([] ++ []) e1) in
  sessionHiddenCount e2 = 1%Z /\
  exists new, effects e2 = effects e1 ++ new /\
    sessionHiddenCount e2 = Z.of_nat (length (List.filter hides new)).
Proof.
  intros V post e e1 e2. split; [vm_compute; reflexivity|].
  apply (proj2 (sessionHiddenCount_counts_hides V) e Reprocess e1
           [Resume 1%nat] e2).
  - apply step_reprocess.
  - reflexivity.
  - eapply run_cons; [|apply run_nil].
    apply (step_resume V e1 1%nat [] []). vm_compute. reflexivity.
  - reflexivity.
Defined.

(** X11. Switching the filter off shows the feed again.  When a reprocess
    leaves the filter off, and the configuration is not changed afterwards,
    then once the passes and batches under way are complete every post of
    the document that has text is shown.  A change of [paused] to a truthy
    value leaves the filter off, and so does a change of [words] to an empty
    list or to a falsy value (the word set of an empty list being empty, as
    in both scripts). *)
Theorem inactive_shows_all (V : Variant) :
  (forall (e : Engine) (ev : event) (e1 : Engine) (evs : list event)
          (e2 : Engine),
     step V e ev e1 -> reprocesses ev = true -> inactive e1 ->
     steadyRun V e1 evs e2 -> forallb keepsConfig evs = true -> idle e2 ->
     forall (post : nat) (p : Post),
       document e2 !! post = Some p -> attached p = true ->
       normalizeText V (extractPostText p) <> [] -> hidden p = false) /\
  (forall (e : Engine) (newMode newWords : option jsval) (v : jsval),
     truthy v = true ->
     reprocesses (StorageChanged newMode (Some v) newWords) = true ->
     inactive (storageChanged V newMode (Some v) newWords e)) /\
  (generateNormalizedWordSet V [] = [] ->
   forall (e : Engine) (newMode newPaused : option jsval) (v : jsval),
     v = JArray [] \/ truthy v = false ->
     inactive (storageChanged V newMode newPaused (Some v) e)).
Proof.
  split; [|split].
  - intros e ev e1 evs e2 Hstep Hev Hin Hrun Hk Hidle post p Hp Hat Ht.
    pose proof (EngineFacts.steadyRun_run V _ _ _ Hrun) as Hrun'.
    destruct (EngineFacts.inactive_run V _ _ _ Hrun' Hk Hin) as (Hin2 & _).
    rewrite (EngineFacts.converging_idle V e2 post p); try done.
    + by apply EngineFacts.shouldHide_inactive.
    + apply (EngineFacts.converging_run V e1 evs e2); [done|].
      by apply (EngineFacts.converging_after V e ev e1).
  - intros e newMode newWords v. apply EngineFacts.storageChanged_paused.
  - intros Hempty e newMode newPaused v.
    by apply EngineFacts.storageChanged_cleared.
Qed.

(** A post hidden for the keyword [spam] is shown again when the filter is
    paused. *)
Lemma inactive_shows_all_witness :
  let V := script2 Reference.runtime in
  let post := {| attached := true; blocks := [js "This is SPAM content"];
                 seeMore := false; processed := true; expanded := false;
                 hidden := true |} in
  let e := withConfig
             {| mode := JString (js "blacklist"); paused := JBool false;
                words := JArray [JString (js "spam")] |}
             [js "spam"; js "spams"]
             (withDocument {[ 1%nat := post ]} initial) in
  let ev := StorageChanged None (Some (JBool true)) None in
  let e1 := storageChanged V None (Some (JBool true)) None e in
  let e2 := processPostResume V 1%nat (withSuspended ([] ++ []) e1) in
  idle e2 /\ (hidden <$> document e2 !! 1%nat) = Some false /\
  forall (post : nat) (p : Post),
    document e2 !! post = Some p -> attached p = true ->
    normalizeText V (extractPostText p) <> [] -> hidden p = false.
Proof.
  intros V post e ev e1 e2.
  assert (Hidle : idle e2) by (split; vm_compute; reflexivity).
  split; [exact Hidle|]. split; [vm_compute; reflexivity|].
  apply (proj1 (inactive_shows_all V) e ev e1 [Resume 1%nat] e2).
  - apply step_storage.
  - reflexivity.
  - apply (proj1 (proj2 (inactive_shows_all V))); reflexivity.
  - eapply steadyRun_cons; [|reflexivity|apply steadyRun_nil].
    apply (step_resume V e1 1%nat [] []). vm_compute. reflexivity.
  - reflexivity.
  - exact Hidle.
Defined.

(** X12. The visibility of a post changes at the completion of its own pass
    and nowhere else.  A turn that is not the completion of a pass hides or
    shows no post, reports no count, highlights nothing, and leaves every
    post as visible as it was: a reprocess, a sweep or a restart of the
    observer does not show or hide anything by itself.  The only thing such
    a turn does to the page is the removal of the highlights, once, by the
    storage listener when [mode] goes from [whitelist] to [blacklist]; no
    other turn removes them.  The completion of the pass of a post leaves
    the other posts alone, sets the visibility of the post to the decision
    of the policy when the post has text, and leaves it alone when it has
    none. *)
Theorem visibility_changes_on_completion (V : Variant) (e : Engine)
  (ev : event) (e' : Engine) :
  step V e ev e' ->
  (isResume ev = false ->
   effects e' = effects e /\
   forall (post : nat) (p : Post), document e !! post = Some p ->
     exists p', document e' !! post = Some p' /\ hidden p' = hidden p) /\
  highlightRemovals e' =
    (if removesHighlights e ev then S (highlightRemovals e)
     else highlightRemovals e) /\
  (forall post : nat, ev = Resume post ->
   forall (q : nat) (p : Post), document e !! q = Some p ->
     exists p', document e' !! q = Some p' /\
       hidden p' =
       if decide (q = post) then
         match normalizeText V (extractPostText p) with
         | [] => hidden p
         | _ => verdict V e p
         end
       else hidden p).
Proof.
  intros Hstep. split; [|split].
  - intros Hev. split; [by apply (EngineFacts.effects_nonresume V e ev)|].
    by apply (EngineFacts.keeps_step V e ev).
  - exact (EngineFacts.removals_step V e ev e' Hstep).
  - intros post -> q p Hq. inversion Hstep; subst.
    by apply EngineFacts.resume_visibility.
Qed.

(** A hidden post stays hidden through the change of [mode] from
    [whitelist] to [blacklist], which removes the highlights, until its pass
    completes. *)
Lemma visibility_changes_on_completion_witness :
  let V := script2 Reference.runtime in
  let post := {| attached := true; blocks := [js "This is SPAM content"];
                 seeMore := false; processed := true; expanded := false;
                 hidden := true |} in
  let e := withConfig
             {| mode := JString (js "whitelist"); paused := JBool false;
                words := JArray [JString (js "news")] |}
             [js "news"]
             (withDocument {[ 1%nat := post ]} initial) in
  let ev := StorageChanged (Some (JString (js "blacklist"))) None None in
  let e' := storageChanged V (Some (JString (js "blacklist"))) None None e in
  effects e' = effects e /\
  (hidden <$> document e' !! 1%nat) = Some true /\
  highlightRemovals e' = 1%nat /\
  forall (q : nat) (p : Post), document e !! q = Some p ->
    exists p', document e' !! q = Some p' /\ hidden p' = hidden p.
Proof.
  intros V post e ev e'.
  pose proof (visibility_changes_on_completion V e ev e'
                (step_storage V e _ None None)) as (H1 & H2 & _).
  destruct (H1 eq_refl) as (Heff & Hkeep).
  split; [exact Heff|]. split; [vm_compute; reflexivity|].
  split; [exact H2|]. exact Hkeep.
Defined.

(** * Further properties of highlighting *)

Import JS Facts Content Props MarkupProps.

(** X13. [highlightKeywords] of [src/content/dom-utils.js] leaves the
    element alone exactly when the mode is not [whitelist], the set is
    empty, the text is blank, or no keyword of the set has a match of its
    bounded pattern in the text; any markup it writes is longer than the
    text. *)
Theorem highlightKeywords_marks_iff_match (rt : Runtime) (text : list N)
  (words : list (list N)) (mode : list N) :
  (DomUtils.highlightKeywords rt text words mode = None <->
   mode <> js "whitelist" \/ words = [] \/ trim text = [] \/
   forall word, word ∈ words -> word <> [] ->
     WordRegex.test rt (WordRegex.escapeRegExp word) text = false) /\
  (forall marked,
     DomUtils.highlightKeywords rt text words mode = Some marked ->
     (length text < length marked)%nat).
Proof. apply MarkupFacts.highlightKeywords_cases. Qed.

(** X14. When [highlightFoundKeywords] of [src/unnamed/part_002] rewrites a
    text element, the element keeps its text: the new markup, with the
    keywords inside [strong] elements, has the [textContent] of the old
    one. *)
Theorem highlightFoundKeywords_keeps_text (rt : Runtime)
  (wordSet : list (list N)) (html html' : list Highlight2.node) :
  Highlight2.highlightElement rt wordSet html = Some (Some html') ->
  textOf html' = textOf html.
Proof. apply MarkupFacts.highlightElement_text. Qed.

Lemma highlightFoundKeywords_keeps_text_witness :
  let rt := Reference.runtime in
  let html := [Highlight2.Text (js "Deep Learning and learning, ");
               Highlight2.Element (js "a") [Highlight2.Text (js "more")]] in
  let html' := [Highlight2.Text (js "Deep ");
                Highlight2.strong (js "Learning");
                Highlight2.Text (js " and ");
                Highlight2.strong (js "learning");
                Highlight2.Text (js ", ");
                Highlight2.Element (js "a") [Highlight2.Text (js "more")]] in
  Highlight2.highlightElement rt [js "learning"; js "learnings"] html
    = Some (Some html') /\
  textOf html' = textOf html.
Proof.
  intros rt html html'.
  assert (H : Highlight2.highlightElement rt [js "learning"; js "learnings"]
                html = Some (Some html')) by (vm_compute; reflexivity).
  split; [exact H|].
  exact (highlightFoundKeywords_keeps_text rt _ html html' H).
Defined.

(** * Further properties of the popup and of the service worker *)

Import JS Facts Content Props.

(** X15. Every keyword [parseKeywords] returns is not empty, has no white
    space at its ends and contains no comma, line feed or carriage return;
    the words of a [.csv] file are parsed in the same way. *)
Theorem parseKeywords_keywords_clean (input : list N) :
  Forall cleanKeyword (Popup.parseKeywords input) /\
  Popup.csvWords input = Popup.parseKeywords input.
Proof.
  split; [apply PopupFacts.parseKeywords_clean|].
  unfold Popup.csvWords, Popup.parseKeywords.
  destruct input as [|c input]; [done|].
  apply filter_ext. intros w. by destruct w.
Qed.

(** X16. [arraysEqual] decides the equality of two arrays of strings, so
    leaving the text area saves exactly when the keywords parsed from it
    differ from the stored ones; and the text area filled by [updateUI],
    the stored keywords joined by line feeds, parses back to these
    keywords, so that leaving it untouched saves nothing. *)
Theorem handleAutoSave_round_trip :
  (forall a b : list (list N), Popup.arraysEqual a b = true <-> a = b) /\
  (forall (value : list N) (words : list (list N)),
     Popup.handleAutoSave value words = false <->
     Popup.parseKeywords value = words) /\
  (forall words : list (list N), Forall cleanKeyword words ->
     Popup.parseKeywords (Popup.join [10] words) = words /\
     Popup.handleAutoSave (Popup.join [10] words) words = false).
Proof.
  assert (H : forall value words,
            Popup.handleAutoSave value words = false <->
            Popup.parseKeywords value = words).
  { intros value words. unfold Popup.handleAutoSave.
    rewrite negb_false_iff. apply PopupFacts.arraysEqual_spec. }
  split; [apply PopupFacts.arraysEqual_spec|]. split; [exact H|].
  intros words Hwords.
  pose proof (PopupFacts.parseKeywords_join words Hwords) as Hp.
  split; [done|]. by apply H.
Qed.

Lemma handleAutoSave_round_trip_witness :
  let words := [js "job"; js "machine learning"; js "c++"] in
  Popup.join [10] words
  = js "job" ++ [10] ++ js "machine learning" ++ [10] ++ js "c++" /\
  Popup.parseKeywords (Popup.join [10] words) = words /\
  Popup.handleAutoSave (Popup.join [10] words) words = false.
Proof.
  split; [reflexivity|].
  apply (proj2 (proj2 handleAutoSave_round_trip)).
  repeat constructor; discriminate.
Defined.

(** X17. The keywords [normalizeKeywords] returns have no duplicate; they
    are the non-empty normalized forms of the keywords given, each without
    white space at its ends and without a combining mark of
    U+0300-U+036F. *)
Theorem normalizeKeywords_members (rt : Runtime)
  (keywords : list (list N)) :
  NoDup (Popup.normalizeKeywords rt keywords) /\
  (forall y, y ∈ Popup.normalizeKeywords rt keywords <->
     y <> [] /\ exists w, w ∈ keywords /\ Popup.normalizeKeyword rt w = y) /\
  Forall (fun y => trim y = y /\ quiet markMatch y)
    (Popup.normalizeKeywords rt keywords).
Proof.
  split; [apply PopupFacts.normalizeKeywords_NoDup|].
  split; [apply PopupFacts.normalizeKeywords_spec|].
  apply Forall_forall. intros y (_ & w & _ & <-)%PopupFacts.normalizeKeywords_spec.
  apply PopupFacts.normalizeKeyword_shape.
Qed.

(** X18. The merge of an import keeps the keywords of the profile and adds
    the normalized keywords of the file: the result has no duplicate, holds
    exactly the words of both, begins with the current keywords in their
    order when these have no duplicate, and importing the same file once
    more changes nothing. *)
Theorem mergeWords_import (rt : Runtime)
  (currentWords importWords : list (list N)) :
  let merged := Popup.mergeWords rt currentWords importWords in
  NoDup merged /\
  (forall y, y ∈ merged <->
     y ∈ currentWords \/ y ∈ Popup.normalizeKeywords rt importWords) /\
  (NoDup currentWords -> currentWords `prefix_of` merged) /\
  Popup.mergeWords rt merged importWords = merged.
Proof.
  split; [apply PopupFacts.mergeWords_NoDup|].
  split; [apply PopupFacts.mergeWords_spec|].
  split; [apply PopupFacts.mergeWords_prefix|].
  apply PopupFacts.mergeWords_again.
Qed.

Lemma mergeWords_import_witness :
  let rt := Reference.runtime in
  Popup.mergeWords rt [js "job"; js "spam"]
    [js " Spam"; js "Caf" ++ [0xE9]; js "job"; js "  "]
  = [js "job"; js "spam"; js "cafe"] /\
  [js "job"; js "spam"] `prefix_of`
    Popup.mergeWords rt [js "job"; js "spam"]
      [js " Spam"; js "Caf" ++ [0xE9]; js "job"; js "  "].
Proof.
  split; [vm_compute; reflexivity|].
  apply (mergeWords_import Reference.runtime [js "job"; js "spam"]).
  apply NoDup_cons. split; [|apply NoDup_singleton].
  intros H%list_elem_of_singleton. discriminate.
Defined.

(** X19. The badge text is empty exactly for a count that is not positive;
    it is [99+] for a count above 99 and below [10^21]; from 1 to 99 it is
    the count in decimal digits; from [10^21] on, where [toString] writes
    the count in exponent notation, it is the first digit written; it never
    has more than three characters. *)
Theorem badgeText_spec (exponentDigit : Z -> Background.digit) (count : Z) :
  let badgeText := Background.badgeText exponentDigit in
  (badgeText count = [] <-> (count <= 0)%Z) /\
  ((99 < count < 10 ^ 21)%Z -> badgeText count = js "99+") /\
  ((0 < count <= 99)%Z ->
     decimalValue (badgeText count) = count /\
     forallb isDigit (badgeText count) = true) /\
  ((10 ^ 21 <= count)%Z ->
     badgeText count =
     [Z.to_N (48 + Background.digitValue (exponentDigit count))]) /\
  (length (badgeText count) <= 3)%nat.
Proof.
  intros badgeText. unfold badgeText.
  pose proof (BadgeFacts.digitValue_bounds (exponentDigit count)) as Hd.
  assert (Hsmall : forall n : Z,
            Background.parseCount exponentDigit count = n ->
            ((Background.badgeText exponentDigit count = [] <-> (n <= 0)%Z) /\
             ((99 < n)%Z ->
              Background.badgeText exponentDigit count = js "99+") /\
             ((0 < n <= 99)%Z ->
              Background.badgeText exponentDigit count
              = Background.toString n))).
  { intros n Hn. unfold Background.badgeText. cbv zeta. rewrite Hn.
    destruct (0 <? n)%Z eqn:H0.
    - apply Z.ltb_lt in H0. destruct (99 <? n)%Z eqn:H99.
      + apply Z.ltb_lt in H99. repeat split; try done; lia.
      + apply Z.ltb_ge in H99. split; [|split; [lia|done]].
        split; [|lia].
        by destruct (BadgeFacts.toString_value n) as (_ & _ & Hne); [lia|].
    - apply Z.ltb_ge in H0. repeat split; try done; lia. }
  destruct (BadgeFacts.parseCount_cases exponentDigit count)
    as [[Ha Hp]|[[Ha Hp]|[Ha Hp]]];
    destruct (Hsmall _ Hp) as (Hempty & Hmany & Hfew).
  - split; [exact Hempty|]. split; [intros [H _]; by apply Hmany|].
    split; [|split; [lia|apply BadgeFacts.badgeText_short]].
    intros H. rewrite (Hfew H).
    destruct (BadgeFacts.toString_value count) as (Hv & Hdg & _); [lia|done].
  - split; [rewrite Hempty; lia|]. split; [lia|]. split; [lia|].
    split; [|apply BadgeFacts.badgeText_short].
    intros _. rewrite Hfew by lia.
    by destruct (exponentDigit count).
  - split; [rewrite Hempty; lia|]. split; [lia|]. split; [lia|].
    split; [lia|apply BadgeFacts.badgeText_short].
Qed.

(** X20. The handlers of the service worker keep the badges in step with
    [tabHiddenCounts].  From a state in which every badge that is set shows
    the count cached for its tab, as when the worker starts with no badge
    set, whatever count messages and tab events are handled, and whenever
    the browser resets a badge, the badge a tab has shows the count cached
    for that tab; a tab without a cached count shows no number. *)
Theorem worker_badges_consistent (exponentDigit : Z -> Background.digit)
  (w0 : Background.Worker) (messages : list Background.message) :
  consistent exponentDigit w0 ->
  let w := foldl (fun w m => Background.handle exponentDigit m w) w0
             messages in
  consistent exponentDigit w /\
  (forall (tabId : nat) (text : list N),
     Background.tabHiddenCounts w !! tabId = None ->
     Background.badges w !! tabId = Some text -> text = []).
Proof.
  intros H0. cbv zeta.
  pose proof (BadgeFacts.run_consistent exponentDigit messages w0 H0) as H.
  split; [exact H|]. intros tabId text Hc Hb.
  rewrite (H tabId text Hb). unfold Background.cachedCount. by rewrite Hc.
Qed.

(** Two tabs: the first reports 5 hidden posts, navigates within LinkedIn
    and shows 5 again; the second reports 120 and leaves LinkedIn. *)
Lemma worker_badges_consistent_witness :
  let exponentDigit := fun _ : Z => Background.D1 in
  let w := foldl (fun w m => Background.handle exponentDigit m w)
             Background.start
             [Background.CountMessage (Some 7%nat) 5;
              Background.BadgeReset 7%nat;
              Background.TabUpdated 7%nat true;
              Background.CountMessage (Some 8%nat) 120;
              Background.TabUpdated 8%nat false] in
  consistent exponentDigit Background.start /\
  Background.badges w !! 7%nat = Some (js "5") /\
  Background.badges w !! 8%nat = Some [] /\
  consistent exponentDigit w.
Proof.
  intros exponentDigit w.
  split; [exact (BadgeFacts.start_consistent exponentDigit)|].
  split; [vm_compute; reflexivity|]. split; [vm_compute; reflexivity|].
  exact (proj1 (worker_badges_consistent exponentDigit Background.start _
                  (BadgeFacts.start_consistent exponentDigit))).
Defined.

(** * The text of a post *)

(** X21. [extractPostText] returns the empty string when no candidate block
    has more than ten characters once trimmed.  Otherwise it returns the
    first of the longest candidate blocks, in the order in which
    [getTextContentElements] finds them: every block before it is strictly
    shorter, no block after it is longer, and it has more than ten
    characters. *)
Theorem extractPostText_longest_block (p : Post) :
  (getTextContentElements p = [] -> extractPostText p = []) /\
  (getTextContentElements p <> [] ->
   (10 < length (extractPostText p))%nat /\
   exists before after,
     getTextContentElements p = before ++ extractPostText p :: after /\
     Forall (fun b => (length b < length (extractPostText p))%nat) before /\
     Forall (fun b => (length b <= length (extractPostText p))%nat) after).
Proof.
  split.
  - intros H. unfold extractPostText. by rewrite H.
  - intros Hne.
    destruct (PostFacts.extractPostText_first_longest p Hne)
      as (before & after & Heq & Hb & Ha).
    split; [|by exists before, after].
    apply (PostFacts.getTextContentElements_long p).
    rewrite Heq. apply elem_of_app. right. left.
Qed.

(** A repost: the long text comes first and is the one selected; when the
    longest block is a link, the text of the post normalizes to nothing. *)
Lemma extractPostText_longest_block_witness :
  let repost := {| attached := true;
                   blocks := [js "A long text about SPAM and more";
                              js "short repost"; js "x"];
                   seeMore := false; processed := false; expanded := false;
                   hidden := false |} in
  let link := {| attached := true;
                 blocks := [js "https://example.com/some/very/long/path";
                            js "short text here!"];
                 seeMore := false; processed := false; expanded := false;
                 hidden := false |} in
  extractPostText repost = js "A long text about SPAM and more" /\
  (10 < length (extractPostText repost))%nat /\
  extractPostText link = js "https://example.com/some/very/long/path" /\
  DomUtils.normalizeText Reference.runtime (extractPostText link) = [].
Proof.
  intros repost link.
  split; [vm_compute; reflexivity|]. split; [|split; vm_compute; reflexivity].
  apply (proj2 (extractPostText_longest_block repost)).
  vm_compute. discriminate.
Defined.
